(** * The proxy's object cache (cache.c) and its dispatcher (proxy.c)

    The cache of cache.c is a doubly linked list of heap nodes reached from
    the global pointer [cache], with the byte total kept in [cache_size].
    The embedding keeps that shape: a heap of nodes addressed by pointers,
    each function of cache.c as a function on the state (heap, [cache],
    [cache_size]) that returns [None] where the C program has no defined
    result: a dereference of NULL or of a freed node, a copy that leaves its
    buffer, or a walk along [next] pointers that does not end.

    Three things are taken as given.  [malloc] succeeds and returns an
    address that is not allocated.  The [ssize_t] numbers are integers: on
    the states the program reaches they stay between 0 and a little over
    [MAX_CACHE_SIZE] ([reachable_cache_size_range]), far from the ends of
    their range.  And the socket functions of csapp.h, which is not among
    the sources, are known by what they return: [connect_server] is a
    function of those results, in the order of its calls.

    The handlers of proxy.c are threads.  Each of their calls of
    [get_web_object] and of [write_cache] is made with [cache_mutex] held,
    so that these calls happen one after another: a list of operations is
    the order in which the handlers have made them.  What a handler does
    between its calls is not under the mutex.

    The request handling of proxy.c works on [char] arrays.  An array is
    the list of its characters, and the functions of string.h, stdio.h,
    stdlib.h and ctype.h that the proxy calls are given by what the C
    standard says of them, on such lists; a copy that does not fit its
    array has no defined result. *)

From stdpp Require Import gmap strings list fin_maps.
From Stdlib Require Import ZArith Strings.Byte Strings.Ascii.

Local Open Scope Z_scope.

(** * Part I: the code *)

(** ** Constants *)

(** cache.c, lines 21-22 (and again proxy.c, lines 49-50). *)
Definition MAX_CACHE_SIZE : Z := 1024 * 1024.
Definition MAX_OBJECT_SIZE : Z := 100 * 1024.

(** errno.h: the error number of a write to a connection closed by the
    peer. *)
Definition EPIPE : Z := 32.

(** ** Data model *)

(** A pointer to a node is [option addr]; [None] is NULL. *)
Abbreviation addr := positive.

(** cache.h, [struct Cache].  The two buffers [url] and [web_object] are
    owned by their node alone and are kept inside it. *)
Record Cache := mkCache {
  url : string;
  web_object : list byte;
  block_size : Z;
  next : option addr;
  prev : option addr
}.

Abbreviation heap_t := (gmap addr Cache).

(** The globals [cache] and [cache_size] of cache.h, with the allocated
    nodes. *)
Record state := mkState {
  heap : heap_t;
  cache : option addr;
  cache_size : Z
}.

(** [a->next = v] and [a->prev = v]; undefined when [a] is not allocated. *)
Definition set_next (a : addr) (v : option addr) (h : heap_t) : option heap_t :=
  c ← h !! a;
  Some (<[a := mkCache (url c) (web_object c) (block_size c) v (prev c)]> h).

Definition set_prev (a : addr) (v : option addr) (h : heap_t) : option heap_t :=
  c ← h !! a;
  Some (<[a := mkCache (url c) (web_object c) (block_size c) (next c) v]> h).

(** ** cache.c *)

(** [init_cache], lines 172-176. *)
Definition init_cache : state := mkState ∅ None 0.

(** The four statements that put [entry] in front of a list that is not
    empty, as they stand at lines 44-47, at lines 54-57 and at lines
    162-165: [cache->prev = entry; entry->next = cache; entry->prev = NULL;
    cache = entry]. *)
Definition to_front (entry : addr) (s : state) : option state :=
  c ← cache s;
  h1 ← set_prev c (Some entry) (heap s);
  h2 ← set_next entry (cache s) h1;
  h3 ← set_prev entry None h2;
  Some (mkState h3 (Some entry) (cache_size s)).

(** [move_to_head], lines 29-61. *)
Definition move_to_head (entry : addr) (s : state) : option state :=
  if decide (cache s = Some entry) then Some s
  else
    e ← heap s !! entry;
    s1 ← match next e, prev e with
         | Some n, Some p =>
             (* entry in the middle *)
             h1 ← set_next p (next e) (heap s);
             e1 ← h1 !! entry;
             h2 ← set_prev n (prev e1) h1;
             to_front entry (mkState h2 (cache s) (cache_size s))
         | _, _ => Some s
         end;
    e2 ← heap s1 !! entry;
    match next e2, prev e2 with
    | None, Some p =>
        (* entry at the back *)
        h1 ← set_next p None (heap s1);
        to_front entry (mkState h1 (cache s1) (cache_size s1))
    | _, _ => Some s1
    end.

(** The first loop of [evict_entries], lines 74-76:
    [while (e->next != NULL) e = e->next;]. *)
Fixpoint last_entry (fuel : nat) (h : heap_t) (e : addr) : option addr :=
  match fuel with
  | O => None
  | S fuel' =>
      c ← h !! e;
      match next c with
      | None => Some e
      | Some n => last_entry fuel' h n
      end
  end.

(** The do-while loop of [evict_entries], lines 80-93.  Every round frees a
    node, so the rounds are bounded by the number of allocated nodes. *)
Fixpoint evict_loop (fuel : nat) (h : heap_t) (e : addr) (freed space : Z)
  : option (heap_t * Z) :=
  match fuel with
  | O => None
  | S fuel' =>
      c ← h !! e;
      let freed := freed + block_size c in
      p ← prev c;
      h1 ← set_next p None h;
      let h2 := delete e h1 in
      if bool_decide (freed < space) then evict_loop fuel' h2 p freed space
      else Some (h2, freed)
  end.

(** [evict_entries], lines 68-99. *)
Definition evict_entries (space : Z) (s : state) : option state :=
  e ← cache s;
  e ← last_entry (S (size (heap s))) (heap s) e;
  '(h, freed) ← evict_loop (S (size (heap s))) (heap s) e 0 space;
  Some (mkState h (cache s) (cache_size s - freed)).

(** The search loop of [get_web_object], lines 108-117, up to the node it
    stops at. *)
Fixpoint find_entry (fuel : nat) (h : heap_t) (cur : option addr)
    (request_url : string) : option (option addr) :=
  match fuel with
  | O => None
  | S fuel' =>
      match cur with
      | None => Some None
      | Some a =>
          c ← h !! a;
          if String.eqb request_url (url c) then Some (Some a)
          else find_entry fuel' h (next c) request_url
      end
  end.

(** [get_web_object], lines 107-119: the entry found (or NULL) and the state
    the call leaves. *)
Definition get_web_object (request_url : string) (s : state)
  : option (option addr * state) :=
  r ← find_entry (S (size (heap s))) (heap s) (cache s) request_url;
  match r with
  | Some cur => s' ← move_to_head cur s; Some (Some cur, s')
  | None => Some (None, s)
  end.

Section Store.

(** csapp.h, which is not among the sources, fixes the length [MAXLINE] of
    the buffer that [write_cache] allocates for the key. *)
Variable MAXLINE : Z.

(** [write_cache], lines 129-167.  [web_object] is what the caller's buffer
    holds; [memcpy] reads its first [block_size] bytes, and [strcpy] needs
    the key with its terminator to fit in [MAXLINE] bytes.  The node that
    [malloc] returns is at an address that is not allocated, [fresh]. *)
Definition write_cache (url : string) (web_object : list byte)
    (block_size : Z) (s : state) : option state :=
  '(r, s) ← get_web_object url s;
  match r with
  | Some _ => Some s
  | None =>
      s ← (if bool_decide (cache_size s + block_size > MAX_CACHE_SIZE)
           then evict_entries block_size s else Some s);
      let s := mkState (heap s) (cache s) (cache_size s + block_size) in
      if bool_decide (MAXLINE ≤ Z.of_nat (String.length url)) then None
      else if bool_decide (block_size < 0
                           ∨ Z.of_nat (length web_object) < block_size)
      then None
      else
        let entry := fresh (dom (heap s)) in
        let h := <[entry := {| url := url;
                               web_object := take (Z.to_nat block_size) web_object;
                               block_size := block_size;
                               next := None;
                               prev := None |}]> (heap s) in
        match cache s with
        | None => Some (mkState h (Some entry) (cache_size s))
        | Some _ => to_front entry (mkState h (cache s) (cache_size s))
        end
  end.

End Store.

(** The loop of [release_cache], lines 184-195.  Every round frees a node,
    so the rounds are bounded by the number of allocated nodes. *)
Fixpoint release_loop (fuel : nat) (h : heap_t) (cur : option addr)
  : option heap_t :=
  match fuel with
  | O => None
  | S fuel' =>
      match cur with
      | None => Some h
      | Some a =>
          c ← h !! a;
          let tmp := next c in
          h1 ← set_next a None h;
          h2 ← set_prev a None h1;
          release_loop fuel' (delete a h2) tmp
      end
  end.

(** [release_cache], lines 181-197.  Neither [cache] nor [cache_size] is
    assigned. *)
Definition release_cache (s : state) : option state :=
  h ← release_loop (S (size (heap s))) (heap s) (cache s);
  Some (mkState h (cache s) (cache_size s)).

(** ** proxy.c: the miss path of the dispatcher *)

(** What [connect_server] gets from its sockets, which it reads through
    csapp.h's [rio] functions: those are taken as given, in the order of the
    calls. *)
Inductive event :=
  | Chunk (buf : list byte) (wr : option Z)
    (** [rio_readnb] returned the [length buf] bytes of [buf]; the
        [rio_writen] of them to the client then succeeded ([None]) or
        returned -1 and left the error number [e] ([Some e]). *)
  | ReadError (e : Z).
    (** [rio_readnb] returned -1. *)

Record origin := mkOrigin {
  connects : bool;
    (** [open_clientfd] returned a descriptor. *)
  hdr_errno : option Z;
    (** the error number left by the [rio_writen] of the request headers,
        if it failed. *)
  body : list event
    (** what the reads of the relay loop return, up to the read that
        returns 0. *)
}.

(** [memcpy(object + obj_size, buf, buflen)] on the array [object]. *)
Definition memcpy_at (object : list byte) (obj_size : Z) (buf : list byte)
  : list byte :=
  take (Z.to_nat obj_size) object ++ buf
  ++ drop (Z.to_nat obj_size + length buf) object.

(** The relay loop of [connect_server], lines 367-381: the array [object],
    [obj_size], [errno] and the buffers handed to [rio_writen] for the
    client, when the loop is left.  A read that returns -1 is taken for a
    read of -1 bytes.  The test of line 371 decides whether [memcpy] gets
    that length, for which it has no defined result; when the test fails
    it is [rio_writen], of csapp.h, that gets it first, with the [MAXLINE]
    bytes of [buf], and the model has no result for that call either. *)
Fixpoint relay (evs : list event) (object : list byte) (obj_size : Z)
    (errno : Z) (sent : list (list byte))
  : option (list byte * Z * Z * list (list byte)) :=
  match evs with
  | [] => Some (object, obj_size, errno, sent)
  | ReadError _ :: _ =>
      (* the return value is not tested: buflen = -1 *)
      let buflen := -1 in
      if bool_decide (obj_size + buflen ≤ MAX_OBJECT_SIZE)
      then (* memcpy(object + obj_size, buf, buflen) *) None
      else (* rio_writen(connfd, buf, buflen) *) None
  | Chunk buf wr :: evs' =>
      let buflen := Z.of_nat (length buf) in
      if bool_decide (buflen = 0) then Some (object, obj_size, errno, sent)
      else
        let object :=
          if bool_decide (obj_size + buflen ≤ MAX_OBJECT_SIZE)
          then memcpy_at object obj_size buf else object in
        let obj_size := obj_size + buflen in
        let sent := sent ++ [buf] in
        match wr with
        | None => relay evs' object obj_size errno sent
        | Some e =>
            if bool_decide (e = EPIPE) then Some (object, obj_size, e, sent)
            else relay evs' object obj_size e sent
        end
  end.

Section Dispatcher.
Variable MAXLINE : Z.

(** [connect_server], lines 347-392: the state it leaves and what it handed
    to [rio_writen] for the client.  [object0] is what the local array
    [object] holds on entry and [errno] the thread's error number then. *)
Definition connect_server (o : origin) (object0 : list byte) (errno : Z)
    (url : string) (s : state) : option (state * list (list byte)) :=
  if negb (connects o) then Some (s, [])
  else
    let errno := default errno (hdr_errno o) in
    '(object, obj_size, errno, sent) ← relay (body o) object0 0 errno [];
    if bool_decide (obj_size ≤ MAX_OBJECT_SIZE ∧ errno ≠ EPIPE)
    then s' ← write_cache MAXLINE url object obj_size s; Some (s', sent)
    else Some (s, sent).

End Dispatcher.

(** [serve_cache], lines 187-196: the bytes it hands to [rio_writen], read
    from the node that the lookup has returned.  [forward_request] calls it
    after it has released the mutex (lines 165-171). *)
Definition serve_cache (entry : addr) (s : state) : option (list byte) :=
  c ← heap s !! entry;
  if bool_decide (Z.of_nat (length (web_object c)) < block_size c) then None
  else Some (take (Z.to_nat (block_size c)) (web_object c)).

(** ** proxy.c: C strings *)

(** A [char] array is the list of its characters.  The string it holds is
    what comes before its first NUL; an array without NUL holds none, and a
    function of string.h that reads it has no defined result. *)
Definition NUL : ascii := "000"%char.

Fixpoint cstr (b : list ascii) : option (list ascii) :=
  match b with
  | [] => None
  | c :: b' => if Ascii.eqb c NUL then Some [] else (c ::.) <$> cstr b'
  end.

(** A string literal of the source. *)
Definition lit (s : string) : list ascii := String.list_ascii_of_string s.

Fixpoint starts_with (needle s : list ascii) : bool :=
  match needle with
  | [] => true
  | c :: needle' =>
      match s with
      | [] => false
      | d :: s' => Ascii.eqb c d && starts_with needle' s'
      end
  end.

(** Where [needle] first occurs in the string [s]. *)
Fixpoint find_sub (needle s : list ascii) : option nat :=
  if starts_with needle s then Some O
  else match s with
       | [] => None
       | _ :: s' => S <$> find_sub needle s'
       end.

(** [strstr(b + i, needle)]: the index in [b] of the first occurrence of
    [needle] in the string that starts at [b + i], or NULL. *)
Definition strstr (b : list ascii) (i : nat) (needle : list ascii)
  : option (option nat) :=
  s ← cstr (drop i b);
  Some ((λ j, (i + j)%nat) <$> find_sub needle s).

(** [strcpy(dst, src)], where [src] holds the string [s]: the array [dst]
    afterwards.  The copy of [s] and its NUL must fit. *)
Definition strcpy (dst s : list ascii) : option (list ascii) :=
  if bool_decide (length s < length dst)%nat
  then Some (s ++ NUL :: drop (S (length s)) dst)
  else None.

(** ** proxy.c: the request *)

(** [parse_uri], lines 206-262, on the four arrays it is given: what they
    hold when it returns.  [uri] is written to and restored. *)
Definition parse_uri (uri hostname port path : list ascii)
  : option (list ascii * list ascii * list ascii * list ascii) :=
  r ← strstr uri 0 (lit "//");
  let ptrhost := match r with
                 | None => O
                 | Some i => (i + 2)%nat
                 end in
  ptrpath ← strstr uri ptrhost (lit "/");
  '(path, uri) ← match ptrpath with
                 | None =>
                     (* *path = '/' *)
                     match path with
                     | [] => None
                     | _ :: p => Some ("/"%char :: p, uri)
                     end
                 | Some i =>
                     s ← cstr (drop i uri);
                     path ← strcpy path s;
                     Some (path, <[i := NUL]> uri)
                 end;
  ptrport ← strstr uri ptrhost (lit ":");
  '(port, uri) ← match ptrport with
                 | None => port ← strcpy port (lit "80"); Some (port, uri)
                 | Some i =>
                     s ← cstr (drop (S i) uri);
                     port ← strcpy port s;
                     Some (port, <[i := NUL]> uri)
                 end;
  s ← cstr (drop ptrhost uri);
  hostname ← strcpy hostname s;
  let uri := match ptrpath with
             | Some i => <[i := "/"%char]> uri
             | None => uri
             end in
  let uri := match ptrport with
             | Some i => <[i := ":"%char]> uri
             | None => uri
             end in
  Some (uri, hostname, port, path).

(** ** proxy.c: the request headers and the handler *)

(** "\r\n". *)
Definition CRLF : list ascii := ["013"%char; "010"%char].

(** ctype.h, in the "C" locale. *)
Definition isspace (c : ascii) : bool :=
  bool_decide (c ∈ [" "%char; "009"%char; "010"%char; "011"%char;
                    "012"%char; "013"%char]).

Definition tolower (c : ascii) : ascii :=
  let n := nat_of_ascii c in
  if bool_decide (65 ≤ n ≤ 90)%nat then ascii_of_nat (n + 32) else c.

Fixpoint skip_space (s : list ascii) : list ascii :=
  match s with
  | c :: s' => if isspace c then skip_space s' else s
  | [] => []
  end.

(** The value of the decimal digits at the start of [s], after [acc]. *)
Fixpoint digits (s : list ascii) (acc : Z) : Z :=
  match s with
  | c :: s' =>
      let n := Z.of_nat (nat_of_ascii c) in
      if bool_decide (48 ≤ n ≤ 57) then digits s' (10 * acc + (n - 48))
      else acc
  | [] => acc
  end.

(** [atoi]; a value that is no [int] has no defined result. *)
Definition atoi (s : list ascii) : option Z :=
  let n := match skip_space s with
           | "-"%char :: s' => - digits s' 0
           | "+"%char :: s' => digits s' 0
           | s' => digits s' 0
           end in
  if bool_decide (- 2 ^ 31 ≤ n < 2 ^ 31) then Some n else None.

(** The constant [header_user_agent], lines 56-58. *)
Definition header_user_agent : list ascii :=
  lit "Mozilla/5.0 (X11; Linux x86_64; rv:3.10.0) Gecko/20190801 Firefox/63.0.1".

(** [strstr(s, needle) != NULL]. *)
Definition has (needle s : list ascii) : bool :=
  match find_sub needle s with
  | Some _ => true
  | None => false
  end.

Section Headers.
Variable MAXLINE : Z.

(** A string written to an array of [MAXLINE] characters by [strcpy],
    [strcat] or the [%s] of [sscanf], which do not check: it must fit with
    its NUL. *)
Definition fits (s : list ascii) : option (list ascii) :=
  if bool_decide (Z.of_nat (length s) < MAXLINE) then Some s else None.

(** [snprintf(headers, MAXLINE, ...)], given the string that the format and
    its arguments make: the string left in [headers], cut to fit. *)
Definition snprintf (s : list ascii) : list ascii :=
  take (Z.to_nat (MAXLINE - 1)) s.

(** The loop of [build_requesthdrs], lines 309-332.  [rio] is what the
    calls of [rio_readlineb] on the client's connection return and leave in
    [tmp], in their order. *)
Fixpoint header_loop (rio : list (Z * list ascii))
    (request_buf headers : list ascii) : option (list ascii) :=
  match rio with
  | [] => None
  | (n, tmp) :: rio' =>
      if bool_decide (n = -1) then Some headers
      else
        line ← cstr tmp;
        if bool_decide (line = CRLF) then Some (snprintf (request_buf ++ CRLF))
        else if has (lit "Host") line then header_loop rio' request_buf headers
        else if has (lit "User-Agent") line
        then header_loop rio' request_buf headers
        else if has (lit "Connection") line
        then header_loop rio' request_buf headers
        else if has (lit "Proxy-Connection") line
        then header_loop rio' request_buf headers
        else
          let headers := snprintf (request_buf ++ line) in
          let request_buf := headers in
          header_loop rio' request_buf headers
  end.

(** [build_requesthdrs], lines 276-334: the string it leaves in
    [headers]. *)
Definition build_requesthdrs (rio : list (Z * list ascii))
    (hostname port path : list ascii) : option (list ascii) :=
  h ← cstr hostname;
  hdrs_host ← fits h;
  p ← cstr port;
  n ← atoi p;
  hdrs_host ← (if bool_decide (n ≠ 80)
               then hdrs_host ← fits (hdrs_host ++ lit ":");
                    fits (hdrs_host ++ p)
               else Some hdrs_host);
  pa ← cstr path;
  let headers := snprintf (lit "GET " ++ pa ++ lit " HTTP/1.0" ++ CRLF) in
  let request_buf := headers in
  let headers := snprintf (request_buf ++ lit "Host: " ++ hdrs_host ++ CRLF) in
  let request_buf := headers in
  let headers :=
    snprintf (request_buf ++ lit "User-Agent: " ++ header_user_agent ++ CRLF) in
  let request_buf := headers in
  let headers := snprintf (request_buf ++ lit "Connection: close" ++ CRLF) in
  let request_buf := headers in
  let headers :=
    snprintf (request_buf ++ lit "Proxy-Connection: close" ++ CRLF) in
  let request_buf := headers in
  header_loop rio request_buf headers.

End Headers.

(** The characters up to the next white space, and what follows them. *)
Fixpoint scan_word (s : list ascii) : list ascii * list ascii :=
  match s with
  | c :: s' =>
      if isspace c then ([], s)
      else let '(w, r) := scan_word s' in (c :: w, r)
  | [] => ([], [])
  end.

(** One [%s] of [sscanf]: white space is skipped and a word is read, which
    must have a character; the word and what follows it. *)
Definition scan_s (s : list ascii) : option (list ascii * list ascii) :=
  match scan_word (skip_space s) with
  | ([], _) => None
  | (w, r) => Some (w, r)
  end.

(** [sscanf(buf, "%s %s %s", ...) == 3], with the three words. *)
Definition sscanf_sss (s : list ascii)
  : option (list ascii * list ascii * list ascii) :=
  '(a, r) ← scan_s s;
  '(b, r) ← scan_s r;
  '(c, _) ← scan_s r;
  Some (a, b, c).

(** [strcasecmp(a, b) == 0]. *)
Definition strcasecmp (a b : list ascii) : bool :=
  bool_decide (tolower <$> a = tolower <$> b).

(** The key of the cache that a string of the proxy is. *)
Definition key_of (uri : list ascii) : string := String.string_of_list_ascii uri.

Section Handler.
Variable MAXLINE : Z.

(** What the server at a host and port does when it is sent request
    headers, as [connect_server] meets it. *)
Variable net : list ascii → list ascii → list ascii → origin.

(** [forward_request], lines 138-179: the state it leaves and what it hands
    to [rio_writen] for the client.  [rio] is what the calls of
    [rio_readlineb] on the client's connection return and leave in their
    buffer; [hostname], [port], [path] and [object] are what these local
    arrays hold on entry, and [errno] is the thread's error number when
    [connect_server] is entered.  [buf] and the arrays that [sscanf] fills
    have [MAXLINE] characters; of the array [uri], [parse_uri] is given the
    word that [sscanf] has put there with its NUL, behind which the array
    is neither read nor written. *)
Definition forward_request (rio : list (Z * list ascii))
    (hostname port path : list ascii) (object : list byte) (errno : Z)
    (s : state) : option (state * list (list byte)) :=
  match rio with
  | [] => None
  | (n, buf) :: rio =>
      if bool_decide (n < 0) then Some (s, [])
      else
        line ← cstr buf;
        _ ← fits MAXLINE line;
        match sscanf_sss line with
        | None => Some (s, [])
        | Some (method, uri, version) =>
            if negb (strcasecmp method (lit "GET")) then Some (s, [])
            else
              '(entry, s) ← get_web_object (key_of uri) s;
              match entry with
              | Some entry => sent ← serve_cache entry s; Some (s, [sent])
              | None =>
                  '(uri, hostname, port, path) ←
                    parse_uri (uri ++ [NUL]) hostname port path;
                  requesthdrs ←
                    build_requesthdrs MAXLINE rio hostname port path;
                  url ← cstr uri;
                  h ← cstr hostname;
                  p ← cstr port;
                  connect_server MAXLINE (net h p requesthdrs) object errno
                    (key_of url) s
              end
        end
  end.

End Handler.

(** * Part II: the vocabulary of the claims *)

(** ** The store as the specification sees it *)

Record entry := Entry {
  e_key : string;
  e_value : list byte;
  e_size : Z
}.

Definition payload (c : Cache) : entry :=
  Entry (url c) (web_object c) (block_size c).

(** The nodes met from [p] along [next]. *)
Fixpoint walk (fuel : nat) (h : heap_t) (p : option addr) : list Cache :=
  match fuel with
  | O => []
  | S fuel' =>
      match p with
      | None => []
      | Some a =>
          match h !! a with
          | None => []
          | Some c => c :: walk fuel' h (next c)
          end
      end
  end.

(** The entries of the store, most recently used first. *)
Definition entries (s : state) : list entry :=
  payload <$> walk (size (heap s)) (heap s) (cache s).

Definition keys (s : state) : list string := e_key <$> entries s.

(** The bytes a list of entries holds. *)
Fixpoint total (l : list entry) : Z :=
  match l with
  | [] => 0
  | e :: l' => e_size e + total l'
  end.

(** The entry an insert stores. *)
Definition new_entry (url : string) (web_object : list byte)
    (block_size : Z) : entry :=
  Entry url (take (Z.to_nat block_size) web_object) block_size.

Definition bounded (es : list entry) : Prop :=
  Forall (λ e, 0 ≤ e_size e ≤ MAX_OBJECT_SIZE) es.

(** ** Sequences of operations *)

Inductive op :=
  | Lookup (k : string)
  | Insert (k : string) (v : list byte) (n : Z).

Definition op_key (o : op) : string :=
  match o with
  | Lookup k => k
  | Insert k _ _ => k
  end.

(** A key becomes the most recent one of a recency order. *)
Definition touch (k : string) (r : list string) : list string :=
  k :: filter (λ k', k' ≠ k) r.

Section Reachable.
Variable MAXLINE : Z.

(** What the dispatcher hands to [write_cache]: a key that fits the key
    buffer, a size within the per-object bound, and a buffer that holds that
    many bytes. *)
Definition admissible (url : string) (web_object : list byte)
    (block_size : Z) : Prop :=
  Z.of_nat (String.length url) < MAXLINE
  ∧ 0 ≤ block_size ≤ MAX_OBJECT_SIZE
  ∧ block_size ≤ Z.of_nat (length web_object).

Definition step (o : op) (s : state) : option state :=
  match o with
  | Lookup k => snd <$> get_web_object k s
  | Insert k v n => write_cache MAXLINE k v n s
  end.

Fixpoint run (ops : list op) (s : state) : option state :=
  match ops with
  | [] => Some s
  | o :: ops' => s' ← step o s; run ops' s'
  end.

Definition admissible_op (o : op) : Prop :=
  match o with
  | Lookup _ => True
  | Insert k v n => admissible k v n
  end.

(** An access as the code has it: a lookup that returns an entry, or an
    insert, which stores an entry or, when its key is present, finds the
    entry of the key with [get_web_object] and so moves it to the front. *)
Definition accesses (o : op) (s : state) : bool :=
  match o with
  | Lookup k =>
      match get_web_object k s with
      | Some (Some _, _) => true
      | _ => false
      end
  | Insert _ _ _ => true
  end.

(** The keys that the operations [ops], run from [s], have accessed, by
    their last access, latest first; [r] is that order before [ops]. *)
Fixpoint last_access (ops : list op) (s : state) (r : list string)
  : list string :=
  match ops with
  | [] => r
  | o :: ops' =>
      let r' := if accesses o s then touch (op_key o) r else r in
      match step o s with
      | Some s' => last_access ops' s' r'
      | None => r'
      end
  end.

(** An access as the specification words it: a lookup that returns an
    entry, or an insert that stores one.  An insert of a present key is no
    access there: the specification has it do nothing. *)
Definition spec_accesses (o : op) (s : state) : bool :=
  match o with
  | Lookup k =>
      match get_web_object k s with
      | Some (Some _, _) => true
      | _ => false
      end
  | Insert k _ _ => bool_decide (k ∉ keys s)
  end.

(** [last_access] with the accesses of the specification. *)
Fixpoint spec_last_access (ops : list op) (s : state) (r : list string)
  : list string :=
  match ops with
  | [] => r
  | o :: ops' =>
      let r' := if spec_accesses o s then touch (op_key o) r else r in
      match step o s with
      | Some s' => spec_last_access ops' s' r'
      | None => r'
      end
  end.

(** The state a sequence of operations leaves, started on the empty store
    (the empty store itself if an operation does not complete). *)
Definition state_after (ops : list op) : state :=
  default init_cache (run ops init_cache).

(** The states that completed lookups and completed inserts of admissible
    size produce from the empty store. *)
Inductive reachable : state → Prop :=
  | reach_init : reachable init_cache
  | reach_lookup s k r s' :
      reachable s → get_web_object k s = Some (r, s') → reachable s'
  | reach_insert s k v n s' :
      reachable s → 0 ≤ n ≤ MAX_OBJECT_SIZE →
      write_cache MAXLINE k v n s = Some s' → reachable s'.

(** The states the handlers of proxy.c produce: [forward_request] looks its
    key up (lines 165-167) and, on a miss, calls [connect_server]. *)
Inductive served : state → Prop :=
  | served_init : served init_cache
  | served_lookup s uri r s' :
      served s → get_web_object uri s = Some (r, s') → served s'
  | served_fetch s o object0 errno uri s' sent :
      served s → connect_server MAXLINE o object0 errno uri s = Some (s', sent) →
      served s'.

End Reachable.

(** ** Traces of the relay loop *)

(** The bytes of an event and whether the write of them to the client
    failed with [EPIPE], which is what leaves the relay loop early. *)
Definition chunk_buf (ev : event) : list byte :=
  match ev with
  | Chunk buf _ => buf
  | ReadError _ => []
  end.

Definition write_fails_epipe (ev : event) : bool :=
  match ev with
  | Chunk _ (Some e) => bool_decide (e = EPIPE)
  | _ => false
  end.

(** The events the loop gets to: all of them, or those up to the first
    write that fails with [EPIPE]. *)
Fixpoint relayed (evs : list event) : list event :=
  match evs with
  | [] => []
  | ev :: evs' => if write_fails_epipe ev then [ev] else ev :: relayed evs'
  end.

Definition broken (evs : list event) : bool := existsb write_fails_epipe evs.

Definition received (evs : list event) : list byte :=
  concat (chunk_buf <$> evs).

(** Every read of the origin returns data. *)
Definition reads_ok (evs : list event) : Prop :=
  Forall (λ ev, ∃ buf wr, ev = Chunk buf wr ∧ buf ≠ []) evs.

(** ** The insert of the specification *)

(** The insert as the specification words it: least recently used entries
    are evicted, oldest first, until [total_bytes + size <= MAX_CACHE_SIZE];
    the new entry is then put at the most recently used position.
    [spec_evict] takes the entries oldest first. *)
Fixpoint spec_evict (oldest_first : list entry) (n : Z) : list entry :=
  match oldest_first with
  | [] => []
  | _ :: rest =>
      if bool_decide (total oldest_first + n ≤ MAX_CACHE_SIZE)
      then oldest_first else spec_evict rest n
  end.

Definition spec_insert (k : string) (v : list byte) (n : Z) (l : list entry)
  : list entry :=
  new_entry k v n :: reverse (spec_evict (reverse l) n).

(** ** Representation: the list a heap holds *)

(** What a node's [next] is, given the nodes [l] that follow it in its
    segment and the pointer [q] that follows the segment. *)
Definition link (q : option addr) (l : list (addr * entry)) : option addr :=
  match l with
  | [] => q
  | x :: _ => Some x.1
  end.

(** What the [prev] of the node after [l] is, when [pv] is what comes before
    [l]. *)
Definition back (pv : option addr) (l : list (addr * entry)) : option addr :=
  match last l with
  | None => pv
  | Some x => Some x.1
  end.

(** [seg h pv l q]: the nodes at the addresses of [l] carry the entries of
    [l] and are linked in that order; the first one's [prev] is [pv] and the
    last one's [next] is [q]. *)
Fixpoint seg (h : heap_t) (pv : option addr) (l : list (addr * entry))
    (q : option addr) : Prop :=
  match l with
  | [] => True
  | x :: l' =>
      ∃ c, h !! x.1 = Some c ∧ payload c = x.2 ∧ prev c = pv
           ∧ next c = link q l' ∧ seg h (Some x.1) l' q
  end.

(** The state holds the list [l]: [cache] points to its first node, the
    list runs from NULL to NULL, and no node occurs twice. *)
Definition repr (s : state) (l : list (addr * entry)) : Prop :=
  cache s = link None l ∧ seg (heap s) None l None ∧ NoDup l.*1.

(** Two heaps with the same nodes up to their pointer fields. *)
Definition same_payload (h h' : heap_t) : Prop :=
  ∀ a, payload <$> h' !! a = payload <$> h !! a.

(** [h'] is [h] with the pointer fields of the node at [a] rewritten. *)
Definition touches (a : addr) (h h' : heap_t) : Prop :=
  (∀ b, b ≠ a → h' !! b = h !! b) ∧ payload <$> h' !! a = payload <$> h !! a.

(** ** The invariant of the store *)

(** The state holds the list [l], [cache_size] is its byte total and stays
    within [MAX_CACHE_SIZE], no key occurs twice and no entry is larger than
    [MAX_OBJECT_SIZE]. *)
Definition inv_for (s : state) (l : list (addr * entry)) : Prop :=
  repr s l ∧ cache_size s = total l.*2 ∧ NoDup (e_key <$> l.*2)
  ∧ bounded l.*2 ∧ cache_size s ≤ MAX_CACHE_SIZE.

Definition inv (s : state) : Prop := ∃ l, inv_for s l.

(** ** The allocated nodes *)

(** [h'] is [h] without the nodes at the addresses [gone]; the nodes left
    have kept their payload. *)
Definition frees (gone : list addr) (h h' : heap_t) : Prop :=
  ∀ b, (b ∈ gone → h' !! b = None)
       ∧ (b ∉ gone → payload <$> h' !! b = payload <$> h !! b).

(** Every entry holds as many bytes as its size says. *)
Definition sized (es : list entry) : Prop :=
  Forall (λ e, Z.of_nat (length (e_value e)) = e_size e) es.

(** The invariant of the store, with the heap: every allocated node is a
    node of the list, and the entries are [sized]. *)
Definition tidy (s : state) (l : list (addr * entry)) : Prop :=
  inv_for s l ∧ (∀ a, is_Some (heap s !! a) → a ∈ l.*1) ∧ sized l.*2.

(** ** The parts of a URI *)

(** The three parts [parse_uri] cuts the string [u] into: the host, the
    port, and the path if there is one. *)
Definition split_uri (u : list ascii)
  : list ascii * list ascii * option (list ascii) :=
  let w := match find_sub (lit "//") u with
           | None => u
           | Some i => drop (i + 2) u
           end in
  let '(auth, path) := match find_sub (lit "/") w with
                       | None => (w, None)
                       | Some j => (take j w, Some (drop j w))
                       end in
  let '(host, port) := match find_sub (lit ":") auth with
                       | None => (auth, lit "80")
                       | Some k => (take k auth, drop (S k) auth)
                       end in
  (host, port, path).

(** ** The request headers *)

(** A header line of the client that the proxy hands on. *)
Definition forwarded (line : list ascii) : bool :=
  negb (has (lit "Host") line || has (lit "User-Agent") line
        || has (lit "Connection") line || has (lit "Proxy-Connection") line).

(** The headers of a request to the origin, before the lines of the
    client. *)
Definition fixed_headers (path hdrs_host : list ascii) : list ascii :=
  lit "GET " ++ path ++ lit " HTTP/1.0" ++ CRLF
  ++ lit "Host: " ++ hdrs_host ++ CRLF
  ++ lit "User-Agent: " ++ header_user_agent ++ CRLF
  ++ lit "Connection: close" ++ CRLF
  ++ lit "Proxy-Connection: close" ++ CRLF.

(** The value of the Host header: the port is named unless it is 80. *)
Definition host_header (host port : list ascii) (n : Z) : list ascii :=
  if bool_decide (n = 80) then host else host ++ lit ":" ++ port.

(** The reads [rio] return the lines [ls], none of them the empty line, and
    none fails. *)
Definition header_lines (rio : list (Z * list ascii))
    (ls : list (list ascii)) : Prop :=
  Forall2 (λ r l, r.1 ≠ -1 ∧ cstr r.2 = Some l ∧ l ≠ CRLF) rio ls.

(** The first read of [rio] returns the request line of a GET of [uri]: a
    line that fits its buffer, of three words at least, the first of them
    GET in any letter case and the second [uri]. *)
Definition get_line (MAXLINE : Z) (rio : list (Z * list ascii))
    (uri : list ascii) : Prop :=
  ∃ n buf rio' line method version,
    rio = (n, buf) :: rio' ∧ 0 ≤ n ∧ cstr buf = Some line
    ∧ Z.of_nat (length line) < MAXLINE
    ∧ sscanf_sss line = Some (method, uri, version)
    ∧ strcasecmp method (lit "GET") = true.

(** ** Concrete runs *)

(** [n] zero bytes. *)
Definition bz (n : Z) : list byte := repeat x00 (Z.to_nat n).

(** The value csapp.h gives [MAXLINE]. *)
Definition csapp_MAXLINE : Z := 8192.

(** Three small objects. *)
Definition ops_cba : list op :=
  [Insert "a" (bz 3) 3; Insert "b" (bz 4) 4; Insert "c" (bz 5) 5].

Definition st_cba : state := state_after csapp_MAXLINE ops_cba.

(** One small object. *)
Definition st_one : state := state_after csapp_MAXLINE [Insert "a" (bz 3) 3].

(** A store 50 bytes short of [MAX_CACHE_SIZE]: an object of 60 bytes, one
    of 24466 bytes and ten of [MAX_OBJECT_SIZE] bytes, inserted in this
    order. *)
Definition ops_near_full : list op :=
  Insert "t1" (bz 60) 60 :: Insert "t2" (bz 24466) 24466
  :: ((λ k, Insert k (bz MAX_OBJECT_SIZE) MAX_OBJECT_SIZE)
      <$> ["0"; "1"; "2"; "3"; "4"; "5"; "6"; "7"; "8"; "9"]).

Definition st_near_full : state := state_after csapp_MAXLINE ops_near_full.

(** Twelve more objects of [MAX_OBJECT_SIZE] bytes, as other handlers may
    insert them. *)
Definition ops_flood : list op :=
  (λ k, Insert k (bz MAX_OBJECT_SIZE) MAX_OBJECT_SIZE)
  <$> ["f0"; "f1"; "f2"; "f3"; "f4"; "f5"; "f6"; "f7"; "f8"; "f9"; "f10";
       "f11"].

(** The three small objects, and a second insert of the first key. *)
Definition ops_reinsert : list op := ops_cba ++ [Insert "a" (bz 7) 7].

Definition ops_mixed : list op :=
  ops_cba ++ [Lookup "a"; Lookup "zz"; Insert "b" (bz 9) 9; Insert "d" (bz 1) 1].

(** An origin that sends three bytes in two reads, with a client that takes
    them. *)
Definition origin_ok : origin :=
  mkOrigin true None [Chunk [x01; x02] None; Chunk [x03] None].

(** The same, when the write of the request headers has failed with
    [EPIPE]. *)
Definition origin_stale : origin :=
  mkOrigin true (Some EPIPE) [Chunk [x01; x02] None; Chunk [x03] None].

Definition fetched_ok : state * list (list byte) :=
  default (init_cache, [])
    (connect_server csapp_MAXLINE origin_ok (bz MAX_OBJECT_SIZE) 0 "u" init_cache).

(** An array of [n] characters that holds no string yet. *)
Definition fresh_array (n : Z) : list ascii := repeat "?"%char (Z.to_nat n).

(** A request for http://example.org:8080/index.html with two header lines,
    as [rio_readlineb] returns it line by line. *)
Definition request_ex : list (Z * list ascii) :=
  [(49, lit "GET http://example.org:8080/index.html HTTP/1.0" ++ CRLF ++ [NUL]);
   (13, lit "Accept: */*" ++ CRLF ++ [NUL]);
   (19, lit "Host: example.org" ++ CRLF ++ [NUL]);
   (2, CRLF ++ [NUL])].

Definition uri_ex : list ascii := lit "http://example.org:8080/index.html".

(** Origins that all answer as [origin_ok] does. *)
Definition net_ex (h p hdrs : list ascii) : origin := origin_ok.

(** A handler that has served [request_ex] on the empty store. *)
Definition handled_ex : state * list (list byte) :=
  default (init_cache, [])
    (forward_request csapp_MAXLINE net_ex request_ex
       (fresh_array csapp_MAXLINE) (fresh_array csapp_MAXLINE)
       (fresh_array csapp_MAXLINE) (bz MAX_OBJECT_SIZE) 0 init_cache).

(** * Part III: lemmas *)

(** ** Segments *)

Section SegLemmas.
Implicit Types (h : heap_t) (l : list (addr * entry)) (a : addr).

Lemma link_app q l1 l2 : link q (l1 ++ l2) = link (link q l2) l1.
Proof. by destruct l1. Qed.

Lemma back_cons pv x l : back pv (x :: l) = back (Some x.1) l.
Proof.
  unfold back. destruct l as [|y l]; [done|].
  by rewrite !last_cons; destruct (last l).
Qed.

Lemma back_snoc pv l x : back pv (l ++ [x]) = Some x.1.
Proof. unfold back. by rewrite last_snoc. Qed.

Lemma seg_app h pv l1 l2 q :
  seg h pv (l1 ++ l2) q ↔ seg h pv l1 (link q l2) ∧ seg h (back pv l1) l2 q.
Proof.
  revert pv. induction l1 as [|x l1 IH]; intros pv; simpl.
  { unfold back; simpl. tauto. }
  rewrite back_cons, link_app. split.
  - intros (c & ? & ? & ? & ? & Hs). apply IH in Hs as [??]. eauto 10.
  - intros [(c & ? & ? & ? & ? & Hs) ?]. exists c. repeat split; try done.
    apply IH. done.
Qed.

Lemma seg_frame h h' pv l q :
  (∀ a, a ∈ l.*1 → h' !! a = h !! a) → seg h pv l q → seg h' pv l q.
Proof.
  revert pv. induction l as [|x l IH]; intros pv Hfr; [done|]. simpl.
  intros (c & ? & ? & ? & ? & Hs). exists c. repeat split; try done.
  - rewrite Hfr; [done|]. simpl. left.
  - apply IH; [|done]. intros a Ha. apply Hfr. simpl. by right.
Qed.

Lemma seg_lookup h pv l q a e :
  seg h pv l q → (a, e) ∈ l → ∃ c, h !! a = Some c ∧ payload c = e.
Proof.
  revert pv. induction l as [|x l IH]; intros pv Hs Hin.
  { by apply elem_of_nil in Hin. }
  destruct Hs as (c & ? & ? & ? & ? & Hs).
  apply elem_of_cons in Hin as [Heq|Hin]; [subst x; eauto|]. by eapply IH.
Qed.

Lemma seg_dom h pv l q a : seg h pv l q → a ∈ l.*1 → is_Some (h !! a).
Proof.
  intros Hs Ha. apply list_elem_of_fmap in Ha as ([a' e] & -> & Hin).
  destruct (seg_lookup _ _ _ _ _ _ Hs Hin) as (c & ? & ?). eauto.
Qed.

(** The walk of [entries] reads the list off the heap. *)
Lemma walk_seg h pv l fuel :
  seg h pv l None → (length l ≤ fuel)%nat →
  payload <$> walk fuel h (link None l) = l.*2.
Proof.
  revert pv l. induction fuel as [|fuel IH]; intros pv l Hs Hlen.
  { destruct l; [done|]. simpl in Hlen. lia. }
  destruct l as [|x l]; [done|].
  destruct Hs as (c & Hc & Hp & _ & Hn & Hs). simpl.
  rewrite Hc. simpl. rewrite Hp, Hn. f_equal.
  apply (IH (Some x.1)); [done|]. simpl in Hlen. lia.
Qed.

Lemma seg_length h pv l q : seg h pv l q → NoDup l.*1 → (length l ≤ size h)%nat.
Proof.
  intros Hs Hnd.
  rewrite <- (length_fmap fst l), <- (size_list_to_set (C:=gset addr) _ Hnd).
  rewrite <- (size_dom (D:=gset addr) h). apply subseteq_size.
  intros a Ha. apply elem_of_list_to_set in Ha. apply elem_of_dom.
  by eapply seg_dom.
Qed.

Lemma repr_entries s l : repr s l → entries s = l.*2.
Proof.
  intros (Hc & Hs & Hnd). unfold entries. rewrite Hc.
  eapply walk_seg; [done|]. by eapply seg_length.
Qed.

End SegLemmas.

(** ** Pointer updates *)

Section Updates.
Implicit Types (h : heap_t) (l : list (addr * entry)) (a : addr).

Lemma touches_same_payload a h h' : touches a h h' → same_payload h h'.
Proof.
  intros [Hne Heq] b. destruct (decide (b = a)) as [->|]; [done|].
  by rewrite Hne.
Qed.

Lemma same_payload_trans h1 h2 h3 :
  same_payload h1 h2 → same_payload h2 h3 → same_payload h1 h3.
Proof. intros H12 H23 a. by rewrite H23. Qed.

Lemma set_next_spec h a v c :
  h !! a = Some c →
  ∃ h', set_next a v h = Some h' ∧ touches a h h'
        ∧ h' !! a = Some (mkCache (url c) (web_object c) (block_size c) v (prev c)).
Proof.
  intros Hc. unfold set_next. rewrite Hc. simpl. eexists. split; [done|].
  split; [split|].
  - intros b Hb. by rewrite lookup_insert_ne.
  - by rewrite lookup_insert_eq, Hc.
  - by rewrite lookup_insert_eq.
Qed.

Lemma set_prev_spec h a v c :
  h !! a = Some c →
  ∃ h', set_prev a v h = Some h' ∧ touches a h h'
        ∧ h' !! a = Some (mkCache (url c) (web_object c) (block_size c) (next c) v).
Proof.
  intros Hc. unfold set_prev. rewrite Hc. simpl. eexists. split; [done|].
  split; [split|].
  - intros b Hb. by rewrite lookup_insert_ne.
  - by rewrite lookup_insert_eq, Hc.
  - by rewrite lookup_insert_eq.
Qed.

Lemma seg_touches h h' a pv l q :
  touches a h h' → a ∉ l.*1 → seg h pv l q → seg h' pv l q.
Proof.
  intros [Hne _] Ha. apply seg_frame. intros b Hb. apply Hne.
  intros ->. done.
Qed.

(** [x->next = q'] on the last node of a segment. *)
Lemma seg_set_next_last h pv l x q q' :
  seg h pv (l ++ [x]) q → x.1 ∉ l.*1 →
  ∃ h', set_next x.1 q' h = Some h' ∧ touches x.1 h h'
        ∧ seg h' pv (l ++ [x]) q'.
Proof.
  intros Hs Hx. apply seg_app in Hs as [Hl (c & Hc & Hp & Hpv & Hn & _)].
  destruct (set_next_spec h x.1 q' c Hc) as (h' & Hset & Ht & Hc').
  exists h'. repeat split; try done; try apply Ht.
  apply seg_app. split.
  - by eapply seg_touches.
  - eexists. repeat split; [exact Hc'|done..].
Qed.

(** [x->prev = pv'] on the first node of a segment. *)
Lemma seg_set_prev_first h pv pv' l x q :
  seg h pv (x :: l) q → x.1 ∉ l.*1 →
  ∃ h', set_prev x.1 pv' h = Some h' ∧ touches x.1 h h'
        ∧ seg h' pv' (x :: l) q.
Proof.
  intros (c & Hc & Hp & Hpv & Hn & Hl) Hx.
  destruct (set_prev_spec h x.1 pv' c Hc) as (h' & Hset & Ht & Hc').
  exists h'. repeat split; try done; try apply Ht.
  eexists. repeat split; [exact Hc'|done..|].
  by eapply seg_touches.
Qed.

Lemma touches_lookup_ne a b h h' c :
  touches a h h' → b ≠ a → h !! b = Some c → h' !! b = Some c.
Proof. intros [Hne _] ? ?. by rewrite Hne. Qed.

(** [to_front] on a node outside a non-empty list puts it before the
    list. *)
Lemma to_front_spec s l a e c :
  repr s l → l ≠ [] → a ∉ l.*1 → heap s !! a = Some c → payload c = e →
  ∃ s', to_front a s = Some s' ∧ repr s' ((a, e) :: l)
        ∧ cache_size s' = cache_size s ∧ same_payload (heap s) (heap s').
Proof.
  intros (Hc & Hs & Hnd) Hne Ha Hca Hpay.
  destruct l as [|x l]; [done|]. simpl in Hc.
  rewrite fmap_cons in Hnd, Ha.
  pose proof Hnd as Hnd'. apply NoDup_cons in Hnd' as [Hx Hnd'].
  apply not_elem_of_cons in Ha as [Hax Ha].
  destruct (seg_set_prev_first _ _ (Some a) _ _ _ Hs Hx) as (h1 & E1 & T1 & S1).
  pose proof (touches_lookup_ne _ _ _ _ _ T1 Hax Hca) as Hca1.
  destruct (set_next_spec h1 a (Some x.1) c Hca1) as (h2 & E2 & T2 & Hca2).
  destruct (set_prev_spec h2 a None _ Hca2) as (h3 & E3 & T3 & Hca3).
  simpl in Hca3.
  unfold to_front. rewrite Hc. simpl. rewrite E1. simpl. rewrite E2. simpl.
  rewrite E3. simpl. eexists. split; [done|]. split; [|split; [done|]].
  - split; [done|]. split; simpl.
    + eexists. split; [exact Hca3|]. split; [by rewrite <- Hpay|].
      split; [done|]. split; [done|].
      assert (a ∉ (x :: l).*1) by (rewrite fmap_cons; by apply not_elem_of_cons).
      apply (seg_touches h2 h3 a _ (x :: l) _ T3); [done|].
      apply (seg_touches h1 h2 a _ (x :: l) _ T2); [done|]. exact S1.
    + apply NoDup_cons. split; [|done]. by apply not_elem_of_cons.
  - simpl. eapply same_payload_trans; [by eapply touches_same_payload|].
    eapply same_payload_trans; by eapply touches_same_payload.
Qed.

End Updates.

(** ** [move_to_head] and [get_web_object] *)

Section Lookup.
Implicit Types (h : heap_t) (l : list (addr * entry)) (a : addr).

Lemma snoc_cases {A} (xs : list A) :
  xs = [] ∨ ∃ (ys : list A) (y : A), xs = ys ++ [y].
Proof. induction xs using rev_ind; eauto. Qed.

Lemma NoDup_app_mid (l1 l2 : list addr) a :
  NoDup (l1 ++ a :: l2) → (a ∉ l1) ∧ (a ∉ l2) ∧ NoDup (l1 ++ l2).
Proof.
  intros Hnd. apply NoDup_app in Hnd as (H1 & H12 & H2).
  apply NoDup_cons in H2 as [Ha2 H2]. repeat split.
  - intros Ha. apply (H12 a Ha). left.
  - done.
  - apply NoDup_app. repeat split; [done| |done].
    intros b Hb1 Hb2. apply (H12 b Hb1). by right.
Qed.

Lemma NoDup_fst_mid l1 x l2 :
  NoDup (l1 ++ x :: l2).*1 →
  (x.1 ∉ l1.*1) ∧ (x.1 ∉ l2.*1) ∧ NoDup (l1 ++ l2).*1.
Proof. rewrite !fmap_app, fmap_cons. apply NoDup_app_mid. Qed.

Lemma not_elem_of_fst_app a l1 l2 :
  a ∉ (l1 ++ l2).*1 ↔ (a ∉ l1.*1) ∧ (a ∉ l2.*1).
Proof. rewrite fmap_app. apply not_elem_of_app. Qed.

Lemma not_elem_of_fst_cons a x l :
  a ∉ (x :: l).*1 ↔ a ≠ x.1 ∧ (a ∉ l.*1).
Proof. rewrite fmap_cons. apply not_elem_of_cons. Qed.

Lemma not_elem_of_fst_nil a : a ∉ ([] : list (addr * entry)).*1.
Proof. apply not_elem_of_nil. Qed.

Ltac solve_notin :=
  repeat first
    [ done
    | apply not_elem_of_fst_nil
    | apply not_elem_of_fst_app; split
    | apply not_elem_of_fst_cons; split ].

(** [move_to_head] on a node of the list moves it to the front and leaves
    the order of the other nodes, and every payload, as they were. *)
Lemma move_to_head_spec s l1 a e l2 :
  repr s (l1 ++ (a, e) :: l2) →
  ∃ s', move_to_head a s = Some s' ∧ repr s' ((a, e) :: l1 ++ l2)
        ∧ cache_size s' = cache_size s ∧ same_payload (heap s) (heap s').
Proof.
  intros (Hc & Hs & Hnd). unfold move_to_head.
  destruct (snoc_cases l1) as [->|(l1' & p & Hl1)].
  { simpl in Hc. rewrite decide_True by done. exists s. by repeat split. }
  destruct (NoDup_fst_mid _ _ _ Hnd) as (Ha1 & Ha2 & Hnd').
  cbn [fst] in Ha1, Ha2.
  assert (cache s ≠ Some a) as Hca0.
  { rewrite Hc, Hl1. destruct l1' as [|y l1']; simpl; intros [= Heq];
      apply Ha1; rewrite Hl1, <- Heq, fmap_app, fmap_cons; [left|].
    rewrite fmap_cons. left. }
  rewrite decide_False by done.
  apply seg_app in Hs as [Hs1 (c & Hca & Hpay & Hpv & Hnx & Hs2)].
  cbn [fst snd] in Hca, Hpay, Hs1, Hs2.
  rewrite Hl1 in Hs1, Hpv, Ha1, Hnd'. rewrite back_snoc in Hpv.
  apply not_elem_of_fst_app in Ha1 as [Ha1' Hap].
  apply not_elem_of_fst_cons in Hap as [Hap _].
  rewrite <- app_assoc in Hnd'. cbn [app] in Hnd'.
  destruct (NoDup_fst_mid _ _ _ Hnd') as (Hp1 & Hp2 & _).
  rewrite Hca. simpl. rewrite Hnx, Hpv.
  destruct l2 as [|n l2]; cbn [link].
  - (* entry at the back *)
    simpl. rewrite Hca. simpl. rewrite Hnx, Hpv.
    destruct (seg_set_next_last _ _ _ _ _ None Hs1 Hp1) as (h1 & E1 & T1 & S1).
    rewrite E1. simpl. rewrite app_nil_r.
    destruct (to_front_spec (mkState h1 (cache s) (cache_size s))
                l1 a e c) as (s' & E & R & Hsz & Hsp); try done.
    { rewrite Hl1. split; [|split; [done|]].
      - simpl. rewrite Hc, Hl1. by destruct l1'.
      - exact Hnd'. }
    { rewrite Hl1. by destruct l1'. }
    { rewrite Hl1. solve_notin. }
    { simpl. by eapply touches_lookup_ne. }
    exists s'. repeat split; try done; try apply R.
    eapply same_payload_trans; [by eapply touches_same_payload|done].
  - (* entry in the middle *)
    destruct (seg_set_next_last _ _ _ _ _ (Some n.1) Hs1 Hp1)
      as (h1 & E1 & T1 & S1).
    rewrite E1. simpl.
    rewrite (touches_lookup_ne _ _ _ _ _ T1 Hap Hca). simpl.
    rewrite Hpv.
    apply not_elem_of_fst_cons in Ha2 as [Han Ha2].
    apply NoDup_fst_mid in Hnd as (_ & _ & Hnd).
    rewrite Hl1 in Hnd.
    destruct (NoDup_fst_mid _ _ _ Hnd) as (Hn1 & Hn2 & _).
    pose proof (seg_touches _ _ _ _ _ _ T1 Hp2 Hs2) as Hs2'.
    destruct (seg_set_prev_first _ _ (Some p.1) _ _ _ Hs2' Hn2)
      as (h2 & E2 & T2 & S2).
    rewrite E2. simpl.
    pose proof (seg_touches _ _ _ _ _ _ T2 Hn1 S1) as S1'.
    destruct (to_front_spec (mkState h2 (cache s) (cache_size s))
                ((l1' ++ [p]) ++ n :: l2) a e c) as (s' & E & R & Hsz & Hsp).
    { split; [|split; [|done]].
      - simpl. rewrite Hc, Hl1. by destruct l1'.
      - simpl. apply seg_app. rewrite back_snoc. done. }
    { by destruct l1'. }
    { solve_notin. }
    { simpl. eapply touches_lookup_ne; [done..|].
      by eapply touches_lookup_ne. }
    { done. }
    rewrite E. simpl. rewrite <- Hl1 in R.
    pose proof R as (_ & (c' & Hc' & _ & _ & Hn' & _) & _).
    cbn [fst] in Hc'. rewrite Hc'. simpl.
    assert (is_Some (next c')) as [? ->].
    { rewrite Hn', Hl1. by destruct l1'. }
    exists s'. repeat split; try done; try apply R.
    simpl in Hsp. eapply same_payload_trans; [by eapply touches_same_payload|].
    eapply same_payload_trans; [by eapply touches_same_payload|done].
Qed.

Lemma find_entry_miss h pv l fuel k :
  seg h pv l None → (length l < fuel)%nat → k ∉ e_key <$> l.*2 →
  find_entry fuel h (link None l) k = Some None.
Proof.
  revert pv fuel. induction l as [|x l IH]; intros pv fuel Hs Hlen Hk.
  { destruct fuel; [simpl in Hlen; lia|done]. }
  destruct fuel as [|fuel]; [simpl in Hlen; lia|].
  destruct Hs as (c & Hc & Hp & _ & Hn & Hs). simpl. rewrite Hc. simpl.
  rewrite !fmap_cons in Hk. apply not_elem_of_cons in Hk as [Hk1 Hk2].
  assert (url c = e_key x.2) as -> by (by rewrite <- Hp).
  apply String.eqb_neq in Hk1. rewrite Hk1, Hn.
  apply (IH (Some x.1)); [done| |done]. simpl in Hlen. lia.
Qed.

Lemma find_entry_hit h pv l1 a e l2 fuel :
  seg h pv (l1 ++ (a, e) :: l2) None → (length l1 < fuel)%nat →
  e_key e ∉ e_key <$> l1.*2 →
  find_entry fuel h (link None (l1 ++ (a, e) :: l2)) (e_key e) = Some (Some a).
Proof.
  revert pv fuel. induction l1 as [|x l1 IH]; intros pv fuel Hs Hlen Hk.
  - destruct fuel as [|fuel]; [simpl in Hlen; lia|].
    destruct Hs as (c & Hc & Hp & _). simpl in *. rewrite Hc. simpl.
    assert (url c = e_key e) as -> by (by rewrite <- Hp).
    by rewrite String.eqb_refl.
  - destruct fuel as [|fuel]; [simpl in Hlen; lia|].
    destruct Hs as (c & Hc & Hp & _ & Hn & Hs). simpl. rewrite Hc. simpl.
    rewrite !fmap_cons in Hk. apply not_elem_of_cons in Hk as [Hk1 Hk2].
    assert (url c = e_key x.2) as -> by (by rewrite <- Hp).
    apply String.eqb_neq in Hk1. rewrite Hk1, Hn.
    apply (IH (Some x.1)); [done| |done]. simpl in Hlen. lia.
Qed.

Lemma repr_fuel s l : repr s l → (length l < S (size (heap s)))%nat.
Proof.
  intros (_ & Hs & Hnd). pose proof (seg_length _ _ _ _ Hs Hnd). lia.
Qed.

(** A lookup that misses changes nothing. *)
Lemma get_web_object_miss s l k :
  repr s l → k ∉ e_key <$> l.*2 → get_web_object k s = Some (None, s).
Proof.
  intros Hr Hk. unfold get_web_object. destruct Hr as (Hc & Hs & Hnd).
  rewrite Hc, (find_entry_miss _ None l); [done..| |done].
  by apply repr_fuel.
Qed.

(** A lookup that hits returns the first node with the key and moves it to
    the front. *)
Lemma get_web_object_hit s l1 a e l2 :
  repr s (l1 ++ (a, e) :: l2) → e_key e ∉ e_key <$> l1.*2 →
  ∃ s', get_web_object (e_key e) s = Some (Some a, s')
        ∧ repr s' ((a, e) :: l1 ++ l2)
        ∧ cache_size s' = cache_size s ∧ same_payload (heap s) (heap s').
Proof.
  intros Hr Hk. unfold get_web_object.
  destruct (move_to_head_spec _ _ _ _ _ Hr) as (s' & E & R & Hsz & Hsp).
  pose proof (repr_fuel _ _ Hr) as Hfuel.
  destruct Hr as (Hc & Hs & Hnd).
  rewrite Hc, (find_entry_hit _ None); [|done| |done].
  - simpl. rewrite E. simpl. by exists s'.
  - rewrite length_app in Hfuel. lia.
Qed.

End Lookup.

(** ** [evict_entries] *)

Section Eviction.
Implicit Types (h : heap_t) (l : list (addr * entry)) (a : addr).

Lemma total_app (l1 l2 : list entry) : total (l1 ++ l2) = total l1 + total l2.
Proof. induction l1 as [|e l1 IH]; simpl; [done|]. rewrite IH. lia. Qed.

Lemma total_nonneg (es : list entry) :
  Forall (λ e, 0 ≤ e_size e) es → 0 ≤ total es.
Proof. induction 1; simpl; lia. Qed.

Lemma last_entry_spec h pv l y x fuel :
  seg h pv (y :: l) None → last (y :: l) = Some x → (length l < fuel)%nat →
  last_entry fuel h y.1 = Some x.1.
Proof.
  revert pv y fuel. induction l as [|z l IH]; intros pv y fuel Hs Hlast Hlen.
  - destruct fuel as [|fuel]; [simpl in Hlen; lia|].
    destruct Hs as (c & Hc & _ & _ & Hn & _). simpl in *.
    rewrite Hc. simpl. rewrite Hn. congruence.
  - destruct fuel as [|fuel]; [simpl in Hlen; lia|].
    destruct Hs as (c & Hc & _ & _ & Hn & Hs). simpl.
    rewrite Hc. simpl. rewrite Hn. simpl.
    apply (IH (Some y.1)); [done| |simpl in Hlen; lia].
    by rewrite last_cons_cons in Hlast.
Qed.

(** One round of the do-while loop on the last node [x] of a list with at
    least two nodes: [x] is cut off and freed. *)
Lemma evict_round h l x :
  seg h None (l ++ [x]) None → NoDup (l ++ [x]).*1 → l ≠ [] →
  ∃ c p h1, last l = Some p ∧ h !! x.1 = Some c ∧ block_size c = e_size x.2
            ∧ prev c = Some p.1 ∧ set_next p.1 None h = Some h1
            ∧ seg (delete x.1 h1) None l None.
Proof.
  intros Hs Hnd Hne.
  destruct (snoc_cases l) as [|(l' & p & ->)]; [done|].
  apply seg_app in Hs as [Hs1 (c & Hc & Hp & Hpv & _)].
  rewrite back_snoc in Hpv. cbn [link] in Hs1.
  pose proof Hnd as Hnd1. rewrite <- app_assoc in Hnd1. cbn [app] in Hnd1.
  apply NoDup_fst_mid in Hnd1 as (Hp1 & _ & _).
  destruct (seg_set_next_last _ _ _ _ _ None Hs1 Hp1) as (h1 & E1 & T1 & S1).
  exists c, p, h1. split; [by rewrite last_snoc|]. split; [done|].
  split; [by rewrite <- Hp|]. split; [done|]. split; [done|].
  eapply seg_frame; [|exact S1]. intros b Hb. apply lookup_delete_ne.
  intros <-. apply (NoDup_fst_mid _ _ []) in Hnd as (Hx & _ & _). done.
Qed.

(** The loop started at the last node [x] of [kept ++ ev ++ [x]] frees
    [x] and then the nodes of [ev], last first, when the bytes freed reach
    [space] with the first node of [ev ++ [x]] and not before; [kept], which
    must hold a node, is what is left. *)
Lemma evict_loop_spec ev : ∀ kept x h fuel freed space,
  seg h None ((kept ++ ev) ++ [x]) None → NoDup ((kept ++ ev) ++ [x]).*1 →
  kept ≠ [] → Forall (λ e, 0 ≤ e_size e) (ev ++ [x]).*2 →
  (length ev < fuel)%nat →
  ¬ (freed + total (ev ++ [x]).*2 < space) →
  (ev ≠ [] → freed + total (tail (ev ++ [x])).*2 < space) →
  ∃ h', evict_loop fuel h x.1 freed space
        = Some (h', freed + total (ev ++ [x]).*2)
        ∧ seg h' None kept None.
Proof.
  induction ev as [|y ev IH] using rev_ind;
    intros kept x h fuel freed space Hs Hnd Hk Hpos Hlen Hstop Hcont.
  - destruct fuel as [|fuel]; [simpl in Hlen; lia|].
    rewrite app_nil_r in Hs, Hnd.
    destruct (evict_round _ _ _ Hs Hnd Hk)
      as (c & p & h1 & Hlast & Hc & Hsz & Hpv & E1 & S1).
    simpl in Hstop |- *. rewrite Hc. simpl. rewrite Hpv. simpl.
    rewrite E1. simpl. rewrite Hsz.
    rewrite bool_decide_eq_false_2 by lia.
    eexists. split; [|done]. do 2 f_equal. lia.
  - destruct fuel as [|fuel]; [rewrite length_app in Hlen; simpl in Hlen; lia|].
    assert (kept ++ ev ++ [y] ≠ []) as Hne by (by destruct kept).
    destruct (evict_round _ _ _ Hs Hnd Hne)
      as (c & p & h1 & Hlast & Hc & Hsz & Hpv & E1 & S1).
    rewrite app_assoc, last_snoc in Hlast. injection Hlast as <-.
    simpl. rewrite Hc. simpl. rewrite Hpv. simpl. rewrite E1. simpl.
    rewrite Hsz.
    rewrite !fmap_app, !total_app in Hstop.
    rewrite !fmap_app in Hpos. apply Forall_app in Hpos as [Hpos Hposx].
    assert (tail ((ev ++ [y]) ++ [x]) = tail (ev ++ [y]) ++ [x]) as Htl
      by (by destruct ev).
    rewrite Htl, fmap_app, total_app in Hcont.
    assert (0 ≤ total (tail (ev ++ [y])).*2) as Hpos'.
    { apply total_nonneg. rewrite <- fmap_app in Hpos.
      destruct ev; simpl in *; [by apply Forall_nil|].
      by apply Forall_cons in Hpos as [_ ?]. }
    simpl in Hstop, Hcont.
    rewrite bool_decide_eq_true_2 by (specialize (Hcont ltac:(by destruct ev)); lia).
    rewrite app_assoc in S1.
    destruct (IH kept y (delete x.1 h1) fuel (freed + e_size x.2) space)
      as (h' & E & S'); try done.
    + apply NoDup_fst_mid in Hnd as (_ & _ & Hnd).
      by rewrite app_nil_r, app_assoc in Hnd.
    + by rewrite fmap_app.
    + rewrite length_app in Hlen. simpl in Hlen. lia.
    + rewrite fmap_app, total_app. simpl. lia.
    + intros Hev. specialize (Hcont ltac:(by destruct ev)). lia.
    + exists h'. split; [|done]. rewrite E. do 2 f_equal.
      rewrite !fmap_app, !total_app. simpl. lia.
Qed.

(** The loop on a whole list whose nodes behind the first hold less than
    [space] bytes: it gets to the first node, whose [prev] is NULL, and
    [e->prev->next = NULL] has no defined result there. *)
Lemma evict_loop_undefined ev : ∀ x h fuel freed space,
  seg h None (ev ++ [x]) None → NoDup (ev ++ [x]).*1 →
  Forall (λ e, 0 ≤ e_size e) (ev ++ [x]).*2 →
  freed + total (tail (ev ++ [x])).*2 < space →
  evict_loop fuel h x.1 freed space = None.
Proof.
  induction ev as [|y ev IH] using rev_ind;
    intros x h fuel freed space Hs Hnd Hpos Hlt;
    (destruct fuel as [|fuel]; [done|]).
  - destruct Hs as (c & Hc & _ & Hpv & _). simpl. rewrite Hc. simpl.
    by rewrite Hpv.
  - assert (ev ++ [y] ≠ []) as Hne by (by destruct ev).
    destruct (evict_round _ _ _ Hs Hnd Hne)
      as (c & p & h1 & Hlast & Hc & Hsz & Hpv & E1 & S1).
    rewrite last_snoc in Hlast. injection Hlast as <-.
    simpl. rewrite Hc. simpl. rewrite Hpv. simpl. rewrite E1. simpl.
    rewrite Hsz.
    assert (tail ((ev ++ [y]) ++ [x]) = tail (ev ++ [y]) ++ [x]) as Htl
      by (by destruct ev).
    rewrite Htl, fmap_app, total_app in Hlt. simpl in Hlt.
    rewrite fmap_app in Hpos. apply Forall_app in Hpos as [Hpos Hposx].
    assert (0 ≤ total (tail (ev ++ [y])).*2) as Hpos'.
    { apply total_nonneg.
      destruct ev; simpl in *; [by apply Forall_nil|].
      by apply Forall_cons in Hpos as [_ ?]. }
    rewrite bool_decide_eq_true_2 by lia.
    apply IH; [done| |done|lia].
    apply NoDup_fst_mid in Hnd as (_ & _ & Hnd). by rewrite app_nil_r in Hnd.
Qed.

(** [evict_entries] has no defined result when it is asked for more bytes
    than the nodes behind the first hold, and none on the empty list. *)
Lemma evict_entries_undefined s x rest space :
  repr s (x :: rest) → Forall (λ e, 0 ≤ e_size e) (x :: rest).*2 →
  total rest.*2 < space →
  evict_entries space s = None.
Proof.
  intros Hr Hpos Hlt. pose proof (repr_fuel _ _ Hr) as Hfuel.
  destruct Hr as (Hc & Hs & Hnd).
  destruct (snoc_cases (x :: rest)) as [|(ev & y & Heq)]; [done|].
  unfold evict_entries. rewrite Hc.
  remember (S (size (heap s))) as fuel eqn:Hf. clear Hf. simpl.
  rewrite (last_entry_spec _ None rest x y); [|done| |simpl in Hfuel; lia].
  2:{ by rewrite Heq, last_snoc. }
  simpl. rewrite Heq in Hs, Hnd, Hpos.
  rewrite (evict_loop_undefined ev y); [done..|].
  rewrite <- Heq. simpl. lia.
Qed.

Lemma evict_entries_empty s space : cache s = None → evict_entries space s = None.
Proof. intros Hc. unfold evict_entries. by rewrite Hc. Qed.

Lemma NoDup_fst_prefix (kept ev : list (addr * entry)) :
  NoDup (kept ++ ev).*1 → NoDup kept.*1.
Proof. rewrite fmap_app. intros Hnd. by apply NoDup_app in Hnd as (? & _). Qed.

(** [evict_entries] cuts off the nodes of [ev], a non-empty end of the list
    that leaves a node before it, when the bytes of [ev] reach [space] and
    those of [ev] without its first node do not. *)
Lemma evict_entries_spec s kept ev space :
  repr s (kept ++ ev) → kept ≠ [] → ev ≠ [] →
  Forall (λ e, 0 ≤ e_size e) ev.*2 →
  ¬ (total ev.*2 < space) →
  (tail ev ≠ [] → total (tail ev).*2 < space) →
  ∃ s', evict_entries space s = Some s' ∧ repr s' kept
        ∧ cache_size s' = cache_size s - total ev.*2.
Proof.
  intros Hr Hk Hev Hpos Hstop Hcont.
  pose proof (repr_fuel _ _ Hr) as Hfuel. destruct Hr as (Hc & Hs & Hnd).
  destruct (snoc_cases ev) as [|(ev0 & x & ->)]; [done|].
  destruct kept as [|y kept]; [done|].
  unfold evict_entries. rewrite Hc.
  remember (S (size (heap s))) as fuel eqn:Hf. clear Hf. simpl.
  rewrite (last_entry_spec _ None (kept ++ ev0 ++ [x]) y x); [|done| |].
  2:{ change (y :: kept ++ ev0 ++ [x]) with ((y :: kept) ++ ev0 ++ [x]).
      by rewrite !app_assoc, last_snoc. }
  2:{ simpl in Hfuel. lia. }
  simpl. rewrite app_assoc in Hs, Hnd.
  destruct (evict_loop_spec ev0 (y :: kept) x (heap s) fuel
              0 space) as (h' & E & S'); try done.
  - rewrite !length_app in Hfuel. simpl in Hfuel. lia.
  - intros Hev0. rewrite Z.add_0_l. apply Hcont.
    destruct ev0 as [|z ev0]; [done|]. simpl. by destruct ev0.
  - rewrite E. simpl. eexists. split; [done|]. split; [|simpl; lia].
    split; [done|]. split; [done|].
    rewrite <- app_assoc in Hnd. by eapply NoDup_fst_prefix.
Qed.

(** A list of entries that holds [space] bytes ends in a shortest run that
    does. *)
Lemma evict_split l space :
  0 < space → space ≤ total l.*2 →
  ∃ kept ev, l = kept ++ ev ∧ ev ≠ [] ∧ ¬ (total ev.*2 < space)
             ∧ total (tail ev).*2 < space.
Proof.
  intros Hsp. induction l as [|x l IH]; intros Htot; [simpl in Htot; lia|].
  destruct (decide (space ≤ total l.*2)) as [Hle|Hgt].
  - destruct (IH Hle) as (kept & ev & -> & ? & ? & ?).
    by exists (x :: kept), ev.
  - exists [], (x :: l). simpl in *. repeat split; [done|lia|lia].
Qed.

End Eviction.

(** ** [write_cache] *)

Section Insert.
Variable MAXLINE : Z.
Implicit Types (h : heap_t) (l : list (addr * entry)) (a : addr).

(** The end of [write_cache]: a fresh node is put before the list. *)
Lemma link_new_spec s l c sz :
  repr s l → next c = None → prev c = None →
  let a := fresh (dom (heap s)) in
  let h := <[a := c]> (heap s) in
  ∃ s', match cache s with
        | None => Some (mkState h (Some a) sz)
        | Some _ => to_front a (mkState h (cache s) sz)
        end = Some s'
        ∧ repr s' ((a, payload c) :: l) ∧ cache_size s' = sz.
Proof.
  intros (Hc & Hs & Hnd) Hn Hp a h.
  assert (heap s !! a = None) as Hfresh.
  { apply not_elem_of_dom. apply is_fresh. }
  assert (a ∉ l.*1) as Hal.
  { intros Hin. destruct (seg_dom _ _ _ _ _ Hs Hin) as [? Hsome]. congruence. }
  assert (seg h None l None) as Hs'.
  { eapply seg_frame; [|exact Hs]. intros b Hb. apply lookup_insert_ne.
    intros <-. done. }
  destruct l as [|x l].
  - simpl in Hc. rewrite Hc. eexists. split; [done|]. split; [|done].
    split; [done|]. split; [|apply NoDup_singleton].
    exists c. split; [apply lookup_insert_eq|]. done.
  - simpl in Hc. rewrite Hc.
    destruct (to_front_spec (mkState h (Some x.1) sz) (x :: l) a (payload c) c)
      as (s' & E & R & Hsz & _); try done.
    + apply lookup_insert_eq.
    + by exists s'.
Qed.

(** An insert of an absent key that needs no room. *)
Lemma write_cache_fit s l k v n :
  repr s l → k ∉ e_key <$> l.*2 → admissible MAXLINE k v n →
  ¬ (cache_size s + n > MAX_CACHE_SIZE) →
  ∃ s' a, write_cache MAXLINE k v n s = Some s'
          ∧ repr s' ((a, new_entry k v n) :: l)
          ∧ cache_size s' = cache_size s + n.
Proof.
  intros Hr Hk (Hlen & Hn & Hv) Hfit.
  unfold write_cache. rewrite (get_web_object_miss _ _ _ Hr Hk). simpl.
  rewrite (bool_decide_eq_false_2 _ Hfit). simpl.
  rewrite bool_decide_eq_false_2 by lia.
  rewrite bool_decide_eq_false_2 by lia.
  destruct (link_new_spec s l
              {| url := k; web_object := take (Z.to_nat n) v; block_size := n;
                 next := None; prev := None |} (cache_size s + n) Hr)
    as (s' & E & R & Hsz); [done..|].
  exists s', (fresh (dom (heap s))). done.
Qed.

(** An insert of an absent key that needs room: the end [ev] of the list is
    evicted first. *)
Lemma write_cache_evict s kept ev k v n :
  repr s (kept ++ ev) → k ∉ e_key <$> (kept ++ ev).*2 → admissible MAXLINE k v n →
  cache_size s + n > MAX_CACHE_SIZE →
  kept ≠ [] → ev ≠ [] → Forall (λ e, 0 ≤ e_size e) ev.*2 →
  ¬ (total ev.*2 < n) → (tail ev ≠ [] → total (tail ev).*2 < n) →
  ∃ s' a, write_cache MAXLINE k v n s = Some s'
          ∧ repr s' ((a, new_entry k v n) :: kept)
          ∧ cache_size s' = cache_size s - total ev.*2 + n.
Proof.
  intros Hr Hk (Hlen & Hn & Hv) Hbig Hkept Hev Hpos Hstop Hcont.
  unfold write_cache. rewrite (get_web_object_miss _ _ _ Hr Hk). simpl.
  rewrite (bool_decide_eq_true_2 _ Hbig).
  destruct (evict_entries_spec _ _ _ _ Hr Hkept Hev Hpos Hstop Hcont)
    as (s1 & E1 & R1 & Hsz1).
  rewrite E1. simpl.
  rewrite bool_decide_eq_false_2 by lia.
  rewrite bool_decide_eq_false_2 by lia.
  destruct (link_new_spec s1 kept
              {| url := k; web_object := take (Z.to_nat n) v; block_size := n;
                 next := None; prev := None |} (cache_size s1 + n) R1)
    as (s' & E & R & Hsz); [done..|].
  exists s', (fresh (dom (heap s1))). rewrite <- Hsz1. done.
Qed.

End Insert.

(** ** The invariant is kept *)

Section Invariant.
Variable MAXLINE : Z.
Implicit Types (h : heap_t) (l : list (addr * entry)) (a : addr).

Lemma inv_for_entries s l : inv_for s l → entries s = l.*2.
Proof. intros (Hr & _). by apply repr_entries. Qed.

Lemma inv_for_keys s l : inv_for s l → keys s = e_key <$> l.*2.
Proof. intros Hi. unfold keys. by rewrite (inv_for_entries s l Hi). Qed.

Lemma inv_init : inv_for init_cache [].
Proof.
  split; [|split; [done|split; [apply NoDup_nil_2|split; [apply Forall_nil_2|]]]].
  - split; [done|]. split; [done|]. apply NoDup_nil_2.
  - unfold MAX_CACHE_SIZE. simpl. lia.
Qed.

Lemma bounded_nonneg es : bounded es → Forall (λ e, 0 ≤ e_size e) es.
Proof. intros Hb. eapply Forall_impl; [exact Hb|]. intros e. simpl. lia. Qed.

Lemma inv_for_promote s s' l1 x l2 :
  inv_for s (l1 ++ x :: l2) → repr s' (x :: l1 ++ l2) →
  cache_size s' = cache_size s → inv_for s' (x :: l1 ++ l2).
Proof.
  intros (_ & Htot & Hnd & Hb & Hmax) Hr Hsz.
  split; [done|]. rewrite Hsz. split; [|split; [|split; [|done]]].
  - rewrite Htot, !fmap_cons, !fmap_app, !fmap_cons. simpl.
    rewrite !total_app. simpl. lia.
  - by rewrite (Permutation_middle l1 l2 x).
  - unfold bounded. by rewrite (Permutation_middle l1 l2 x).
Qed.

Lemma inv_key_split l k :
  NoDup (e_key <$> l.*2) → k ∈ e_key <$> l.*2 →
  ∃ l1 x l2, l = l1 ++ x :: l2 ∧ e_key x.2 = k ∧ k ∉ e_key <$> l1.*2.
Proof.
  intros Hnd Hin. rewrite <- list_fmap_compose in Hin, Hnd.
  apply list_elem_of_split in Hin as (k1 & k2 & Heq).
  apply fmap_app_inv in Heq as (l1 & l2' & -> & Heq & ->).
  symmetry in Heq. apply fmap_cons_inv in Heq as (x & l2 & Hx & -> & ->).
  exists l1, x, l2. split; [done|]. split; [done|].
  rewrite fmap_app, fmap_cons in Hnd. apply NoDup_app in Hnd as (_ & Hd & _).
  rewrite <- list_fmap_compose. intros Hk. apply (Hd _ Hk).
  rewrite <- Hx. left.
Qed.

(** A lookup that hits. *)
Lemma inv_lookup_hit s l1 a e l2 :
  inv_for s (l1 ++ (a, e) :: l2) →
  ∃ s', get_web_object (e_key e) s = Some (Some a, s')
        ∧ inv_for s' ((a, e) :: l1 ++ l2).
Proof.
  intros Hi. pose proof Hi as (Hr & _ & Hnd & _).
  assert (e_key e ∉ e_key <$> l1.*2) as Hk.
  { rewrite !fmap_app, fmap_cons in Hnd.
    apply NoDup_app in Hnd as (_ & Hd & _). intros Hk. apply (Hd _ Hk).
    rewrite fmap_cons. left. }
  destruct (get_web_object_hit _ _ _ _ _ Hr Hk) as (s' & E & R & Hsz & _).
  exists s'. split; [done|]. by eapply inv_for_promote.
Qed.

(** An insert of a present key. *)
Lemma inv_insert_present s l1 a e l2 v n :
  inv_for s (l1 ++ (a, e) :: l2) →
  ∃ s', write_cache MAXLINE (e_key e) v n s = Some s'
        ∧ inv_for s' ((a, e) :: l1 ++ l2).
Proof.
  intros Hi. destruct (inv_lookup_hit _ _ _ _ _ Hi) as (s' & E & Hi').
  unfold write_cache. rewrite E. simpl. by exists s'.
Qed.

(** With the sizes of cache.c an eviction never needs the first entry: the
    other entries hold more than any admissible object asks for. *)
Lemma inv_evict_split s l n :
  inv_for s l → 0 ≤ n ≤ MAX_OBJECT_SIZE → cache_size s + n > MAX_CACHE_SIZE →
  ∃ kept ev, l = kept ++ ev ∧ kept ≠ [] ∧ ev ≠ []
             ∧ ¬ (total ev.*2 < n) ∧ total (tail ev).*2 < n.
Proof.
  intros (_ & Htot & _ & Hb & Hmax) Hn Hbig.
  destruct l as [|x l].
  { simpl in Htot. unfold MAX_CACHE_SIZE, MAX_OBJECT_SIZE in *. lia. }
  rewrite fmap_cons in Hb, Htot. apply Forall_cons in Hb as [Hx Hb].
  simpl in Htot.
  destruct (evict_split l n) as (kept & ev & -> & Hev & Hstop & Hcont).
  { lia. }
  { unfold MAX_CACHE_SIZE, MAX_OBJECT_SIZE in *. lia. }
  by exists (x :: kept), ev.
Qed.

(** An insert of an absent key, of admissible size. *)
Lemma inv_insert_absent s l k v n :
  inv_for s l → k ∉ e_key <$> l.*2 → admissible MAXLINE k v n →
  ∃ s' a kept ev,
    l = kept ++ ev
    ∧ write_cache MAXLINE k v n s = Some s'
    ∧ inv_for s' ((a, new_entry k v n) :: kept)
    ∧ (cache_size s + n ≤ MAX_CACHE_SIZE → ev = [])
    ∧ (cache_size s + n > MAX_CACHE_SIZE →
       kept ≠ [] ∧ ev ≠ [] ∧ n ≤ total ev.*2 ∧ total (tail ev).*2 < n).
Proof.
  intros Hi Hk Hadm. pose proof Hi as (Hr & Htot & Hnd & Hb & Hmax).
  pose proof Hadm as (_ & Hn & _).
  destruct (decide (cache_size s + n > MAX_CACHE_SIZE)) as [Hbig|Hfit].
  - destruct (inv_evict_split _ _ _ Hi Hn Hbig)
      as (kept & ev & -> & Hkept & Hev & Hstop & Hcont).
    rewrite !fmap_app in Hnd. rewrite fmap_app in Hb.
    apply Forall_app in Hb as [Hbk Hbe].
    apply NoDup_app in Hnd as (Hndk & _ & _).
    destruct (write_cache_evict MAXLINE s kept ev k v n)
      as (s' & a & E & R & Hsz); try done.
    { by apply bounded_nonneg. }
    exists s', a, kept, ev. split; [done|]. split; [done|].
    split; [|split; [lia|intros _; repeat split; [done..|lia|done]]].
    split; [done|]. rewrite Hsz, Htot, !fmap_cons, !fmap_app, total_app.
    simpl. split; [lia|]. split; [|split].
    + apply NoDup_cons. split; [|done].
      rewrite !fmap_app in Hk. apply not_elem_of_app in Hk. tauto.
    + apply Forall_cons. done.
    + rewrite fmap_app, total_app in Htot. lia.
  - destruct (write_cache_fit MAXLINE s l k v n)
      as (s' & a & E & R & Hsz); try done.
    exists s', a, l, []. rewrite app_nil_r. split; [done|]. split; [done|].
    split; [|split; [done|lia]].
    split; [done|]. rewrite Hsz, Htot, !fmap_cons. simpl.
    split; [lia|]. split; [|split].
    + apply NoDup_cons. done.
    + apply Forall_cons. done.
    + lia.
Qed.

End Invariant.

(** ** Reachable states satisfy the invariant *)

Section ReachableLemmas.
Variable MAXLINE : Z.
Implicit Types (l : list (addr * entry)) (a : addr).

(** What a lookup does, by whether the key is present. *)
Lemma lookup_cases s l k :
  inv_for s l →
((k ∉ e_key <$> l.*2) ∧ get_web_object k s = Some (None, s))
  ∨ (∃ l1 a e l2 s',
       l = l1 ++ (a, e) :: l2 ∧ e_key e = k
       ∧ get_web_object k s = Some (Some a, s')
       ∧ inv_for s' ((a, e) :: l1 ++ l2)).
Proof.
  intros Hi. pose proof Hi as (Hr & _ & Hnd & _).
  destruct (decide (k ∈ e_key <$> l.*2)) as [Hin|Hout].
  - right. destruct (inv_key_split _ _ Hnd Hin) as (l1 & [a e] & l2 & -> & Hk & _).
    simpl in Hk. subst k.
    destruct (inv_lookup_hit _ _ _ _ _ Hi) as (s' & E & Hi').
    by exists l1, a, e, l2, s'.
  - left. split; [done|]. by eapply get_web_object_miss.
Qed.

(** A completed insert of an absent key has passed the two copies. *)
Lemma write_cache_absent_Some s l k v n s' :
  repr s l → k ∉ e_key <$> l.*2 → write_cache MAXLINE k v n s = Some s' →
  Z.of_nat (String.length k) < MAXLINE ∧ 0 ≤ n ∧ n ≤ Z.of_nat (length v).
Proof.
  intros Hr Hk. unfold write_cache.
  rewrite (get_web_object_miss _ _ _ Hr Hk). simpl.
  destruct (if bool_decide (cache_size s + n > MAX_CACHE_SIZE)
            then evict_entries n s else Some s) as [s1|]; [|done].
  simpl. repeat case_bool_decide; try done. intros _. lia.
Qed.

Lemma step_inv o s s' :
  inv s → (∀ k v n, o = Insert k v n → 0 ≤ n ≤ MAX_OBJECT_SIZE) →
  step MAXLINE o s = Some s' → inv s'.
Proof.
  intros [l Hi] Hsz Hstep. destruct o as [k|k v n]; simpl in Hstep.
  - destruct (lookup_cases s l k Hi)
      as [[_ E]|(l1 & a & e & l2 & s1 & -> & _ & E & Hi')];
      rewrite E in Hstep; simpl in Hstep; injection Hstep as <-.
    + by exists l.
    + by eexists.
  - destruct (lookup_cases s l k Hi)
      as [[Hk E]|(l1 & a & e & l2 & s1 & -> & <- & E & Hi')].
    + pose proof Hi as (Hr & _).
      destruct (write_cache_absent_Some _ _ _ _ _ _ Hr Hk Hstep)
        as (? & ? & ?).
      destruct (inv_insert_absent MAXLINE s l k v n Hi Hk)
        as (s1 & a & kept & ev & _ & E1 & Hi1 & _).
      { split; [done|]. split; [|done]. by eapply Hsz. }
      rewrite E1 in Hstep. injection Hstep as <-. by eexists.
    + unfold write_cache in Hstep. rewrite E in Hstep. simpl in Hstep.
      injection Hstep as <-. by eexists.
Qed.

Lemma reachable_inv s : reachable MAXLINE s → inv s.
Proof.
  induction 1 as [|s k r s' _ IH E|s k v n s' _ IH Hn E].
  - exists []. apply inv_init.
  - apply (step_inv (Lookup k) s s' IH); [done|]. simpl. by rewrite E.
  - apply (step_inv (Insert k v n) s s' IH); [|done].
    intros ? ? ? [= _ _ <-]. done.
Qed.

(** Operations with admissible arguments complete. *)
Lemma step_total o s :
  inv s → admissible_op MAXLINE o → ∃ s', step MAXLINE o s = Some s'.
Proof.
  intros [l Hi] Hadm. destruct o as [k|k v n]; simpl.
  - destruct (lookup_cases s l k Hi)
      as [[_ E]|(l1 & a & e & l2 & s1 & -> & _ & E & Hi')];
      rewrite E; simpl; eauto.
  - destruct (lookup_cases s l k Hi)
      as [[Hk E]|(l1 & a & e & l2 & s1 & -> & <- & E & Hi')].
    + destruct (inv_insert_absent MAXLINE s l k v n Hi Hk Hadm)
        as (s1 & a & kept & ev & _ & E1 & _). eauto.
    + unfold write_cache. rewrite E. simpl. eauto.
Qed.

Lemma step_reachable o s s' :
  reachable MAXLINE s → admissible_op MAXLINE o → step MAXLINE o s = Some s' →
  reachable MAXLINE s'.
Proof.
  intros Hr Hadm Hstep. destruct o as [k|k v n]; simpl in Hstep.
  - destruct (get_web_object k s) as [[r s1]|] eqn:E; [|done].
    simpl in Hstep. injection Hstep as <-. by eapply reach_lookup.
  - eapply reach_insert; [done| |done]. apply Hadm.
Qed.

Lemma run_reachable ops s :
  reachable MAXLINE s → Forall (admissible_op MAXLINE) ops →
  ∃ s', run MAXLINE ops s = Some s' ∧ reachable MAXLINE s'.
Proof.
  intros Hr Hadm. revert s Hr.
  induction Hadm as [|o ops Ho _ IH]; intros s Hr; simpl; [eauto|].
  destruct (step_total o s (reachable_inv s Hr) Ho) as [s1 E1].
  rewrite E1. simpl. apply IH. by eapply step_reachable.
Qed.

Lemma reachable_state_after ops :
  Forall (admissible_op MAXLINE) ops → reachable MAXLINE (state_after MAXLINE ops).
Proof.
  intros Hadm. unfold state_after.
  destruct (run_reachable ops init_cache (reach_init MAXLINE) Hadm)
    as (s' & -> & Hr). done.
Qed.

(** A lookup that hits, told on the entries: the entry found goes to the
    front, nothing else changes. *)
Lemma lookup_hit_entries s k :
  inv s → k ∈ keys s →
  ∃ a s' E1 e E2,
    get_web_object k s = Some (Some a, s') ∧ inv s'
    ∧ entries s = E1 ++ e :: E2 ∧ e_key e = k
    ∧ entries s' = e :: E1 ++ E2.
Proof.
  intros [l Hi] Hk. rewrite (inv_for_keys s l Hi) in Hk.
  destruct (lookup_cases s l k Hi)
    as [[Hout _]|(l1 & a & e & l2 & s1 & -> & <- & E & Hi1)]; [done|].
  exists a, s1, l1.*2, e, l2.*2. split; [done|]. split; [by eexists|].
  rewrite (inv_for_entries _ _ Hi), (inv_for_entries _ _ Hi1).
  by rewrite fmap_cons, !fmap_app, fmap_cons.
Qed.

(** An insert of an absent key, told on the entries: the new entry goes
    before a front part of the list. *)
Lemma insert_absent_entries s k v n :
  inv s → k ∉ keys s → admissible MAXLINE k v n →
  ∃ s' kept,
    write_cache MAXLINE k v n s = Some s' ∧ inv s'
    ∧ kept `prefix_of` entries s
    ∧ entries s' = new_entry k v n :: kept.
Proof.
  intros [l Hi] Hk Hadm. rewrite (inv_for_keys s l Hi) in Hk.
  destruct (inv_insert_absent MAXLINE s l k v n Hi Hk Hadm)
    as (s' & a & kept & ev & -> & E & Hi' & _).
  exists s', kept.*2. split; [done|]. split; [by eexists|].
  rewrite (inv_for_entries _ _ Hi), (inv_for_entries _ _ Hi').
  rewrite fmap_cons, fmap_app. split; [|done]. by exists ev.*2.
Qed.

(** On reachable states the byte total is a non-negative number far below
    the range of [ssize_t]; no sum of the code leaves that range. *)
Lemma reachable_cache_size_range s :
  reachable MAXLINE s → 0 ≤ cache_size s ≤ MAX_CACHE_SIZE.
Proof.
  intros Hr. destruct (reachable_inv s Hr) as (l & _ & -> & _ & Hb & Hmax).
  split; [|done]. by apply total_nonneg, bounded_nonneg.
Qed.

End ReachableLemmas.

(** ** Order and recency *)

Section Recency.
Variable MAXLINE : Z.
Implicit Types (l : list (addr * entry)) (a : addr).

Lemma filter_ne_notin (K : list string) k :
  k ∉ K → filter (λ k', k' ≠ k) K = K.
Proof.
  induction K as [|x K IH]; intros Hk; [done|].
  apply not_elem_of_cons in Hk as [Hkx Hk].
  rewrite filter_cons_True by done. by rewrite IH.
Qed.

Lemma touch_NoDup k r : NoDup r → NoDup (touch k r).
Proof.
  intros Hnd. apply NoDup_cons. split.
  - rewrite list_elem_of_filter. intros [Hne _]. done.
  - by apply NoDup_filter.
Qed.

(** A key of the store that is accessed: in the recency order it goes from
    its place among the keys of the store to the front. *)
Lemma touch_present (K1 K2 rest : list string) k :
  NoDup ((K1 ++ k :: K2) ++ rest) →
  touch k ((K1 ++ k :: K2) ++ rest) = (k :: K1 ++ K2) ++ rest.
Proof.
  intros Hnd. rewrite <- app_assoc in Hnd. cbn [app] in Hnd.
  apply NoDup_app in Hnd as (_ & Hk1 & Hnd). apply NoDup_cons in Hnd as [Hk2 _].
  apply not_elem_of_app in Hk2 as [Hk2 Hk3].
  assert (k ∉ K1) as Hk1' by (intros Hin; apply (Hk1 k Hin); left).
  unfold touch. rewrite !filter_app, filter_cons_False by (intros Hne; done).
  by rewrite !filter_ne_notin by done.
Qed.

(** What an operation does to the keys of the store and to the order of
    last access. *)
Lemma step_access o s r :
  inv s → admissible_op MAXLINE o → keys s `prefix_of` r → NoDup r →
  ∃ s', step MAXLINE o s = Some s' ∧ inv s'
        ∧ keys s' `prefix_of` (if accesses o s then touch (op_key o) r else r)
        ∧ NoDup (if accesses o s then touch (op_key o) r else r).
Proof.
  intros [l Hi] Hadm [rest ->] Hnd.
  assert (∀ l1 a e l2 s',
            inv_for s (l1 ++ (a, e) :: l2) →
            inv_for s' ((a, e) :: l1 ++ l2) →
            NoDup (keys s ++ rest) →
            keys s' `prefix_of` touch (e_key e) (keys s ++ rest)) as Hhit.
  { intros l1 a e l2 s' H1 H2.
    rewrite (inv_for_keys _ _ H1), (inv_for_keys _ _ H2).
    rewrite !fmap_cons, !fmap_app, !fmap_cons. intros Hnd'.
    rewrite touch_present by done. by eexists. }
  destruct o as [k|k v n]; simpl.
  - destruct (lookup_cases s l k Hi)
      as [[Hk E]|(l1 & a & e & l2 & s1 & -> & <- & E & Hi1)]; rewrite E; simpl.
    + exists s. split; [done|]. split; [by exists l|]. split; [by exists rest|done].
    + exists s1. split; [done|]. split; [by eexists|].
      split; [by eapply Hhit|by apply touch_NoDup].
  - destruct (lookup_cases s l k Hi)
      as [[Hk E]|(l1 & a & e & l2 & s1 & -> & <- & E & Hi1)].
    + destruct (inv_insert_absent MAXLINE s l k v n Hi Hk Hadm)
        as (s1 & a & kept & ev & -> & E1 & Hi1 & _).
      exists s1. split; [done|]. split; [by eexists|].
      split; [|by apply touch_NoDup].
      rewrite (inv_for_keys _ _ Hi), (inv_for_keys _ _ Hi1).
      unfold touch. rewrite filter_app, filter_ne_notin by done.
      rewrite !fmap_cons, !fmap_app, <- app_assoc. simpl. by eexists.
    + unfold write_cache. rewrite E. simpl.
      exists s1. split; [done|]. split; [by eexists|].
      split; [by eapply Hhit|by apply touch_NoDup].
Qed.

Lemma run_last_access ops : ∀ s r,
  inv s → keys s `prefix_of` r → NoDup r →
  Forall (admissible_op MAXLINE) ops →
  ∃ s', run MAXLINE ops s = Some s' ∧ inv s'
        ∧ keys s' `prefix_of` last_access MAXLINE ops s r
        ∧ NoDup (last_access MAXLINE ops s r).
Proof.
  induction ops as [|o ops IH]; intros s r Hi Hpre Hnd Hadm; simpl; [eauto|].
  apply Forall_cons in Hadm as [Ho Hadm].
  destruct (step_access o s r Hi Ho Hpre Hnd) as (s1 & E & Hi1 & Hpre1 & Hnd1).
  rewrite E. simpl. by apply IH.
Qed.

End Recency.

(** ** The relay loop *)

Section DispatcherLemmas.
Variable MAXLINE : Z.

Lemma memcpy_at_length object obj_size buf :
  0 ≤ obj_size → obj_size + Z.of_nat (length buf) ≤ Z.of_nat (length object) →
  length (memcpy_at object obj_size buf) = length object.
Proof.
  intros H0 Hle. unfold memcpy_at.
  rewrite !length_app, length_take, length_drop. lia.
Qed.

Lemma memcpy_at_take object obj_size buf :
  0 ≤ obj_size → obj_size + Z.of_nat (length buf) ≤ Z.of_nat (length object) →
  take (Z.to_nat (obj_size + Z.of_nat (length buf)))
       (memcpy_at object obj_size buf)
  = take (Z.to_nat obj_size) object ++ buf.
Proof.
  intros H0 Hle. unfold memcpy_at. rewrite app_assoc.
  rewrite take_app_length'; [done|].
  rewrite length_app, length_take. lia.
Qed.

Lemma received_cons ev evs :
  received (ev :: evs) = chunk_buf ev ++ received evs.
Proof. done. Qed.

Lemma relayed_broken evs : broken evs = false → relayed evs = evs.
Proof.
  induction evs as [|ev evs IH]; simpl; [done|].
  intros [-> Hb]%orb_false_elim. by rewrite IH.
Qed.

(** The relay loop on reads that all succeed. *)
Lemma relay_spec evs : ∀ object obj_size errno sent,
  reads_ok evs → 0 ≤ obj_size →
  ∃ object' errno',
    relay evs object obj_size errno sent
    = Some (object', obj_size + Z.of_nat (length (received (relayed evs))),
            errno', sent ++ (chunk_buf <$> relayed evs))
    ∧ (broken evs = true → errno' = EPIPE)
    ∧ (broken evs = false → errno ≠ EPIPE → errno' ≠ EPIPE)
    ∧ (Z.of_nat (length object) = MAX_OBJECT_SIZE →
       obj_size + Z.of_nat (length (received (relayed evs))) ≤ MAX_OBJECT_SIZE →
       Z.of_nat (length object') = MAX_OBJECT_SIZE
       ∧ take (Z.to_nat (obj_size + Z.of_nat (length (received (relayed evs)))))
              object'
         = take (Z.to_nat obj_size) object ++ received (relayed evs)).
Proof.
  induction evs as [|ev evs IH]; intros object obj_size errno sent Hok H0.
  { exists object, errno. simpl. rewrite Z.add_0_r, !app_nil_r. done. }
  apply Forall_cons in Hok as [(buf & wr & -> & Hbuf) Hok].
  assert (0 < Z.of_nat (length buf)) as Hlen by (destruct buf; [done|simpl; lia]).
  simpl. rewrite bool_decide_eq_false_2 by lia.
  set (object1 := if bool_decide (obj_size + Z.of_nat (length buf) ≤ MAX_OBJECT_SIZE)
                  then memcpy_at object obj_size buf else object).
  assert (Z.of_nat (length object) = MAX_OBJECT_SIZE →
          obj_size + Z.of_nat (length buf) ≤ MAX_OBJECT_SIZE →
          Z.of_nat (length object1) = MAX_OBJECT_SIZE
          ∧ take (Z.to_nat (obj_size + Z.of_nat (length buf))) object1
            = take (Z.to_nat obj_size) object ++ buf) as Hcopy.
  { intros Hobj Hle. unfold object1. rewrite bool_decide_eq_true_2 by done.
    rewrite memcpy_at_length, memcpy_at_take by lia. done. }
  assert (∀ e, ∃ object' errno',
    relay evs object1 (obj_size + Z.of_nat (length buf)) e (sent ++ [buf])
    = Some (object',
            obj_size + Z.of_nat (length (received (Chunk buf wr :: relayed evs))),
            errno', sent ++ (chunk_buf <$> Chunk buf wr :: relayed evs))
    ∧ (broken evs = true → errno' = EPIPE)
    ∧ (broken evs = false → e ≠ EPIPE → errno' ≠ EPIPE)
    ∧ (Z.of_nat (length object) = MAX_OBJECT_SIZE →
       obj_size + Z.of_nat (length (received (Chunk buf wr :: relayed evs)))
         ≤ MAX_OBJECT_SIZE →
       Z.of_nat (length object') = MAX_OBJECT_SIZE
       ∧ take (Z.to_nat (obj_size
                 + Z.of_nat (length (received (Chunk buf wr :: relayed evs)))))
              object'
         = take (Z.to_nat obj_size) object
           ++ received (Chunk buf wr :: relayed evs))) as Hrest.
  { intros e.
    destruct (IH object1 (obj_size + Z.of_nat (length buf)) e (sent ++ [buf]))
      as (object' & errno' & E & Hb1 & Hb2 & Htake); [done|lia|].
    exists object', errno'. rewrite received_cons, fmap_cons.
    cbn [chunk_buf].
    rewrite length_app, Nat2Z.inj_add, Z.add_assoc.
    rewrite <- (app_assoc sent [buf]) in E.
    split; [done|]. split; [done|]. split; [done|].
    intros Hobj Hle.
    pose proof (Nat2Z.is_nonneg (length (received (relayed evs)))).
    destruct Hcopy as [Hobj1 Htake1]; [done|lia|].
    destruct (Htake Hobj1 Hle) as [Hobj' Htake']. split; [done|].
    by rewrite Htake', Htake1, <- app_assoc. }
  destruct wr as [e|].
  - case_bool_decide as He.
    + assert (received [Chunk buf (Some e)] = buf) as ->.
      { unfold received. simpl. apply app_nil_r. }
      exists object1, e. split; [done|]. split; [done|]. split; [done|]. done.
    + destruct (Hrest e) as (object' & errno' & E & Hb1 & Hb2 & Htake).
      exists object', errno'. split; [done|]. split; [done|].
      split; [|done]. intros Hb _. by apply Hb2.
  - simpl. apply Hrest.
Qed.

Lemma relay_size evs : ∀ object obj_size errno sent object' obj_size' errno' sent',
  relay evs object obj_size errno sent = Some (object', obj_size', errno', sent') →
  obj_size ≤ obj_size'.
Proof.
  induction evs as [|[buf wr|e] evs IH]; intros object obj_size errno sent
    object' obj_size' errno' sent'; simpl; [| |by case_bool_decide].
  { intros [= _ <- _ _]. lia. }
  case_bool_decide as Hz; [intros [= _ <- _ _]; lia|].
  pose proof (Nat2Z.is_nonneg (length buf)).
  destruct wr as [e|]; [case_bool_decide|].
  - intros [= _ <- _ _]. lia.
  - intros E. apply IH in E. lia.
  - intros E. apply IH in E. lia.
Qed.

(** What the handlers produce is produced by lookups and by inserts of
    admissible size: [connect_server] guards its insert with
    [obj_size <= MAX_OBJECT_SIZE]. *)
Lemma served_reachable s : served MAXLINE s → reachable MAXLINE s.
Proof.
  induction 1 as [|s uri r s' _ IH E|s o object0 errno uri s' sent _ IH E].
  - apply reach_init.
  - by eapply reach_lookup.
  - unfold connect_server in E. destruct (connects o); simpl in E;
      [|by injection E as <- _].
    destruct (relay (body o) object0 0 (default errno (hdr_errno o)) [])
      as [[[[object obj_size] errno'] sent']|] eqn:Er; [|done].
    simpl in E. apply relay_size in Er.
    case_bool_decide as Hc; [|by injection E as <- _].
    destruct (write_cache MAXLINE uri object obj_size s) as [s1|] eqn:Ew;
      [|done].
    simpl in E. injection E as <- _.
    eapply reach_insert; [done| |done]. lia.
Qed.

End DispatcherLemmas.

(** ** What the operations do to the heap *)

Section HeapEffects.
Variable MAXLINE : Z.
Implicit Types (h : heap_t) (l : list (addr * entry)) (a : addr).

Lemma set_next_touches a v h h' : set_next a v h = Some h' → touches a h h'.
Proof.
  unfold set_next. destruct (h !! a) as [c|] eqn:Hc; [|done]. simpl.
  intros [= <-]. split.
  - intros b Hb. by rewrite lookup_insert_ne.
  - by rewrite lookup_insert_eq, Hc.
Qed.

Lemma set_prev_touches a v h h' : set_prev a v h = Some h' → touches a h h'.
Proof.
  unfold set_prev. destruct (h !! a) as [c|] eqn:Hc; [|done]. simpl.
  intros [= <-]. split.
  - intros b Hb. by rewrite lookup_insert_ne.
  - by rewrite lookup_insert_eq, Hc.
Qed.

Lemma same_payload_is_Some h h' a :
  same_payload h h' → is_Some (h' !! a) → is_Some (h !! a).
Proof.
  intros Hsp [c Hc]. specialize (Hsp a). rewrite Hc in Hsp.
  destruct (h !! a); [eauto|done].
Qed.

Lemma to_front_same_payload a s s' :
  to_front a s = Some s' → same_payload (heap s) (heap s').
Proof.
  unfold to_front. destruct (cache s) as [c|]; [|done]. simpl.
  destruct (set_prev c (Some a) (heap s)) as [h1|] eqn:E1; [|done]. simpl.
  destruct (set_next a (Some c) h1) as [h2|] eqn:E2; [|done]. simpl.
  destruct (set_prev a None h2) as [h3|] eqn:E3; [|done]. simpl.
  intros [= <-]. simpl.
  apply set_prev_touches, touches_same_payload in E1, E3.
  apply set_next_touches, touches_same_payload in E2.
  eauto using same_payload_trans.
Qed.

(** The list a state holds is the only one it holds. *)
Lemma seg_unique h pv l1 : ∀ l2,
  seg h pv l1 None → seg h pv l2 None → link None l1 = link None l2 →
  l1 = l2.
Proof.
  revert pv. induction l1 as [|x l1 IH]; intros pv l2 H1 H2 Hl.
  { by destruct l2. }
  destruct l2 as [|y l2]; [done|]. simpl in Hl. injection Hl as Hxy.
  destruct H1 as (c & Hc & Hp & _ & Hn & H1).
  destruct H2 as (c' & Hc' & Hp' & _ & Hn' & H2).
  rewrite <- Hxy, Hc in Hc'. injection Hc' as <-.
  assert (x = y) as <-.
  { destruct x, y. simpl in *. congruence. }
  f_equal. apply (IH (Some x.1)); [done..|]. congruence.
Qed.

Lemma repr_unique s l1 l2 : repr s l1 → repr s l2 → l1 = l2.
Proof.
  intros (Hc1 & Hs1 & _) (Hc2 & Hs2 & _).
  eapply seg_unique; [done..|]. congruence.
Qed.

Lemma frees_nil h : frees [] h h.
Proof. intros b. split; [by intros ?%elem_of_nil|done]. Qed.

(** A node is unlinked and freed, then the nodes of [gone] are. *)
Lemma frees_step h h1 h' x gone gone' :
  same_payload h h1 → frees gone (delete x h1) h' →
  (∀ b, b ∈ gone' ↔ b = x ∨ b ∈ gone) → frees gone' h h'.
Proof.
  intros Hsp Hf Hg b. destruct (Hf b) as [Hin Hout]. rewrite Hg. split.
  - intros [->|Hb]; [|by apply Hin].
    destruct (decide (x ∈ gone)) as [Hx|Hx]; [by apply Hin|].
    specialize (Hout Hx). rewrite lookup_delete_eq in Hout.
    by destruct (h' !! x).
  - intros Hb. assert (b ≠ x ∧ b ∉ gone) as [Hbx Hbg] by tauto.
    rewrite (Hout Hbg), lookup_delete_ne by done. apply Hsp.
Qed.

Lemma frees_round h h1 h' p x gone :
  touches p h h1 → frees gone (delete x h1) h' → frees (gone ++ [x]) h h'.
Proof.
  intros Ht Hf. eapply frees_step; [by eapply touches_same_payload|done|].
  intros b. rewrite elem_of_app, list_elem_of_singleton. tauto.
Qed.

(** Whenever the do-while loop of [evict_entries] completes, it has cut a
    non-empty end [ev] off the list and freed its nodes, it has left a
    non-empty front part [kept] with every node as it was, and the bytes
    freed have reached [space]. *)
Lemma evict_loop_inv fuel : ∀ l x h freed space h' freed',
  seg h None (l ++ [x]) None → NoDup (l ++ [x]).*1 →
  evict_loop fuel h x.1 freed space = Some (h', freed') →
  ∃ kept ev, l ++ [x] = kept ++ ev ∧ kept ≠ [] ∧ ev ≠ []
             ∧ frees ev.*1 h h' ∧ seg h' None kept None
             ∧ freed' = freed + total ev.*2 ∧ ¬ (freed' < space).
Proof.
  induction fuel as [|fuel IH]; intros l x h freed space h' freed' Hs Hnd E;
    [done|].
  destruct (snoc_cases l) as [->|(l' & p & ->)].
  { destruct Hs as (c & Hc & _ & Hpv & _). simpl in E. rewrite Hc in E.
    simpl in E. by rewrite Hpv in E. }
  assert (l' ++ [p] ≠ []) as Hne by (by destruct l').
  destruct (evict_round _ _ _ Hs Hnd Hne)
    as (c & p0 & h1 & Hlast & Hc & Hsz & Hpv & E1 & S1).
  rewrite last_snoc in Hlast. injection Hlast as <-.
  pose proof (set_next_touches _ _ _ _ E1) as T1.
  simpl in E. rewrite Hc in E. simpl in E. rewrite Hpv in E. simpl in E.
  rewrite E1 in E. simpl in E. rewrite Hsz in E.
  case_bool_decide as Hlt.
  - assert (NoDup (l' ++ [p]).*1) as Hnd'.
    { apply NoDup_fst_mid in Hnd as (_ & _ & Hnd).
      by rewrite app_nil_r in Hnd. }
    destruct (IH l' p _ _ _ _ _ S1 Hnd' E)
      as (kept & ev & Heq & Hk & Hev & Hf & Hsk & Hfr & Hstop).
    exists kept, (ev ++ [x]). rewrite Heq, <- app_assoc.
    split; [done|]. split; [done|]. split; [by destruct ev|].
    split; [|split; [done|split; [|done]]].
    + rewrite fmap_app. by eapply frees_round.
    + rewrite Hfr, fmap_app, total_app. simpl. lia.
  - injection E as <- <-. exists (l' ++ [p]), [x].
    split; [done|]. split; [done|]. split; [done|].
    split; [|split; [done|split; [simpl; lia|done]]].
    apply (frees_round h h1 _ p.1 x.1 []); [done|]. apply frees_nil.
Qed.

(** The same for [evict_entries]. *)
Lemma evict_entries_inv s l space s' :
  repr s l → evict_entries space s = Some s' →
  ∃ kept ev, l = kept ++ ev ∧ kept ≠ [] ∧ ev ≠ []
             ∧ frees ev.*1 (heap s) (heap s') ∧ repr s' kept
             ∧ cache_size s' = cache_size s - total ev.*2
             ∧ space ≤ total ev.*2.
Proof.
  intros Hr E. pose proof (repr_fuel _ _ Hr) as Hfuel.
  destruct Hr as (Hc & Hs & Hnd).
  destruct (snoc_cases l) as [->|(l0 & x & ->)].
  { by rewrite (evict_entries_empty _ _ Hc) in E. }
  unfold evict_entries in E. rewrite Hc in E.
  remember (S (size (heap s))) as fuel eqn:Hf. clear Hf.
  destruct (l0 ++ [x]) as [|y rest] eqn:Heq; [by destruct l0|].
  simpl in E.
  rewrite (last_entry_spec _ None rest y x) in E; [|done| |simpl in Hfuel; lia].
  2:{ by rewrite <- Heq, last_snoc. }
  simpl in E.
  destruct (evict_loop fuel (heap s) x.1 0 space) as [[h' freed']|] eqn:El;
    [|done].
  simpl in E. injection E as <-. rewrite <- Heq in Hs, Hnd.
  destruct (evict_loop_inv _ _ _ _ _ _ _ _ Hs Hnd El)
    as (kept & ev & Heq' & Hk & Hev & Hf & Hsk & Hfr & Hstop).
  exists kept, ev. rewrite <- Heq. split; [done|]. split; [done|].
  split; [done|]. split; [done|]. simpl.
  split; [|split; [lia|lia]].
  split; [|split; [done|]].
  - simpl. rewrite Heq in Heq'. destruct kept as [|z kept]; [done|].
    by injection Heq' as -> _.
  - rewrite Heq' in Hnd. by eapply NoDup_fst_prefix.
Qed.

(** A hit leaves every node at its address, with its payload. *)
Lemma inv_lookup_hit_heap s l1 a e l2 :
  inv_for s (l1 ++ (a, e) :: l2) →
  ∃ s', get_web_object (e_key e) s = Some (Some a, s')
        ∧ inv_for s' ((a, e) :: l1 ++ l2)
        ∧ same_payload (heap s) (heap s').
Proof.
  intros Hi. pose proof Hi as (Hr & _ & Hnd & _).
  assert (e_key e ∉ e_key <$> l1.*2) as Hk.
  { rewrite !fmap_app, fmap_cons in Hnd.
    apply NoDup_app in Hnd as (_ & Hd & _). intros Hk. apply (Hd _ Hk).
    rewrite fmap_cons. left. }
  destruct (get_web_object_hit _ _ _ _ _ Hr Hk) as (s' & E & R & Hsz & Hsp).
  exists s'. split; [done|]. split; [|done]. by eapply inv_for_promote.
Qed.

Lemma sized_new_entry k v n :
  0 ≤ n → n ≤ Z.of_nat (length v) →
  Z.of_nat (length (e_value (new_entry k v n))) = e_size (new_entry k v n).
Proof. intros H0 Hn. simpl. rewrite length_take. lia. Qed.

Lemma tidy_init : tidy init_cache [].
Proof.
  split; [apply inv_init|]. split; [|apply Forall_nil_2].
  intros a [c Hc]. simpl in Hc. by rewrite lookup_empty in Hc.
Qed.

Lemma tidy_promote s s' l1 x l2 :
  tidy s (l1 ++ x :: l2) → inv_for s' (x :: l1 ++ l2) →
  same_payload (heap s) (heap s') → tidy s' (x :: l1 ++ l2).
Proof.
  intros (_ & Hcl & Hsz) Hi Hsp. split; [done|]. split.
  - intros b Hb. apply (same_payload_is_Some _ _ _ Hsp), Hcl in Hb.
    rewrite fmap_cons, fmap_app. rewrite fmap_app, fmap_cons in Hb.
    by rewrite (Permutation_middle (l1.*1) (l2.*1) x.1).
  - unfold sized in *. rewrite fmap_cons, fmap_app.
    rewrite fmap_app, fmap_cons in Hsz.
    by rewrite <- (Permutation_middle (l1.*2) (l2.*2) x.2) in Hsz.
Qed.

(** A lookup keeps the invariant. *)
Lemma tidy_lookup s l k r s' :
  tidy s l → get_web_object k s = Some (r, s') → ∃ l', tidy s' l'.
Proof.
  intros Ht E. pose proof Ht as (Hi & _). pose proof Hi as (Hr & _ & Hnd & _).
  destruct (decide (k ∈ e_key <$> l.*2)) as [Hin|Hout].
  - destruct (inv_key_split _ _ Hnd Hin) as (l1 & [a e] & l2 & -> & Hk & _).
    simpl in Hk. subst k.
    destruct (inv_lookup_hit_heap _ _ _ _ _ Hi) as (s1 & E1 & Hi1 & Hsp).
    rewrite E1 in E. injection E as <- <-.
    eexists. by eapply tidy_promote.
  - rewrite (get_web_object_miss _ _ _ Hr Hout) in E. injection E as <- <-.
    by exists l.
Qed.

(** The end of [write_cache]: the heap is the one with the new node, up to
    pointer fields. *)
Lemma link_new_heap (s : state) a (c : Cache) sz s' :
  let h := <[a := c]> (heap s) in
  match cache s with
  | None => Some (mkState h (Some a) sz)
  | Some _ => to_front a (mkState h (cache s) sz)
  end = Some s' →
  same_payload h (heap s').
Proof.
  intros h. destruct (cache s) as [c0|].
  - intros E. by apply to_front_same_payload in E.
  - intros [= <-]. by intros b.
Qed.

(** An insert of an absent key keeps the invariant. *)
Lemma tidy_insert_absent s l k v n s' :
  tidy s l → k ∉ e_key <$> l.*2 → 0 ≤ n ≤ MAX_OBJECT_SIZE →
  write_cache MAXLINE k v n s = Some s' →
  ∃ a kept ev, l = kept ++ ev ∧ tidy s' ((a, new_entry k v n) :: kept).
Proof.
  intros (Hi & Hcl & Hsz) Hk Hn E. pose proof Hi as (Hr & _).
  destruct (write_cache_absent_Some MAXLINE _ _ _ _ _ _ Hr Hk E)
    as (Hlen & Hn0 & Hv).
  destruct (inv_insert_absent MAXLINE s l k v n Hi Hk)
    as (s1 & a & kept & ev & -> & E1 & Hi1 & _); [done|].
  rewrite E in E1. injection E1 as <-.
  exists a, kept, ev. split; [done|]. split; [done|]. split.
  2:{ unfold sized in *. rewrite fmap_cons. apply Forall_cons. split.
      - cbn [snd]. by apply sized_new_entry.
      - rewrite fmap_app in Hsz. by apply Forall_app in Hsz as [? _]. }
  (* the heap *)
  unfold write_cache in E. rewrite (get_web_object_miss _ _ _ Hr Hk) in E.
  simpl in E.
  assert (∃ s0 kept0 ev0,
            (if bool_decide (cache_size s + n > MAX_CACHE_SIZE)
             then evict_entries n s else Some s) = Some s0
            ∧ kept ++ ev = kept0 ++ ev0 ∧ repr s0 kept0
            ∧ frees ev0.*1 (heap s) (heap s0)) as (s0 & kept0 & ev0 & E0 & Heq & R0 & F0).
  { destruct (decide (cache_size s + n > MAX_CACHE_SIZE)) as [Hbig|Hfit].
    - rewrite (bool_decide_eq_true_2 _ Hbig) in E |- *.
      destruct (evict_entries n s) as [s0|] eqn:Ev; [|done].
      destruct (evict_entries_inv _ _ _ _ Hr Ev)
        as (kept0 & ev0 & ? & _ & _ & ? & ? & _).
      by exists s0, kept0, ev0.
    - rewrite (bool_decide_eq_false_2 _ Hfit).
      exists s, (kept ++ ev), []. rewrite app_nil_r.
      split; [done|]. split; [done|]. split; [done|]. apply frees_nil. }
  rewrite E0 in E. simpl in E.
  rewrite bool_decide_eq_false_2 in E by lia.
  rewrite bool_decide_eq_false_2 in E by lia.
  set (c := {| url := k; web_object := take (Z.to_nat n) v; block_size := n;
               next := None; prev := None |}) in E.
  pose proof (link_new_heap (mkState (heap s0) (cache s0) (cache_size s0 + n))
                _ c _ _ E) as Hsp.
  destruct (link_new_spec s0 kept0 c (cache_size s0 + n) R0)
    as (s2 & E2 & R2 & _); [done..|].
  simpl in E. rewrite E in E2. injection E2 as <-.
  pose proof Hi1 as (R1 & _).
  pose proof (repr_unique _ _ _ R1 R2) as Hl. injection Hl as -> ->.
  intros b Hb. apply (same_payload_is_Some _ _ _ Hsp) in Hb. simpl in Hb.
  rewrite fmap_cons. cbn [fst].
  destruct (decide (b = fresh (dom (heap s0)))) as [->|Hne]; [left|right].
  rewrite lookup_insert_ne in Hb by done.
  destruct (F0 b) as [Hgone Hkept].
  destruct (decide (b ∈ ev0.*1)) as [Hin|Hout].
  { rewrite (Hgone Hin) in Hb. by destruct Hb. }
  assert (is_Some (heap s !! b)) as Hb'.
  { specialize (Hkept Hout). destruct Hb as [c' Hc']. rewrite Hc' in Hkept.
    destruct (heap s !! b); [eauto|done]. }
  apply Hcl in Hb'. rewrite Heq, fmap_app in Hb'.
  by apply elem_of_app in Hb' as [?|?].
Qed.

Lemma tidy_insert s l k v n s' :
  tidy s l → 0 ≤ n ≤ MAX_OBJECT_SIZE →
  write_cache MAXLINE k v n s = Some s' → ∃ l', tidy s' l'.
Proof.
  intros Ht Hn E. pose proof Ht as (Hi & _). pose proof Hi as (Hr & _ & Hnd & _).
  destruct (decide (k ∈ e_key <$> l.*2)) as [Hin|Hout].
  - destruct (inv_key_split _ _ Hnd Hin) as (l1 & [a e] & l2 & -> & Hk & _).
    simpl in Hk. subst k.
    destruct (inv_lookup_hit_heap _ _ _ _ _ Hi) as (s1 & E1 & Hi1 & Hsp).
    unfold write_cache in E. rewrite E1 in E. simpl in E. injection E as <-.
    eexists. by eapply tidy_promote.
  - destruct (tidy_insert_absent _ _ _ _ _ _ Ht Hout Hn E)
      as (a & kept & ev & _ & Ht'). by eexists.
Qed.

Lemma reachable_tidy s : reachable MAXLINE s → ∃ l, tidy s l.
Proof.
  induction 1 as [|s k r s' _ [l IH] E|s k v n s' _ [l IH] Hn E].
  - exists []. apply tidy_init.
  - by eapply tidy_lookup.
  - by eapply tidy_insert.
Qed.

(** The allocated nodes are the nodes of the list. *)
Lemma tidy_size s l : tidy s l → size (heap s) = length l.
Proof.
  intros ((Hr & _) & Hcl & _). destruct Hr as (_ & Hs & Hnd).
  rewrite <- (length_fmap fst l), <- (size_list_to_set (C:=gset addr) _ Hnd).
  rewrite <- (size_dom (D:=gset addr) (heap s)). f_equal.
  apply set_eq. intros a. rewrite elem_of_dom, elem_of_list_to_set.
  split; [apply Hcl|]. by eapply seg_dom.
Qed.

(** The loop of [release_cache] on a list frees its nodes. *)
Lemma release_loop_spec l : ∀ h pv fuel,
  seg h pv l None → NoDup l.*1 → (length l < fuel)%nat →
  ∃ h', release_loop fuel h (link None l) = Some h' ∧ frees l.*1 h h'.
Proof.
  induction l as [|x l IH]; intros h pv fuel Hs Hnd Hlen;
    (destruct fuel as [|fuel]; [simpl in Hlen; lia|]).
  { exists h. split; [done|]. apply frees_nil. }
  destruct Hs as (c & Hc & _ & _ & Hn & Hs).
  rewrite fmap_cons in Hnd. apply NoDup_cons in Hnd as [Hx Hnd].
  destruct (set_next_spec h x.1 None c Hc) as (h1 & E1 & T1 & Hc1).
  destruct (set_prev_spec h1 x.1 None _ Hc1) as (h2 & E2 & T2 & Hc2).
  simpl. rewrite Hc. simpl. rewrite E1. simpl. rewrite E2. simpl. rewrite Hn.
  destruct (IH (delete x.1 h2) (Some x.1) fuel) as (h' & E & Hf); [|done| |].
  - eapply seg_frame; [|exact Hs]. intros b Hb.
    assert (b ≠ x.1) as Hbx by (intros ->; done).
    rewrite lookup_delete_ne by done.
    destruct T1 as [T1 _], T2 as [T2 _]. by rewrite T2, T1.
  - simpl in Hlen. lia.
  - exists h'. split; [done|].
    eapply (frees_step h h2 h' x.1 l.*1); [|done|].
    + eapply same_payload_trans; by eapply touches_same_payload.
    + intros b. apply elem_of_cons.
Qed.

Lemma release_cache_spec s l :
  tidy s l →
  release_cache s = Some (mkState ∅ (cache s) (cache_size s)).
Proof.
  intros (Hi & Hcl & _). pose proof Hi as (Hr & _).
  pose proof (repr_fuel _ _ Hr) as Hfuel. destruct Hr as (Hc & Hs & Hnd).
  unfold release_cache. rewrite Hc.
  destruct (release_loop_spec l (heap s) None _ Hs Hnd Hfuel) as (h' & -> & Hf).
  simpl. rewrite <- Hc. do 2 f_equal. apply map_eq. intros b.
  rewrite lookup_empty. destruct (Hf b) as [Hin Hout].
  destruct (decide (b ∈ l.*1)) as [Hb|Hb]; [by apply Hin|].
  specialize (Hout Hb). destruct (heap s !! b) as [c|] eqn:Hcb.
  - exfalso. apply Hb, Hcl. by rewrite Hcb.
  - by destruct (h' !! b).
Qed.

(** An end of the list that [evict_entries] can cut off for [space] bytes,
    whatever the sign of [space]: the loop runs once before it tests. *)
Lemma evict_split_any l space :
  l ≠ [] → Forall (λ e, 0 ≤ e_size e) l.*2 → space ≤ total l.*2 →
  ∃ kept ev, l = kept ++ ev ∧ ev ≠ [] ∧ ¬ (total ev.*2 < space)
             ∧ (tail ev ≠ [] → total (tail ev).*2 < space).
Proof.
  intros Hne Hpos Htot. destruct (decide (0 < space)) as [Hsp|Hsp].
  - destruct (evict_split l space Hsp Htot) as (kept & ev & ? & ? & ? & ?).
    by exists kept, ev.
  - destruct (snoc_cases l) as [|(l0 & z & ->)]; [done|].
    exists l0, [z]. split; [done|]. split; [done|]. split; [|done].
    rewrite fmap_app in Hpos. apply Forall_app in Hpos as [_ Hz].
    apply Forall_cons in Hz as [Hz _]. simpl in *. lia.
Qed.

(** A failed read of the origin, met before any write to the client has
    failed with [EPIPE] and while the bytes received are at most
    [MAX_OBJECT_SIZE + 1], gets the relay loop to its [memcpy] with the
    length -1. *)
Lemma relay_read_error evs1 e evs2 : ∀ object obj_size errno sent,
  reads_ok evs1 → broken evs1 = false →
  obj_size + Z.of_nat (length (received evs1)) + -1 ≤ MAX_OBJECT_SIZE →
  relay (evs1 ++ ReadError e :: evs2) object obj_size errno sent = None.
Proof.
  induction evs1 as [|ev evs1 IH];
    intros object obj_size errno sent Hok Hb Hsz.
  { simpl in *. rewrite bool_decide_eq_true_2; [done|lia]. }
  apply Forall_cons in Hok as [(buf & wr & -> & Hbuf) Hok].
  simpl in Hb. apply orb_false_elim in Hb as [Hw Hb].
  assert (0 < Z.of_nat (length buf)) as Hlen by (destruct buf; [done|simpl; lia]).
  assert (obj_size + Z.of_nat (length buf)
          + Z.of_nat (length (received evs1)) + -1 ≤ MAX_OBJECT_SIZE) as Hsz'.
  { unfold received in *.
    rewrite fmap_cons, concat_cons, length_app in Hsz. simpl in Hsz |- *.
    lia. }
  simpl. rewrite bool_decide_eq_false_2 by lia.
  destruct wr as [e'|]; [|by apply IH].
  simpl in Hw. rewrite Hw. by apply IH.
Qed.

(** A hit, followed by [serve_cache] on the node returned. *)
Lemma lookup_hit_serves s l k :
  tidy s l → k ∈ e_key <$> l.*2 →
  ∃ a s1 e,
    get_web_object k s = Some (Some a, s1)
    ∧ e ∈ entries s ∧ e_key e = k
    ∧ cache s1 = Some a
    ∧ serve_cache a s1 = Some (e_value e)
    ∧ Z.of_nat (length (e_value e)) = e_size e.
Proof.
  intros (Hi & _ & Hsz) Hk. pose proof Hi as (_ & _ & Hnd & _).
  destruct (inv_key_split _ _ Hnd Hk) as (l1 & [a e] & l2 & -> & Hke & _).
  simpl in Hke. subst k.
  destruct (inv_lookup_hit _ _ _ _ _ Hi) as (s1 & E1 & Hi1).
  assert (Z.of_nat (length (e_value e)) = e_size e) as Hlen.
  { unfold sized in Hsz. rewrite fmap_app, fmap_cons in Hsz.
    apply Forall_app in Hsz as [_ Hsz]. by apply Forall_cons in Hsz as [? _]. }
  exists a, s1, e. split; [done|]. split.
  { rewrite (inv_for_entries s _ Hi), fmap_app, fmap_cons.
    apply elem_of_app. right. left. }
  split; [done|].
  destruct Hi1 as ((Hc & (c & Hca & Hp & _) & _) & _). split; [done|].
  cbn [fst snd] in Hca, Hp. unfold serve_cache. rewrite Hca. simpl.
  assert (web_object c = e_value e ∧ block_size c = e_size e) as [-> ->]
    by (by rewrite <- Hp).
  rewrite bool_decide_eq_false_2 by lia. split; [|done].
  f_equal. apply take_ge. lia.
Qed.

(** A fetch that caches, followed by a hit and [serve_cache]. *)
Lemma fetch_then_hit o object0 errno uri s l :
  inv_for s l → uri ∉ e_key <$> l.*2 →
  Z.of_nat (String.length uri) < MAXLINE →
  connects o = true → reads_ok (body o) → broken (body o) = false →
  Z.of_nat (length (received (body o))) ≤ MAX_OBJECT_SIZE →
  default errno (hdr_errno o) ≠ EPIPE →
  Z.of_nat (length object0) = MAX_OBJECT_SIZE →
  ∃ s1 sent a s2,
    connect_server MAXLINE o object0 errno uri s = Some (s1, sent)
    ∧ concat sent = received (body o)
    ∧ get_web_object uri s1 = Some (Some a, s2)
    ∧ serve_cache a s2 = Some (received (body o)).
Proof.
  intros Hi Hk Hlen Hconn Hok Hb Hsize Herr Hobj.
  destruct (relay_spec (body o) object0 0 (default errno (hdr_errno o)) [] Hok)
    as (object & errno' & E & _ & Hne & Htake); [lia|].
  rewrite (relayed_broken _ Hb) in E, Htake. rewrite Z.add_0_l in E, Htake.
  destruct (Htake Hobj Hsize) as [Hobj' Htk]. simpl in Htk.
  pose proof (Nat2Z.is_nonneg (length (received (body o)))) as H0.
  set (n := Z.of_nat (length (received (body o)))) in *.
  destruct (inv_insert_absent MAXLINE s l uri object n Hi Hk)
    as (s1 & a & kept & ev & _ & E1 & Hi1 & _).
  { split; [done|]. split; [lia|lia]. }
  destruct (inv_lookup_hit s1 [] a (new_entry uri object n) kept Hi1)
    as (s2 & E2 & Hi2).
  exists s1, (chunk_buf <$> body o), a, s2.
  split; [|split; [done|split; [done|]]].
  - unfold connect_server. rewrite Hconn. simpl. rewrite E. simpl.
    rewrite bool_decide_eq_true_2 by (split; [done|by apply Hne]).
    by rewrite E1.
  - destruct Hi2 as ((_ & (c & Hc & Hp & _) & _) & _).
    cbn [fst snd] in Hc, Hp. unfold serve_cache. rewrite Hc. simpl.
    unfold payload, new_entry in Hp. injection Hp as _ -> ->.
    rewrite length_take, bool_decide_eq_false_2 by lia.
    rewrite take_take, Nat.min_id. by rewrite Htk.
Qed.

End HeapEffects.

(** ** C strings *)

Section CStrings.
Implicit Types (b s u w needle : list ascii) (c : ascii).

Lemma cstr_app s r : NUL ∉ s → cstr (s ++ NUL :: r) = Some s.
Proof.
  induction s as [|c s IH]; intros Hs; [done|].
  apply not_elem_of_cons in Hs as [Hc Hs]. simpl.
  destruct (Ascii.eqb_spec c NUL) as [->|_]; [done|]. by rewrite IH.
Qed.

Lemma cstr_inv b s : cstr b = Some s → ∃ r, b = s ++ NUL :: r ∧ NUL ∉ s.
Proof.
  revert s. induction b as [|c b IH]; intros s; [done|]. simpl.
  destruct (Ascii.eqb_spec c NUL) as [->|Hc].
  - intros [= <-]. exists b. split; [done|]. apply not_elem_of_nil.
  - destruct (cstr b) as [s'|]; [|done]. intros [= <-].
    destruct (IH s' eq_refl) as (r & -> & Hs). exists r. split; [done|].
    apply not_elem_of_cons. by split.
Qed.

Lemma cstr_length b s : cstr b = Some s → (length s < length b)%nat.
Proof.
  intros (r & -> & _)%cstr_inv. rewrite length_app. simpl. lia.
Qed.

(** The string that starts [k] characters into a string. *)
Lemma cstr_drop b s a k :
  cstr (drop a b) = Some s → (k ≤ length s)%nat →
  cstr (drop (a + k) b) = Some (drop k s).
Proof.
  intros (r & Hb & Hs)%cstr_inv Hk.
  rewrite <- drop_drop, Hb.
  rewrite <- (take_drop k s) at 1. rewrite <- app_assoc.
  rewrite drop_app_length'; [|rewrite length_take; lia].
  apply cstr_app. intros Hin. by apply Hs, (subseteq_drop k s).
Qed.

(** A NUL written into a string cuts it. *)
Lemma cstr_cut b s a k :
  cstr (drop a b) = Some s → (k < length s)%nat →
  cstr (drop a (<[(a + k)%nat := NUL]> b)) = Some (take k s).
Proof.
  intros (r & Hb & Hs)%cstr_inv Hk.
  rewrite drop_insert_ge by lia. replace (a + k - a)%nat with k by lia.
  rewrite Hb. rewrite <- (take_drop k s) at 1. rewrite <- app_assoc.
  destruct (drop k s) as [|c s'] eqn:Hd.
  { apply (f_equal length) in Hd. rewrite length_drop in Hd. simpl in Hd. lia. }
  replace k with (length (take k s) + 0)%nat at 1
    by (rewrite length_take; lia).
  rewrite insert_app_r. simpl. apply cstr_app.
  intros Hin. by apply Hs, (subseteq_take k s).
Qed.

Lemma starts_with_lookup c needle s :
  starts_with (c :: needle) s = true → s !! O = Some c.
Proof.
  destruct s as [|d s]; [done|]. simpl.
  destruct (Ascii.eqb_spec c d) as [->|]; [done|done].
Qed.

Lemma starts_with_length needle s :
  starts_with needle s = true → (length needle ≤ length s)%nat.
Proof.
  revert s. induction needle as [|c needle IH]; intros s; simpl; [lia|].
  destruct s as [|d s]; [done|]. intros [_ H]%andb_prop.
  apply IH in H. simpl. lia.
Qed.

Lemma find_sub_length needle s j :
  find_sub needle s = Some j → (j + length needle ≤ length s)%nat.
Proof.
  revert j. induction s as [|d s IH]; intros j; simpl.
  - destruct (starts_with needle []) eqn:Hw; [|done]. intros [= <-].
    by apply starts_with_length in Hw.
  - destruct (starts_with needle (d :: s)) eqn:Hw.
    + intros [= <-]. by apply starts_with_length in Hw.
    + destruct (find_sub needle s) as [j'|]; [|done]. intros [= <-].
      specialize (IH j' eq_refl). simpl. lia.
Qed.

Lemma find_sub_lookup c needle s j :
  find_sub (c :: needle) s = Some j → s !! j = Some c.
Proof.
  revert j. induction s as [|d s IH]; intros j.
  - simpl. done.
  - cbn [find_sub]. destruct (starts_with (c :: needle) (d :: s)) eqn:Hw.
    + intros [= <-]. by apply starts_with_lookup in Hw.
    + destruct (find_sub (c :: needle) s) as [j'|]; [|done]. intros [= <-].
      by apply IH.
Qed.

Lemma strstr_at b a w needle :
  cstr (drop a b) = Some w →
  strstr b a needle = Some ((λ j, (a + j)%nat) <$> find_sub needle w).
Proof. intros Hw. unfold strstr. by rewrite Hw. Qed.

Lemma strstr_lookup b a c needle i :
  strstr b a (c :: needle) = Some (Some i) → b !! i = Some c.
Proof.
  unfold strstr. destruct (cstr (drop a b)) as [w|] eqn:Hw; [|done]. simpl.
  destruct (find_sub (c :: needle) w) as [j|] eqn:Hj; [|done].
  intros [= <-]. apply find_sub_lookup in Hj.
  apply cstr_inv in Hw as (r & Hb & _).
  rewrite <- lookup_drop, Hb. by apply lookup_app_l_Some.
Qed.

Lemma cstr_lookup b s a k c :
  cstr (drop a b) = Some s → s !! k = Some c → b !! (a + k)%nat = Some c.
Proof.
  intros (r & Hb & _)%cstr_inv Hk. rewrite <- lookup_drop, Hb.
  by apply lookup_app_l_Some.
Qed.

Lemma cstr_strcpy dst s dst' :
  strcpy dst s = Some dst' → NUL ∉ s → cstr dst' = Some s.
Proof.
  unfold strcpy. case_bool_decide; [|done]. intros [= <-]. apply cstr_app.
Qed.

Lemma strcpy_fits dst s :
  (length s < length dst)%nat → is_Some (strcpy dst s).
Proof. intros H. unfold strcpy. rewrite bool_decide_eq_true_2 by done. eauto. Qed.

End CStrings.

(** ** [parse_uri] *)

Section ParseUri.
Implicit Types (b s u w needle uri hostname port path : list ascii).

(** [parse_uri] on an array that holds the string [u]: the arrays are given
    the parts of [u], and [uri] is as it was. *)
Lemma parse_uri_spec uri u hostname port path :
  cstr uri = Some u →
  parse_uri uri hostname port path
  = (let '(host, prt, pth) := split_uri u in
     path' ← match pth with
             | None => match path with
                       | [] => None
                       | _ :: p => Some ("/"%char :: p)
                       end
             | Some x => strcpy path x
             end;
     port' ← strcpy port prt;
     hostname' ← strcpy hostname host;
     Some (uri, hostname', port', path')).
Proof.
  intros Hu. unfold parse_uri, split_uri.
  rewrite (strstr_at uri 0 u _ Hu). cbn [mbind option_bind].
  set (ptrhost := match (λ j, (0 + j)%nat) <$> find_sub (lit "//") u with
                  | Some i => (i + 2)%nat
                  | None => O
                  end).
  set (w := match find_sub (lit "//") u with
            | Some i => drop (i + 2) u
            | None => u
            end).
  assert (cstr (drop ptrhost uri) = Some w) as Hw.
  { unfold ptrhost, w. destruct (find_sub (lit "//") u) as [i|] eqn:Hi; [|done].
    simpl. apply (cstr_drop uri u 0); [done|].
    apply find_sub_length in Hi. simpl in Hi. lia. }
  clearbody ptrhost w.
  rewrite (strstr_at uri ptrhost w _ Hw). cbn [mbind option_bind].
  destruct (find_sub (lit "/") w) as [j|] eqn:Hj;
    cbn [fmap option_fmap option_map mbind option_bind].
  - (* there is a path *)
    pose proof (find_sub_length _ _ _ Hj) as Hjlt. simpl in Hjlt.
    pose proof (cstr_lookup _ _ _ _ _ Hw (find_sub_lookup _ _ _ _ Hj)) as Hslash.
    rewrite (cstr_drop uri w ptrhost j Hw) by lia.
    pose proof (cstr_cut uri w ptrhost j Hw ltac:(lia)) as Hw1.
    set (uri1 := <[(ptrhost + j)%nat := NUL]> uri) in *.
    destruct (find_sub (lit ":") (take j w)) as [k|] eqn:Hk;
      cbn [mbind option_bind];
      (destruct (strcpy path (drop j w)) as [path'|]; cbn [mbind option_bind];
       [|done]);
      rewrite (strstr_at uri1 ptrhost _ _ Hw1), Hk;
      cbn [fmap option_fmap option_map mbind option_bind].
    + pose proof (find_sub_length _ _ _ Hk) as Hklt. simpl in Hklt.
      pose proof (cstr_lookup _ _ _ _ _ Hw1 (find_sub_lookup _ _ _ _ Hk))
        as Hcolon.
      rewrite length_take in Hklt.
      rewrite <- Nat.add_succ_r.
      rewrite (cstr_drop uri1 _ ptrhost (S k) Hw1) by (rewrite length_take; lia).
      cbn [mbind option_bind].
      destruct (strcpy port (drop (S k) (take j w))) as [port'|];
        cbn [mbind option_bind]; [|done].
      rewrite (cstr_cut uri1 _ ptrhost k Hw1) by (rewrite length_take; lia).
      cbn [mbind option_bind].
      destruct (strcpy hostname (take k (take j w))) as [hostname'|];
        cbn [mbind option_bind]; [|done].
      do 4 f_equal.
      rewrite list_insert_insert_ne by lia.
      rewrite list_insert_insert_eq, (list_insert_id uri1 _ _ Hcolon).
      unfold uri1. by rewrite list_insert_insert_eq, list_insert_id.
    + destruct (strcpy port (lit "80")) as [port'|];
        cbn [mbind option_bind]; [|done].
      rewrite Hw1. cbn [mbind option_bind].
      destruct (strcpy hostname (take j w)) as [hostname'|];
        cbn [mbind option_bind]; [|done].
      do 4 f_equal.
      unfold uri1. by rewrite list_insert_insert_eq, list_insert_id.
  - (* there is no path *)
    destruct (find_sub (lit ":") w) as [k|] eqn:Hk;
      cbn [mbind option_bind];
      (destruct path as [|c0 path]; cbn [mbind option_bind]; [done|]);
      rewrite (strstr_at uri ptrhost _ _ Hw), Hk;
      cbn [fmap option_fmap option_map mbind option_bind].
    + pose proof (find_sub_length _ _ _ Hk) as Hklt. simpl in Hklt.
      pose proof (cstr_lookup _ _ _ _ _ Hw (find_sub_lookup _ _ _ _ Hk))
        as Hcolon.
      rewrite <- Nat.add_succ_r.
      rewrite (cstr_drop uri _ ptrhost (S k) Hw) by lia.
      cbn [mbind option_bind].
      destruct (strcpy port (drop (S k) w)) as [port'|];
        cbn [mbind option_bind]; [|done].
      rewrite (cstr_cut uri _ ptrhost k Hw) by lia.
      cbn [mbind option_bind].
      destruct (strcpy hostname (take k w)) as [hostname'|];
        cbn [mbind option_bind]; [|done].
      do 4 f_equal. by rewrite list_insert_insert_eq, list_insert_id.
    + destruct (strcpy port (lit "80")) as [port'|];
        cbn [mbind option_bind]; [|done].
      rewrite Hw. cbn [mbind option_bind].
      by destruct (strcpy hostname w) as [hostname'|].
Qed.

(** The parts are parts of the string. *)
Lemma split_uri_parts u host prt pth :
  split_uri u = (host, prt, pth) →
  host ⊆ u ∧ (length host ≤ length u)%nat
  ∧ (prt ⊆ u ∧ (length prt ≤ length u)%nat ∨ prt = lit "80")
  ∧ (∀ x, pth = Some x → x ⊆ u ∧ (length x ≤ length u)%nat).
Proof.
  unfold split_uri.
  set (w := match find_sub (lit "//") u with
            | Some i => drop (i + 2) u
            | None => u
            end).
  assert (w ⊆ u ∧ (length w ≤ length u)%nat) as [Hwu Hwl].
  { unfold w. destruct (find_sub (lit "//") u); [|done].
    split; [apply subseteq_drop|rewrite length_drop; lia]. }
  clearbody w.
  assert (∀ auth, auth ⊆ u → (length auth ≤ length u)%nat →
            ∀ host prt,
              match find_sub (lit ":") auth with
              | Some k => (take k auth, drop (S k) auth)
              | None => (auth, lit "80")
              end = (host, prt) →
              host ⊆ u ∧ (length host ≤ length u)%nat
              ∧ (prt ⊆ u ∧ (length prt ≤ length u)%nat ∨ prt = lit "80"))
    as Hauth.
  { intros auth Hau Hal host0 prt0.
    destruct (find_sub (lit ":") auth) as [k|]; intros [= <- <-].
    - split; [by etrans; [apply subseteq_take|]|].
      split; [rewrite length_take; lia|]. left.
      split; [by etrans; [apply subseteq_drop|]|rewrite length_drop; lia].
    - eauto. }
  destruct (find_sub (lit "/") w) as [j|].
  - destruct (match find_sub (lit ":") (take j w) with
              | Some k => (take k (take j w), drop (S k) (take j w))
              | None => (take j w, lit "80")
              end) as [host0 prt0] eqn:Hhp.
    intros [= <- <- <-].
    assert (take j w ⊆ u) as Hts by (by etrans; [apply subseteq_take|]).
    assert (length (take j w) ≤ length u)%nat as Htl
      by (rewrite length_take; lia).
    destruct (Hauth (take j w) Hts Htl host0 prt0 Hhp) as (? & ? & ?).
    split; [done|]. split; [done|]. split; [done|].
    intros x [= <-].
    split; [by etrans; [apply subseteq_drop|]|rewrite length_drop; lia].
  - destruct (match find_sub (lit ":") w with
              | Some k => (take k w, drop (S k) w)
              | None => (w, lit "80")
              end) as [host0 prt0] eqn:Hhp.
    intros [= <- <- <-].
    destruct (Hauth w Hwu Hwl host0 prt0 Hhp) as (? & ? & ?).
    split; [done|]. split; [done|]. split; [done|]. by intros x.
Qed.

(** [parse_uri] completes on arrays that are large enough for the string
    in [uri]; the strings it leaves are the parts of that string. *)
Lemma parse_uri_total uri u hostname port path host prt pth :
  cstr uri = Some u → split_uri u = (host, prt, pth) →
  (length u < length hostname)%nat → (length u < length port)%nat →
  (2 < length port)%nat → (length u < length path)%nat →
  ∃ hostname' port' path',
    parse_uri uri hostname port path = Some (uri, hostname', port', path')
    ∧ cstr hostname' = Some host ∧ cstr port' = Some prt
    ∧ match pth with
      | Some x => cstr path' = Some x
      | None => path' = "/"%char :: tail path
      end.
Proof.
  intros Hu Hsp Hh Hp Hp2 Hpa. rewrite (parse_uri_spec uri u _ _ _ Hu), Hsp.
  destruct (split_uri_parts _ _ _ _ Hsp) as (Hhs & Hhl & Hprt & Hpth).
  apply cstr_inv in Hu as (r & -> & Hnul).
  assert (NUL ∉ host) as Hn1 by (intros Hin; by apply Hnul, Hhs).
  assert ((NUL ∉ prt) ∧ (length prt < length port)%nat) as [Hn2 Hl2].
  { destruct Hprt as [[Hps Hpl]| ->].
    - split; [intros Hin; by apply Hnul, Hps|lia].
    - split; [|simpl; lia]. unfold lit. simpl. unfold NUL.
      intros Hin. repeat (apply elem_of_cons in Hin as [?|Hin]; [done|]).
      by apply elem_of_nil in Hin. }
  destruct (strcpy_fits hostname host) as [h' Eh]; [lia|].
  destruct (strcpy_fits port prt) as [p' Ep]; [lia|].
  assert (∃ path',
            match pth with
            | Some x => strcpy path x
            | None => match path with
                      | [] => None
                      | _ :: p => Some ("/"%char :: p)
                      end
            end = Some path'
            ∧ match pth with
              | Some x => cstr path' = Some x
              | None => path' = "/"%char :: tail path
              end) as (pa' & Epa & Hpa').
  { destruct pth as [x|].
    - destruct (Hpth x eq_refl) as [Hxs Hxl].
      destruct (strcpy_fits path x) as [pa' Epa]; [lia|].
      exists pa'. split; [done|]. eapply cstr_strcpy; [done|].
      intros Hin. by apply Hnul, Hxs.
    - destruct path as [|c0 path]; [simpl in Hpa; lia|]. eauto. }
  exists h', p', pa'. rewrite Epa. cbn [mbind option_bind].
  rewrite Ep. cbn [mbind option_bind]. rewrite Eh. cbn [mbind option_bind].
  split; [done|]. split; [by eapply cstr_strcpy|].
  split; [by eapply cstr_strcpy|done].
Qed.


Lemma starts_with_app needle s : starts_with needle (needle ++ s) = true.
Proof.
  induction needle as [|c needle IH]; [done|]. simpl.
  by rewrite Ascii.eqb_refl.
Qed.

Lemma find_sub_app c needle s1 s2 :
  c ∉ s1 → find_sub (c :: needle) (s1 ++ (c :: needle) ++ s2) = Some (length s1).
Proof.
  induction s1 as [|d s1 IH]; intros Hc.
  - pose proof (starts_with_app (c :: needle) s2) as Hw.
    cbn [app length] in Hw |- *. cbn [find_sub]. by rewrite Hw.
  - apply not_elem_of_cons in Hc as [Hcd Hc]. cbn [app find_sub starts_with].
    destruct (Ascii.eqb_spec c d) as [->|_]; [done|]. cbn [andb].
    specialize (IH Hc). cbn [app] in IH. by rewrite IH.
Qed.

Lemma find_sub_none c needle s : c ∉ s → find_sub (c :: needle) s = None.
Proof.
  induction s as [|d s IH]; intros Hc; [done|].
  apply not_elem_of_cons in Hc as [Hcd Hc]. cbn [find_sub starts_with].
  destruct (Ascii.eqb_spec c d) as [->|_]; [done|]. cbn [andb].
  by rewrite (IH Hc).
Qed.

(** The parts of [pre//auth] followed by [rest], which is empty or a path:
    the host and the port are cut out of [auth]. *)
Lemma split_uri_scheme pre auth rest :
  "/"%char ∉ pre → "/"%char ∉ auth →
  (rest = [] ∨ ∃ rest', rest = "/"%char :: rest') →
  split_uri (pre ++ lit "//" ++ auth ++ rest)
  = (match find_sub (lit ":") auth with
     | Some k => take k auth
     | None => auth
     end,
     match find_sub (lit ":") auth with
     | Some k => drop (S k) auth
     | None => lit "80"
     end,
     match rest with
     | [] => None
     | _ => Some rest
     end).
Proof.
  intros Hpre Hauth Hrest. unfold split_uri.
  change (lit "//") with ("/"%char :: lit "/").
  rewrite (find_sub_app "/"%char (lit "/") pre (auth ++ rest) Hpre).
  rewrite <- drop_drop, drop_app_length.
  change (drop 2 (("/"%char :: lit "/") ++ auth ++ rest)) with (auth ++ rest).
  change (lit "/") with ("/"%char :: []).
  destruct Hrest as [->|(rest' & ->)].
  - rewrite app_nil_r, (find_sub_none _ _ _ Hauth).
    by destruct (find_sub (lit ":") auth).
  - pose proof (find_sub_app "/"%char [] auth rest' Hauth) as Hf.
    cbn [app] in Hf. rewrite Hf, take_app_length, drop_app_length.
    by destruct (find_sub (lit ":") auth).
Qed.

End ParseUri.

(** ** [build_requesthdrs] *)

Section HeadersLemmas.
Variable MAXLINE : Z.

Lemma snprintf_app a b :
  snprintf MAXLINE (snprintf MAXLINE a ++ b) = snprintf MAXLINE (a ++ b).
Proof.
  unfold snprintf. set (k := Z.to_nat (MAXLINE - 1)).
  destruct (decide (length a ≤ k)%nat) as [Hle|Hgt].
  - by rewrite (take_ge a k) by done.
  - rewrite !take_app_le by (rewrite ?length_take; lia).
    rewrite take_take. f_equal. lia.
Qed.

Lemma filter_forwarded_cons l ls :
  filter forwarded (l :: ls)
  = if forwarded l then l :: filter forwarded ls else filter forwarded ls.
Proof.
  rewrite filter_cons. by destruct (forwarded l).
Qed.

(** The loop on lines that are read, up to the read that ends it. *)
Lemma header_loop_spec rio ls : ∀ x tl,
  header_lines rio ls →
  header_loop MAXLINE (rio ++ tl) (snprintf MAXLINE x) (snprintf MAXLINE x)
  = header_loop MAXLINE tl
      (snprintf MAXLINE (x ++ concat (filter forwarded ls)))
      (snprintf MAXLINE (x ++ concat (filter forwarded ls))).
Proof.
  intros x tl Hl. revert x.
  induction Hl as [|[n tmp] l rio ls (Hn & Htmp & Hl0) _ IH]; intros x.
  { simpl. by rewrite app_nil_r. }
  cbn [app header_loop]. simpl in Hn, Htmp.
  rewrite bool_decide_eq_false_2 by done. rewrite Htmp.
  cbn [mbind option_bind]. rewrite bool_decide_eq_false_2 by done.
  rewrite filter_forwarded_cons.
  destruct (forwarded l) eqn:Hf; unfold forwarded in Hf.
  - apply negb_true_iff in Hf.
    apply orb_false_elim in Hf as [Hf H4].
    apply orb_false_elim in Hf as [Hf H3].
    apply orb_false_elim in Hf as [H1 H2].
    rewrite H1, H2, H3, H4, snprintf_app, IH. cbn [concat].
    by rewrite !app_assoc.
  - destruct (has (lit "Host") l); [apply IH|].
    destruct (has (lit "User-Agent") l); [apply IH|].
    destruct (has (lit "Connection") l); [apply IH|].
    destruct (has (lit "Proxy-Connection") l); [apply IH|done].
Qed.

Lemma fits_Some (s : list ascii) :
  Z.of_nat (length s) < MAXLINE → fits MAXLINE s = Some s.
Proof. intros H. unfold fits. by rewrite bool_decide_eq_true_2. Qed.

(** [build_requesthdrs] up to the read that ends its loop. *)
Lemma build_requesthdrs_spec rio ls tl hostname port path h p pa n :
  cstr hostname = Some h → cstr port = Some p → cstr path = Some pa →
  atoi p = Some n → Z.of_nat (length h) < MAXLINE →
  (n ≠ 80 → Z.of_nat (length h + 1 + length p) < MAXLINE) →
  header_lines rio ls →
  build_requesthdrs MAXLINE (rio ++ tl) hostname port path
  = header_loop MAXLINE tl
      (snprintf MAXLINE (fixed_headers pa (host_header h p n)
                         ++ concat (filter forwarded ls)))
      (snprintf MAXLINE (fixed_headers pa (host_header h p n)
                         ++ concat (filter forwarded ls))).
Proof.
  intros Hh Hp Hpa Hn Hlh Hlen Hl. unfold build_requesthdrs.
  rewrite Hh. cbn [mbind option_bind]. rewrite fits_Some by lia.
  cbn [mbind option_bind]. rewrite Hp. cbn [mbind option_bind].
  rewrite Hn. cbn [mbind option_bind].
  assert ((if bool_decide (n ≠ 80)
           then fits MAXLINE (h ++ lit ":") ≫= λ hdrs_host,
                  fits MAXLINE (hdrs_host ++ p)
           else Some h) = Some (host_header h p n)) as ->.
  { unfold host_header. case_bool_decide as Hne.
    - specialize (Hlen Hne). rewrite bool_decide_eq_false_2 by done.
      rewrite fits_Some by (rewrite length_app; simpl; lia).
      cbn [mbind option_bind].
      rewrite fits_Some by (rewrite !length_app; simpl; lia).
      by rewrite <- app_assoc.
    - rewrite bool_decide_eq_true_2; [done|]. by destruct (decide (n = 80)). }
  cbn [mbind option_bind]. rewrite Hpa. cbn [mbind option_bind].
  rewrite <- (header_loop_spec rio ls _ tl Hl). unfold fixed_headers.
  repeat (rewrite snprintf_app; rewrite <- ?app_assoc). done.
Qed.

End HeadersLemmas.

(** ** [forward_request] *)

Section HandlerLemmas.
Variable MAXLINE : Z.







(** A GET of a key that the lookup finds. *)
Lemma forward_request_hit net rio uri hostname port path object errno s a s1 v :
  get_line MAXLINE rio uri →
  get_web_object (key_of uri) s = Some (Some a, s1) →
  serve_cache a s1 = Some v →
  forward_request MAXLINE net rio hostname port path object errno s
  = Some (s1, [v]).
Proof.
  intros (n & buf & rio' & line & method & version & -> & Hn & Hbuf & Hlen
          & Hscan & Hget) E Es.
  unfold forward_request. rewrite bool_decide_eq_false_2 by lia.
  rewrite Hbuf. cbn [mbind option_bind]. rewrite fits_Some by done.
  cbn [mbind option_bind]. rewrite Hscan, Hget. cbn [negb].
  rewrite E. cbn [mbind option_bind]. by rewrite Es.
Qed.


End HandlerLemmas.

(** ** The concrete runs *)

Ltac solve_admissible :=
  (split; [|split; [split|]]); vm_compute; congruence.

Ltac solve_admissible_ops :=
  repeat first
    [ apply Forall_nil_2
    | apply Forall_cons; split
    | exact I
    | solve_admissible ].

Lemma ops_cba_admissible : Forall (admissible_op csapp_MAXLINE) ops_cba.
Proof. unfold ops_cba. solve_admissible_ops. Qed.

Lemma ops_near_full_admissible :
  Forall (admissible_op csapp_MAXLINE) ops_near_full.
Proof. unfold ops_near_full. cbn [fmap list_fmap]. solve_admissible_ops. Qed.

Lemma st_cba_reachable : reachable csapp_MAXLINE st_cba.
Proof. apply reachable_state_after, ops_cba_admissible. Qed.

Lemma st_near_full_reachable : reachable csapp_MAXLINE st_near_full.
Proof. apply reachable_state_after, ops_near_full_admissible. Qed.

Example st_cba_keys : keys st_cba = ["c"; "b"; "a"]%string.
Proof. vm_compute. reflexivity. Qed.

Example st_near_full_size : cache_size st_near_full = MAX_CACHE_SIZE - 50.
Proof. vm_compute. reflexivity. Qed.

Example ops_mixed_order :
  keys (state_after csapp_MAXLINE ops_mixed) = ["d"; "b"; "a"; "c"]%string
  ∧ last_access csapp_MAXLINE ops_mixed init_cache []
    = ["d"; "b"; "a"; "c"]%string.
Proof. split; vm_compute; reflexivity. Qed.

(** A read of the origin that fails leaves the relay loop without a defined
    result: -1 is taken for a number of bytes. *)
Example read_error_undefined :
  connect_server csapp_MAXLINE
    (mkOrigin true None [Chunk [x01; x02] None; ReadError 104])
    (bz MAX_OBJECT_SIZE) 0 "u" init_cache
  = None.
Proof. vm_compute. reflexivity. Qed.

Lemma request_ex_get_line : get_line csapp_MAXLINE request_ex uri_ex.
Proof.
  eexists _, _, _, _, _, _. split; [reflexivity|].
  split; [done|]. split; [vm_compute; reflexivity|].
  split; [vm_compute; reflexivity|]. split; vm_compute; reflexivity.
Qed.

Lemma handled_ex_eq :
  forward_request csapp_MAXLINE net_ex request_ex
    (fresh_array csapp_MAXLINE) (fresh_array csapp_MAXLINE)
    (fresh_array csapp_MAXLINE) (bz MAX_OBJECT_SIZE) 0 init_cache
  = Some handled_ex.
Proof. vm_compute. reflexivity. Qed.

Example handled_ex_result :
  keys handled_ex.1 = [key_of uri_ex] ∧ handled_ex.2 = [[x01; x02]; [x03]].
Proof. split; vm_compute; reflexivity. Qed.

(** * Part IV: the claims *)

(** C1.  In every state reached from the empty store by completed lookups
    and completed inserts of admissible size, [cache_size] is the sum of the
    sizes of the entries of the store and is at most [MAX_CACHE_SIZE]. *)
Theorem total_bytes_invariant (MAXLINE : Z) s :
  reachable MAXLINE s →
  cache_size s = total (entries s) ∧ cache_size s ≤ MAX_CACHE_SIZE.
Proof.
  intros Hr. destruct (reachable_inv MAXLINE s Hr) as [l Hi].
  rewrite (inv_for_entries s l Hi). destruct Hi as (_ & Htot & _ & _ & Hmax).
  done.
Qed.

Lemma total_bytes_invariant_witness :
  reachable csapp_MAXLINE st_near_full
  ∧ cache_size st_near_full = total (entries st_near_full)
  ∧ cache_size st_near_full ≤ MAX_CACHE_SIZE.
Proof.
  split; [exact st_near_full_reachable|].
  exact (total_bytes_invariant csapp_MAXLINE st_near_full st_near_full_reachable).
Defined.

(** C2, as the code has it.  [write_cache] has no size check of its own; the
    bound is the dispatcher's, which calls it only with
    [obj_size <= MAX_OBJECT_SIZE].  So no entry of a store that the handlers
    of proxy.c have produced is larger than [MAX_OBJECT_SIZE]. *)
Theorem served_entries_bounded (MAXLINE : Z) s :
  served MAXLINE s → Forall (λ e, e_size e ≤ MAX_OBJECT_SIZE) (entries s).
Proof.
  intros Hs. apply served_reachable, reachable_inv in Hs as [l Hi].
  rewrite (inv_for_entries s l Hi). destruct Hi as (_ & _ & _ & Hb & _).
  eapply Forall_impl; [exact Hb|]. intros e. simpl. lia.
Qed.

Lemma served_entries_bounded_witness :
  served csapp_MAXLINE fetched_ok.1
  ∧ Forall (λ e, e_size e ≤ MAX_OBJECT_SIZE) (entries fetched_ok.1).
Proof.
  assert (served csapp_MAXLINE fetched_ok.1) as Hs.
  { apply (served_fetch csapp_MAXLINE init_cache origin_ok (bz MAX_OBJECT_SIZE)
             0 "u" fetched_ok.1 fetched_ok.2 (served_init csapp_MAXLINE)).
    vm_compute. reflexivity. }
  split; [exact Hs|].
  exact (served_entries_bounded csapp_MAXLINE fetched_ok.1 Hs).
Defined.

(** C2, counterexample.  [write_cache] on the empty store with an object of
    [MAX_OBJECT_SIZE + 1] bytes does not reject the call: the object is
    stored. *)
Lemma oversized_insert_is_stored :
  entries init_cache = []
  ∧ MAX_OBJECT_SIZE < MAX_OBJECT_SIZE + 1
  ∧ (λ s, (keys s, e_size <$> entries s, cache_size s))
      <$> write_cache csapp_MAXLINE "big" (bz (MAX_OBJECT_SIZE + 1))
            (MAX_OBJECT_SIZE + 1) init_cache
    = Some (["big"%string], [MAX_OBJECT_SIZE + 1], MAX_OBJECT_SIZE + 1).
Proof. split; [|split]; vm_compute; reflexivity. Qed.

(** C3, as the code has it.  An insert of an absent key that finds
    [cache_size + block_size > MAX_CACHE_SIZE] evicts an end [ev] of the
    list, least recently used first, and stops as soon as the bytes freed
    reach [block_size]: [ev] holds at least [block_size] bytes and [ev]
    without its most recently used entry holds less.  The new entry is then
    put in front of what is kept. *)
Theorem insert_evicts_until_freed (MAXLINE : Z) s k v n :
  reachable MAXLINE s → k ∉ keys s → admissible MAXLINE k v n →
  cache_size s + n > MAX_CACHE_SIZE →
  ∃ s' kept ev,
    write_cache MAXLINE k v n s = Some s'
    ∧ entries s = kept ++ ev
    ∧ entries s' = new_entry k v n :: kept
    ∧ ev ≠ [] ∧ n ≤ total ev ∧ total (tail ev) < n
    ∧ cache_size s' = cache_size s - total ev + n.
Proof.
  intros Hr Hk Hadm Hbig. destruct (reachable_inv MAXLINE s Hr) as [l Hi].
  rewrite (inv_for_keys s l Hi) in Hk.
  destruct (inv_insert_absent MAXLINE s l k v n Hi Hk Hadm)
    as (s' & a & kept & ev & -> & E & Hi' & _ & Hev).
  destruct (Hev Hbig) as (_ & Hne & Hstop & Hcont).
  exists s', kept.*2, ev.*2. split; [done|].
  rewrite (inv_for_entries _ _ Hi), (inv_for_entries _ _ Hi').
  rewrite fmap_cons, fmap_app. split; [done|]. split; [done|].
  split; [by destruct ev|]. split; [done|].
  split; [by destruct ev|].
  destruct Hi as (_ & -> & _), Hi' as (_ & -> & _).
  rewrite fmap_cons, fmap_app, total_app. simpl. lia.
Qed.

Lemma insert_evicts_until_freed_witness :
  ("n" ∉ keys st_near_full) ∧ admissible csapp_MAXLINE "n" (bz 100) 100
  ∧ cache_size st_near_full + 100 > MAX_CACHE_SIZE
  ∧ ∃ s' kept ev,
      write_cache csapp_MAXLINE "n" (bz 100) 100 st_near_full = Some s'
      ∧ entries st_near_full = kept ++ ev
      ∧ entries s' = new_entry "n" (bz 100) 100 :: kept
      ∧ ev ≠ [] ∧ 100 ≤ total ev ∧ total (tail ev) < 100
      ∧ cache_size s' = cache_size st_near_full - total ev + 100.
Proof.
  assert ("n" ∉ keys st_near_full) as Hk
    by (apply (bool_decide_unpack _); vm_compute; exact I).
  assert (admissible csapp_MAXLINE "n" (bz 100) 100) as Hadm
    by solve_admissible.
  assert (cache_size st_near_full + 100 > MAX_CACHE_SIZE) as Hbig
    by (vm_compute; reflexivity).
  split; [exact Hk|]. split; [exact Hadm|]. split; [exact Hbig|].
  exact (insert_evicts_until_freed csapp_MAXLINE st_near_full "n" (bz 100) 100
           st_near_full_reachable Hk Hadm Hbig).
Defined.

(** C3, counterexample.  The store is 50 bytes short of [MAX_CACHE_SIZE]
    and its least recently used entry has 60 bytes.  For an object of 100
    bytes the eviction of that one entry gives
    [total_bytes + size <= MAX_CACHE_SIZE], where the specification stops;
    the code goes on to free 100 bytes and evicts the next entry too. *)
Lemma insert_evicts_more_than_needed :
  keys st_near_full
  = ["9"; "8"; "7"; "6"; "5"; "4"; "3"; "2"; "1"; "0"; "t2"; "t1"]%string
  ∧ cache_size st_near_full + 100 > MAX_CACHE_SIZE
  ∧ e_key <$> spec_insert "n" (bz 100) 100 (entries st_near_full)
    = ["n"; "9"; "8"; "7"; "6"; "5"; "4"; "3"; "2"; "1"; "0"; "t2"]%string
  ∧ keys <$> write_cache csapp_MAXLINE "n" (bz 100) 100 st_near_full
    = Some (["n"; "9"; "8"; "7"; "6"; "5"; "4"; "3"; "2"; "1"; "0"]%string).
Proof. repeat split; vm_compute; reflexivity. Qed.

(** C4, as the code has it.  When an insert of admissible size calls
    [evict_entries], the call completes: it cuts a non-empty end off the
    list and leaves at least the first entry. *)
Theorem eviction_completes (MAXLINE : Z) s n :
  reachable MAXLINE s → 0 ≤ n ≤ MAX_OBJECT_SIZE →
  cache_size s + n > MAX_CACHE_SIZE →
  ∃ s' kept ev,
    evict_entries n s = Some s'
    ∧ entries s = kept ++ ev ∧ entries s' = kept
    ∧ kept ≠ [] ∧ ev ≠ []
    ∧ cache_size s' = cache_size s - total ev.
Proof.
  intros Hr Hn Hbig. destruct (reachable_inv MAXLINE s Hr) as [l Hi].
  destruct (inv_evict_split s l n Hi Hn Hbig)
    as (kept & ev & -> & Hkept & Hev & Hstop & Hcont).
  pose proof Hi as (Hrepr & _ & _ & Hb & _).
  rewrite fmap_app in Hb. apply Forall_app in Hb as [_ Hbe].
  destruct (evict_entries_spec s kept ev n Hrepr Hkept Hev)
    as (s' & E & R & Hsz); [by apply bounded_nonneg|done..|].
  exists s', kept.*2, ev.*2. split; [done|].
  rewrite (inv_for_entries _ _ Hi), (repr_entries _ _ R), fmap_app.
  split; [done|]. split; [done|]. split; [by destruct kept|].
  split; [by destruct ev|done].
Qed.

Lemma eviction_completes_witness :
  0 ≤ 100 ≤ MAX_OBJECT_SIZE
  ∧ cache_size st_near_full + 100 > MAX_CACHE_SIZE
  ∧ ∃ s' kept ev,
      evict_entries 100 st_near_full = Some s'
      ∧ entries st_near_full = kept ++ ev ∧ entries s' = kept
      ∧ kept ≠ [] ∧ ev ≠ []
      ∧ cache_size s' = cache_size st_near_full - total ev.
Proof.
  assert (0 ≤ 100 ≤ MAX_OBJECT_SIZE) as Hn by (split; vm_compute; congruence).
  assert (cache_size st_near_full + 100 > MAX_CACHE_SIZE) as Hbig
    by (vm_compute; reflexivity).
  split; [exact Hn|]. split; [exact Hbig|].
  exact (eviction_completes csapp_MAXLINE st_near_full 100
           st_near_full_reachable Hn Hbig).
Defined.

(** C4, counterexample.  The store holds one entry of 3 bytes and the
    insert asks for [MAX_CACHE_SIZE] bytes, more than all entries hold.
    The eviction does not stop at an emptied store: its first round is on
    the head, whose [prev] is NULL, and [e->prev->next = NULL] has no
    defined result. *)
Lemma eviction_undefined_at_head :
  keys st_one = ["a"%string] ∧ cache_size st_one = 3
  ∧ cache_size st_one + MAX_CACHE_SIZE > MAX_CACHE_SIZE
  ∧ evict_entries MAX_CACHE_SIZE st_one = None
  ∧ write_cache csapp_MAXLINE "b" (bz MAX_CACHE_SIZE) MAX_CACHE_SIZE st_one
    = None.
Proof. repeat split; vm_compute; reflexivity. Qed.

(** C5, as the code has it.  An insert of a key that is present stores
    nothing and changes no entry and no byte total, but it moves the entry
    of the key to the front (its presence check is [get_web_object]); the
    other entries keep their order. *)
Theorem insert_present_promotes (MAXLINE : Z) s k v n :
  reachable MAXLINE s → k ∈ keys s →
  ∃ s' E1 e E2,
    write_cache MAXLINE k v n s = Some s'
    ∧ entries s = E1 ++ e :: E2 ∧ e_key e = k
    ∧ entries s' = e :: E1 ++ E2
    ∧ cache_size s' = cache_size s.
Proof.
  intros Hr Hk. destruct (reachable_inv MAXLINE s Hr) as [l Hi].
  rewrite (inv_for_keys s l Hi) in Hk.
  destruct (lookup_cases s l k Hi)
    as [[Hout _]|(l1 & a & e & l2 & s1 & -> & <- & E & Hi1)]; [done|].
  destruct (inv_insert_present MAXLINE s l1 a e l2 v n Hi) as (s' & E' & Hi').
  exists s', l1.*2, e, l2.*2. split; [done|].
  rewrite (inv_for_entries _ _ Hi), (inv_for_entries _ _ Hi').
  rewrite fmap_cons, !fmap_app, fmap_cons. repeat split; try done.
  destruct Hi as (_ & -> & _), Hi' as (_ & -> & _).
  rewrite fmap_cons, !fmap_app, fmap_cons. simpl. rewrite !total_app.
  simpl. lia.
Qed.

Lemma insert_present_promotes_witness :
  ("a" ∈ keys st_cba)
  ∧ ∃ s' E1 e E2,
      write_cache csapp_MAXLINE "a" (bz 7) 7 st_cba = Some s'
      ∧ entries st_cba = E1 ++ e :: E2 ∧ e_key e = "a"%string
      ∧ entries s' = e :: E1 ++ E2
      ∧ cache_size s' = cache_size st_cba.
Proof.
  assert ("a" ∈ keys st_cba) as Hk
    by (apply (bool_decide_unpack _); vm_compute; exact I).
  split; [exact Hk|].
  exact (insert_present_promotes csapp_MAXLINE st_cba "a" (bz 7) 7
           st_cba_reachable Hk).
Defined.

(** C5, counterexample.  With the entries c, b, a in the store, the insert
    of the present key a changes the order to a, c, b. *)
Lemma insert_present_reorders :
  keys st_cba = ["c"; "b"; "a"]%string
  ∧ keys <$> write_cache csapp_MAXLINE "a" (bz 7) 7 st_cba
    = Some (["a"; "c"; "b"]%string).
Proof. split; vm_compute; reflexivity. Qed.

(** C6, as the code has it.  After a sequence of lookups and inserts,
    started on the empty store, the keys of the store from first to last are the first keys of
    [last_access]: the keys that the sequence has accessed, each once, in
    the order of their last access, latest first.  An access is a lookup
    that returns an entry or an insert; an insert of a present key counts,
    since the code looks the key up, which promotes the entry, as the head
    of cache.c has it for every reference to an entry (see C5).  In
    the state reached, a lookup that hits moves the entry found to the
    front and leaves the others in their order, and an insert of an absent
    key puts the new entry before a front part of the list. *)
Theorem order_is_recency (MAXLINE : Z) ops :
  Forall (admissible_op MAXLINE) ops →
  ∃ s, run MAXLINE ops init_cache = Some s
       ∧ keys s `prefix_of` last_access MAXLINE ops init_cache []
       ∧ NoDup (last_access MAXLINE ops init_cache [])
       ∧ (∀ k, k ∈ keys s →
          ∃ a s' E1 e E2,
            get_web_object k s = Some (Some a, s')
            ∧ entries s = E1 ++ e :: E2 ∧ e_key e = k
            ∧ entries s' = e :: E1 ++ E2)
       ∧ (∀ k v n, k ∉ keys s → admissible MAXLINE k v n →
          ∃ s' kept,
            write_cache MAXLINE k v n s = Some s'
            ∧ kept `prefix_of` entries s
            ∧ entries s' = new_entry k v n :: kept).
Proof.
  intros Hadm.
  destruct (run_last_access MAXLINE ops init_cache []
              (ex_intro _ [] inv_init)) as (s & E & Hi & Hpre & Hnd);
    [by exists []|apply NoDup_nil_2|done|].
  exists s. split; [done|]. split; [done|]. split; [done|].
  split.
  - intros k Hk.
    destruct (lookup_hit_entries s k Hi Hk)
      as (a & s' & E1 & e & E2 & ? & _ & ? & ? & ?).
    by exists a, s', E1, e, E2.
  - intros k v n Hk Hadmk.
    destruct (insert_absent_entries MAXLINE s k v n Hi Hk Hadmk)
      as (s' & kept & ? & _ & ? & ?).
    by exists s', kept.
Qed.

Lemma order_is_recency_witness :
  Forall (admissible_op csapp_MAXLINE) ops_mixed
  ∧ ∃ s, run csapp_MAXLINE ops_mixed init_cache = Some s
         ∧ keys s `prefix_of` last_access csapp_MAXLINE ops_mixed init_cache []
         ∧ NoDup (last_access csapp_MAXLINE ops_mixed init_cache []).
Proof.
  assert (Forall (admissible_op csapp_MAXLINE) ops_mixed) as Hadm
    by (unfold ops_mixed, ops_cba; cbn [app]; solve_admissible_ops).
  split; [exact Hadm|].
  destruct (order_is_recency csapp_MAXLINE ops_mixed Hadm)
    as (s & E & Hpre & Hnd & _).
  exists s. split; [exact E|]. split; [exact Hpre|exact Hnd].
Defined.

(** C6, counterexample.  With the accesses of the specification, a lookup
    that hits or an insert that stores an entry, the order of the store is
    not that of the last accesses.  After the inserts of a, b and c, the
    insert of a, which is present, stores nothing and is no access; the
    last accesses are in the order c, b, a, and the store has a before c
    and b. *)
Lemma present_insert_breaks_recency :
  Forall (admissible_op csapp_MAXLINE) ops_reinsert
  ∧ keys <$> run csapp_MAXLINE ops_reinsert init_cache
    = Some (["a"; "c"; "b"]%string)
  ∧ spec_last_access csapp_MAXLINE ops_reinsert init_cache []
    = ["c"; "b"; "a"]%string.
Proof.
  split; [|split; vm_compute; reflexivity].
  unfold ops_reinsert, ops_cba; cbn [app]; solve_admissible_ops.
Qed.

(** C7.  After the insert of an absent key [k] with the [n] bytes [v], the
    lookup of [k] that follows returns a node whose [web_object] is [v] and
    whose [block_size] is [n]. *)
Theorem insert_lookup_roundtrip (MAXLINE : Z) s k v n :
  reachable MAXLINE s → k ∉ keys s → admissible MAXLINE k v n →
  Z.of_nat (length v) = n →
  ∃ s1 a s2 c,
    write_cache MAXLINE k v n s = Some s1
    ∧ get_web_object k s1 = Some (Some a, s2)
    ∧ heap s2 !! a = Some c
    ∧ url c = k ∧ web_object c = v ∧ block_size c = n.
Proof.
  intros Hr Hk Hadm Hlen. destruct (reachable_inv MAXLINE s Hr) as [l Hi].
  rewrite (inv_for_keys s l Hi) in Hk.
  destruct (inv_insert_absent MAXLINE s l k v n Hi Hk Hadm)
    as (s1 & a & kept & ev & _ & E1 & Hi1 & _).
  destruct (inv_lookup_hit s1 [] a (new_entry k v n) kept Hi1)
    as (s2 & E2 & Hi2).
  destruct Hi2 as ((_ & (c & Hc & Hp & _) & _) & _).
  exists s1, a, s2, c. split; [done|]. split; [done|]. split; [done|].
  simpl in Hp. unfold payload, new_entry in Hp. injection Hp as -> Hv ->.
  split; [done|]. split; [|done]. rewrite Hv. apply take_ge. lia.
Qed.

Lemma insert_lookup_roundtrip_witness :
  ("d" ∉ keys st_cba) ∧ admissible csapp_MAXLINE "d" (bz 6) 6
  ∧ Z.of_nat (length (bz 6)) = 6
  ∧ ∃ s1 a s2 c,
      write_cache csapp_MAXLINE "d" (bz 6) 6 st_cba = Some s1
      ∧ get_web_object "d" s1 = Some (Some a, s2)
      ∧ heap s2 !! a = Some c
      ∧ url c = "d"%string ∧ web_object c = bz 6 ∧ block_size c = 6.
Proof.
  assert ("d" ∉ keys st_cba) as Hk
    by (apply (bool_decide_unpack _); vm_compute; exact I).
  assert (admissible csapp_MAXLINE "d" (bz 6) 6) as Hadm by solve_admissible.
  assert (Z.of_nat (length (bz 6)) = 6) as Hlen by (vm_compute; reflexivity).
  split; [exact Hk|]. split; [exact Hadm|]. split; [exact Hlen|].
  exact (insert_lookup_roundtrip csapp_MAXLINE st_cba "d" (bz 6) 6
           st_cba_reachable Hk Hadm Hlen).
Defined.

(** C8.  [connect_server] does not call [write_cache] after every relay
    that has run to its end within [MAX_OBJECT_SIZE].  The write of the
    request headers, line 365, whose result is not tested, has left
    [errno = EPIPE]; the origin then sends three bytes, which reach the
    client, and closes.  No write to the client has failed and the relay has
    run to its end with 3 bytes, yet the test of line 383 reads [errno] and
    [write_cache] is not called: the store stays empty, where the call would
    have stored the key.  The writes to the client, lines 189-190 and
    376-377, read [errno] only after [rio_writen] has returned -1, and the
    comment above [connect_server] has data within [MAX_OBJECT_SIZE]
    written into the cache. *)
Lemma stale_errno_skips_insert :
  connect_server csapp_MAXLINE origin_stale (bz MAX_OBJECT_SIZE) 0 "u"
    init_cache
  = Some (init_cache, [[x01; x02]; [x03]])
  ∧ keys <$> write_cache csapp_MAXLINE "u" [x01; x02; x03] 3 init_cache
    = Some (["u"%string]).
Proof. split; vm_compute; reflexivity. Qed.

(** C9.  Each [get_web_object] and each [write_cache] runs between
    [pthread_mutex_lock] and [pthread_mutex_unlock], so that handlers take
    turns by whole operations; [serve_cache], line 171, reads the node of a
    hit after the mutex has been released at line 167.  On a store 50 bytes
    short of [MAX_CACHE_SIZE], a handler's lookup of t2 hits and returns
    node 2, of 24466 bytes, which [serve_cache] can read at once.  When
    twelve inserts of other handlers, of [MAX_OBJECT_SIZE] bytes each, take
    their turns before it does, they evict and free node 2, and
    [serve_cache] reads a node that is no longer allocated. *)
Example hit_then_flood :
  (λ '(r, s1),
     (r,
      r ≫= λ a, (λ b, Z.of_nat (length b)) <$> serve_cache a s1,
      r ≫= λ a,
        serve_cache a (default s1 (run csapp_MAXLINE ops_flood s1))))
    <$> get_web_object "t2" st_near_full
  = Some (Some 2%positive, Some 24466, None).
Proof. vm_compute. reflexivity. Qed.

(** C10.  A lookup of a key that is not in the store returns NULL and leaves
    the state as it was: heap, [cache] and [cache_size], hence entries,
    values, sizes and order. *)
Theorem lookup_miss_unchanged (MAXLINE : Z) s k :
  reachable MAXLINE s → k ∉ keys s → get_web_object k s = Some (None, s).
Proof.
  intros Hr Hk. destruct (reachable_inv MAXLINE s Hr) as [l Hi].
  rewrite (inv_for_keys s l Hi) in Hk. destruct Hi as (Hrepr & _).
  by eapply get_web_object_miss.
Qed.

Lemma lookup_miss_unchanged_witness :
  ("z" ∉ keys st_cba) ∧ get_web_object "z" st_cba = Some (None, st_cba).
Proof.
  assert ("z" ∉ keys st_cba) as Hk by (apply (bool_decide_unpack _); vm_compute; exact I).
  split; [exact Hk|].
  exact (lookup_miss_unchanged csapp_MAXLINE st_cba "z" st_cba_reachable Hk).
Defined.

(** * Part V: further properties of the code *)

(** ** cache.c *)

(** X1.  No key occurs twice in a store that lookups and inserts of
    admissible size have produced. *)
Theorem reachable_keys_unique (MAXLINE : Z) s :
  reachable MAXLINE s → NoDup (keys s).
Proof.
  intros Hr. destruct (reachable_inv MAXLINE s Hr) as [l Hi].
  rewrite (inv_for_keys s l Hi). apply Hi.
Qed.

Lemma reachable_keys_unique_witness :
  reachable csapp_MAXLINE st_near_full ∧ NoDup (keys st_near_full).
Proof.
  split; [exact st_near_full_reachable|].
  exact (reachable_keys_unique csapp_MAXLINE st_near_full
           st_near_full_reachable).
Defined.

(** X2.  Nothing leaks: the allocated nodes are the nodes of the list, as
    many as the store has entries; what an eviction cuts off it has
    freed. *)
Theorem no_node_leaks (MAXLINE : Z) s :
  reachable MAXLINE s → size (heap s) = length (entries s).
Proof.
  intros Hr. destruct (reachable_tidy MAXLINE s Hr) as [l Ht].
  rewrite (tidy_size s l Ht). destruct Ht as (Hi & _).
  by rewrite (inv_for_entries s l Hi), length_fmap.
Qed.

Lemma no_node_leaks_witness :
  reachable csapp_MAXLINE st_near_full
  ∧ size (heap st_near_full) = length (entries st_near_full).
Proof.
  split; [exact st_near_full_reachable|].
  exact (no_node_leaks csapp_MAXLINE st_near_full st_near_full_reachable).
Defined.

(** X3.  A lookup of a key of the store returns the node of its entry, now
    the first of the list, and [serve_cache] on that node hands out the
    bytes of the entry, as many as its size says. *)
Theorem hit_serves_stored_value (MAXLINE : Z) s k :
  reachable MAXLINE s → k ∈ keys s →
  ∃ a s1 e,
    get_web_object k s = Some (Some a, s1)
    ∧ e ∈ entries s ∧ e_key e = k
    ∧ cache s1 = Some a
    ∧ serve_cache a s1 = Some (e_value e)
    ∧ Z.of_nat (length (e_value e)) = e_size e.
Proof.
  intros Hr Hk. destruct (reachable_tidy MAXLINE s Hr) as [l Ht].
  pose proof Ht as (Hi & _). rewrite (inv_for_keys s l Hi) in Hk.
  exact (lookup_hit_serves s l k Ht Hk).
Qed.

Lemma hit_serves_stored_value_witness :
  "t2" ∈ keys st_near_full
  ∧ ∃ a s1 e,
      get_web_object "t2" st_near_full = Some (Some a, s1)
      ∧ e ∈ entries st_near_full ∧ e_key e = "t2"%string
      ∧ cache s1 = Some a
      ∧ serve_cache a s1 = Some (e_value e)
      ∧ Z.of_nat (length (e_value e)) = e_size e.
Proof.
  assert ("t2" ∈ keys st_near_full) as Hk
    by (apply (bool_decide_unpack _); vm_compute; exact I).
  split; [exact Hk|].
  exact (hit_serves_stored_value csapp_MAXLINE st_near_full "t2"
           st_near_full_reachable Hk).
Defined.

(** X4.  A lookup repeated at once returns what the first one returned and
    changes nothing: the entry found is at the front already. *)
Theorem lookup_twice (MAXLINE : Z) s k r s1 :
  reachable MAXLINE s → get_web_object k s = Some (r, s1) →
  get_web_object k s1 = Some (r, s1).
Proof.
  intros Hr E. destruct (reachable_inv MAXLINE s Hr) as [l Hi].
  destruct (lookup_cases s l k Hi)
    as [[_ E1]|(l1 & a & e & l2 & s' & -> & <- & E1 & Hi1)];
    rewrite E1 in E; injection E as <- <-; [done|].
  destruct Hi1 as (Hr1 & _). pose proof (repr_fuel _ _ Hr1) as Hfuel.
  destruct Hr1 as (Hc & Hs & _). unfold get_web_object. rewrite Hc.
  rewrite (find_entry_hit _ None [] a e (l1 ++ l2)); [|done| |].
  - simpl. unfold move_to_head. by rewrite decide_True.
  - simpl. lia.
  - apply not_elem_of_nil.
Qed.

Lemma lookup_twice_witness :
  get_web_object "a" st_cba
  = Some (Some 1%positive, state_after csapp_MAXLINE (ops_cba ++ [Lookup "a"]))
  ∧ get_web_object "a" (state_after csapp_MAXLINE (ops_cba ++ [Lookup "a"]))
    = Some (Some 1%positive,
            state_after csapp_MAXLINE (ops_cba ++ [Lookup "a"])).
Proof.
  assert (get_web_object "a" st_cba
          = Some (Some 1%positive,
                  state_after csapp_MAXLINE (ops_cba ++ [Lookup "a"]))) as E
    by (vm_compute; reflexivity).
  split; [exact E|].
  exact (lookup_twice csapp_MAXLINE st_cba "a" _ _ st_cba_reachable E).
Defined.

(** X5.  An insert of an absent key that finds room evicts nothing: the new
    entry is put before all the entries of the store and [cache_size] grows
    by its size. *)
Theorem insert_with_room_keeps_all (MAXLINE : Z) s k v n :
  reachable MAXLINE s → k ∉ keys s → admissible MAXLINE k v n →
  cache_size s + n ≤ MAX_CACHE_SIZE →
  ∃ s', write_cache MAXLINE k v n s = Some s'
        ∧ entries s' = new_entry k v n :: entries s
        ∧ cache_size s' = cache_size s + n.
Proof.
  intros Hr Hk Hadm Hfit. destruct (reachable_inv MAXLINE s Hr) as [l Hi].
  rewrite (inv_for_keys s l Hi) in Hk. pose proof Hi as (Hrp & _).
  destruct (write_cache_fit MAXLINE s l k v n Hrp Hk Hadm)
    as (s' & a & E & R & Hsz); [lia|].
  exists s'. split; [done|]. split; [|done].
  by rewrite (repr_entries _ _ R), (repr_entries _ _ Hrp).
Qed.

Lemma insert_with_room_keeps_all_witness :
  ("d" ∉ keys st_cba) ∧ admissible csapp_MAXLINE "d" (bz 6) 6
  ∧ cache_size st_cba + 6 ≤ MAX_CACHE_SIZE
  ∧ ∃ s', write_cache csapp_MAXLINE "d" (bz 6) 6 st_cba = Some s'
          ∧ entries s' = new_entry "d" (bz 6) 6 :: entries st_cba
          ∧ cache_size s' = cache_size st_cba + 6.
Proof.
  assert ("d" ∉ keys st_cba) as Hk
    by (apply (bool_decide_unpack _); vm_compute; exact I).
  assert (admissible csapp_MAXLINE "d" (bz 6) 6) as Hadm by solve_admissible.
  assert (cache_size st_cba + 6 ≤ MAX_CACHE_SIZE) as Hfit
    by (vm_compute; congruence).
  split; [exact Hk|]. split; [exact Hadm|]. split; [exact Hfit|].
  exact (insert_with_room_keeps_all csapp_MAXLINE st_cba "d" (bz 6) 6
           st_cba_reachable Hk Hadm Hfit).
Defined.

(** X6.  [evict_entries] completes exactly when the entries behind the first
    one, of which there must be one, hold the bytes asked for: the loop
    frees a node before its first test, and a round on the first node has
    no defined result. *)
Theorem evict_entries_defined_iff (MAXLINE : Z) s space :
  reachable MAXLINE s →
  is_Some (evict_entries space s)
  ↔ tail (entries s) ≠ [] ∧ space ≤ total (tail (entries s)).
Proof.
  intros Hr. destruct (reachable_inv MAXLINE s Hr) as [l Hi].
  rewrite (inv_for_entries s l Hi). pose proof Hi as (Hrp & _ & _ & Hb & _).
  apply bounded_nonneg in Hb. split.
  - intros [s' E].
    destruct (evict_entries_inv _ _ _ _ Hrp E)
      as (kept & ev & -> & Hk & Hev & _ & _ & _ & Hsp).
    destruct kept as [|y kept]; [done|].
    cbn [app] in Hb |- *. rewrite fmap_cons, fmap_app in Hb |- *. cbn [tail].
    apply Forall_cons in Hb as [_ Hb]. apply Forall_app in Hb as [Hbk _].
    split; [by destruct kept, ev|].
    rewrite total_app. pose proof (total_nonneg _ Hbk). lia.
  - intros [Hne Hsp]. destruct l as [|x rest]; [done|].
    rewrite fmap_cons in Hb, Hne, Hsp. cbn [tail] in Hne, Hsp.
    apply Forall_cons in Hb as [_ Hb].
    destruct (evict_split_any rest space) as (kept & ev & -> & Hev & Hstop & Hcont);
      [by destruct rest|done..|].
    rewrite fmap_app in Hb. apply Forall_app in Hb as [_ Hbe].
    destruct (evict_entries_spec s (x :: kept) ev space)
      as (s' & E & _); [done..|]. by exists s'.
Qed.

Lemma evict_entries_defined_iff_witness :
  reachable csapp_MAXLINE st_cba
  ∧ (is_Some (evict_entries 7 st_cba)
     ↔ tail (entries st_cba) ≠ [] ∧ 7 ≤ total (tail (entries st_cba))).
Proof.
  split; [exact st_cba_reachable|].
  exact (evict_entries_defined_iff csapp_MAXLINE st_cba 7 st_cba_reachable).
Defined.

(** X7.  [release_cache] frees every node and assigns neither [cache] nor
    [cache_size]: if the store held an entry, [cache] is left pointing to a
    freed node, and a lookup in the state left has no defined result. *)
Theorem release_cache_frees_all (MAXLINE : Z) s :
  reachable MAXLINE s →
  ∃ s', release_cache s = Some s'
        ∧ heap s' = ∅ ∧ cache s' = cache s ∧ cache_size s' = cache_size s
        ∧ (keys s ≠ [] → ∀ k, get_web_object k s' = None).
Proof.
  intros Hr. destruct (reachable_tidy MAXLINE s Hr) as [l Ht].
  rewrite (release_cache_spec s l Ht). eexists. split; [done|].
  split; [done|]. split; [done|]. split; [done|].
  destruct Ht as (Hi & _). rewrite (inv_for_keys s l Hi).
  destruct Hi as ((Hc & _) & _). intros Hne k.
  destruct l as [|x l]; [done|]. unfold get_web_object. simpl. by rewrite Hc.
Qed.

Lemma release_cache_frees_all_witness :
  reachable csapp_MAXLINE st_cba
  ∧ ∃ s', release_cache st_cba = Some s'
          ∧ heap s' = ∅ ∧ cache s' = cache st_cba
          ∧ cache_size s' = cache_size st_cba
          ∧ (keys st_cba ≠ [] → ∀ k, get_web_object k s' = None).
Proof.
  split; [exact st_cba_reachable|].
  exact (release_cache_frees_all csapp_MAXLINE st_cba st_cba_reachable).
Defined.

(** X8.  With a size within [MAX_OBJECT_SIZE], an insert of an absent key
    completes exactly when the key, with its terminator, fits the buffer of
    [MAXLINE] bytes that [write_cache] allocates for it, and the caller's
    buffer holds the bytes that [memcpy] reads. *)
Theorem insert_defined_iff (MAXLINE : Z) s k v n :
  reachable MAXLINE s → k ∉ keys s → 0 ≤ n ≤ MAX_OBJECT_SIZE →
  is_Some (write_cache MAXLINE k v n s)
  ↔ Z.of_nat (String.length k) < MAXLINE ∧ n ≤ Z.of_nat (length v).
Proof.
  intros Hr Hk Hn. destruct (reachable_inv MAXLINE s Hr) as [l Hi].
  rewrite (inv_for_keys s l Hi) in Hk. pose proof Hi as (Hrp & _). split.
  - intros [s' E].
    destruct (write_cache_absent_Some MAXLINE _ _ _ _ _ _ Hrp Hk E)
      as (? & _ & ?). done.
  - intros [Hlen Hv].
    destruct (inv_insert_absent MAXLINE s l k v n Hi Hk)
      as (s' & _ & _ & _ & _ & E & _); [done|]. by exists s'.
Qed.

Lemma insert_defined_iff_witness :
  ("d" ∉ keys st_cba) ∧ 0 ≤ 6 ≤ MAX_OBJECT_SIZE
  ∧ (is_Some (write_cache csapp_MAXLINE "d" (bz 5) 6 st_cba)
     ↔ Z.of_nat (String.length "d") < csapp_MAXLINE
       ∧ 6 ≤ Z.of_nat (length (bz 5))).
Proof.
  assert ("d" ∉ keys st_cba) as Hk
    by (apply (bool_decide_unpack _); vm_compute; exact I).
  assert (0 ≤ 6 ≤ MAX_OBJECT_SIZE) as Hn by (split; vm_compute; congruence).
  split; [exact Hk|]. split; [exact Hn|].
  exact (insert_defined_iff csapp_MAXLINE st_cba "d" (bz 5) 6
           st_cba_reachable Hk Hn).
Defined.

(** X9.  A node stays at its address, with its key, bytes and size, for as
    long as its key stays in the store: a completed lookup or insert of
    admissible size moves pointers and frees evicted nodes, nothing else.
    So the node a lookup has returned can be read later, if its entry has
    not been evicted meanwhile. *)
Theorem cached_node_keeps_address (MAXLINE : Z) s o s' a c :
  reachable MAXLINE s →
  (∀ k v n, o = Insert k v n → 0 ≤ n ≤ MAX_OBJECT_SIZE) →
  step MAXLINE o s = Some s' →
  heap s !! a = Some c → url c ∈ keys s' →
  ∃ c', heap s' !! a = Some c' ∧ payload c' = payload c.
Proof.
  intros Hr Hsz Hstep Hc Hkey.
  destruct (reachable_tidy MAXLINE s Hr) as [l Ht].
  pose proof Ht as (Hi & Hcl & _). pose proof Hi as (Hrp & _ & Hnd & _).
  assert (∀ k s1, k ∈ e_key <$> l.*2 →
            (∀ r, get_web_object k s = Some (r, s1) →
             same_payload (heap s) (heap s1))) as Hhit.
  { intros k s1 Hin r E.
    destruct (inv_key_split _ _ Hnd Hin) as (l1 & [a1 e1] & l2 & -> & Hk & _).
    simpl in Hk. subst k.
    destruct (inv_lookup_hit_heap _ _ _ _ _ Hi) as (s2 & E2 & _ & Hsp).
    rewrite E2 in E. by injection E as _ <-. }
  assert (∀ s1, same_payload (heap s) (heap s1) →
            ∃ c', heap s1 !! a = Some c' ∧ payload c' = payload c) as Hsame.
  { intros s1 Hsp. specialize (Hsp a). rewrite Hc in Hsp.
    destruct (heap s1 !! a) as [c'|]; [|done]. exists c'. split; [done|].
    simpl in Hsp. congruence. }
  destruct o as [k|k v n]; simpl in Hstep.
  - destruct (get_web_object k s) as [[r s1]|] eqn:E; [|done].
    simpl in Hstep. injection Hstep as <-.
    destruct (decide (k ∈ e_key <$> l.*2)) as [Hin|Hout].
    + by eapply Hsame, Hhit.
    + rewrite (get_web_object_miss _ _ _ Hrp Hout) in E.
      injection E as _ <-. eauto.
  - destruct (decide (k ∈ e_key <$> l.*2)) as [Hin|Hout].
    + unfold write_cache in Hstep.
      destruct (get_web_object k s) as [[r s1]|] eqn:E; [|done].
      pose proof (Hhit k s1 Hin r E) as Hsp.
      destruct (inv_key_split _ _ Hnd Hin) as (l1 & [a1 e1] & l2 & -> & Hk & _).
      simpl in Hk. subst k.
      destruct (inv_lookup_hit _ _ _ _ _ Hi) as (s2 & E2 & _).
      rewrite E2 in E. injection E as <- <-. simpl in Hstep.
      injection Hstep as <-. by apply Hsame.
    + destruct (tidy_insert_absent MAXLINE _ _ _ _ _ _ Ht Hout
                  (Hsz k v n eq_refl) Hstep)
        as (a0 & kept & ev & -> & (Hi' & _)).
      rewrite (inv_for_keys _ _ Hi'), !fmap_cons in Hkey. cbn [snd] in Hkey.
      assert (a ∈ (kept ++ ev).*1) as Ha by (apply Hcl; by rewrite Hc).
      apply list_elem_of_fmap in Ha as ([a' e] & Heq & Hin).
      simpl in Heq. subst a'. destruct Hrp as (_ & Hs & _).
      destruct (seg_lookup _ _ _ _ _ _ Hs Hin) as (c0 & Hc0 & Hp).
      rewrite Hc in Hc0. injection Hc0 as <-.
      assert (url c = e_key e) as Hu by (by rewrite <- Hp).
      rewrite Hu in Hkey.
      assert (e_key e ∈ e_key <$> (kept ++ ev).*2) as Hke.
      { apply list_elem_of_fmap. exists e. split; [done|].
        apply list_elem_of_fmap. by exists (a, e). }
      apply elem_of_cons in Hkey as [Hek|Hkk].
      { simpl in Hek. by rewrite Hek in Hke. }
      rewrite !fmap_app in Hnd. apply NoDup_app in Hnd as (_ & Hdisj & _).
      apply elem_of_app in Hin as [Hin|Hin].
      * destruct Hi' as ((_ & (_ & _ & _ & _ & _ & Hs') & _) & _).
        destruct (seg_lookup _ _ _ _ _ _ Hs' Hin) as (c' & Hc' & Hp').
        exists c'. split; [done|]. congruence.
      * exfalso. apply (Hdisj _ Hkk). apply list_elem_of_fmap.
        exists e. split; [done|]. apply list_elem_of_fmap. by exists (a, e).
Qed.

Lemma cached_node_keeps_address_witness :
  (∀ k v n, Insert "d" (bz 6) 6 = Insert k v n → 0 ≤ n ≤ MAX_OBJECT_SIZE)
  ∧ step csapp_MAXLINE (Insert "d" (bz 6) 6) st_cba
    = Some (state_after csapp_MAXLINE (ops_cba ++ [Insert "d" (bz 6) 6]))
  ∧ heap st_cba !! 1%positive
    = Some (mkCache "a" (bz 3) 3 None (Some 2%positive))
  ∧ ∃ c', heap (state_after csapp_MAXLINE (ops_cba ++ [Insert "d" (bz 6) 6]))
            !! 1%positive = Some c'
          ∧ payload c' = Entry "a" (bz 3) 3.
Proof.
  assert (∀ k v n, Insert "d" (bz 6) 6 = Insert k v n → 0 ≤ n ≤ MAX_OBJECT_SIZE)
    as Hsz by (intros k v n [= _ _ <-]; split; vm_compute; congruence).
  assert (step csapp_MAXLINE (Insert "d" (bz 6) 6) st_cba
          = Some (state_after csapp_MAXLINE (ops_cba ++ [Insert "d" (bz 6) 6])))
    as Hstep by (vm_compute; reflexivity).
  assert (heap st_cba !! 1%positive
          = Some (mkCache "a" (bz 3) 3 None (Some 2%positive))) as Hc
    by (vm_compute; reflexivity).
  split; [exact Hsz|]. split; [exact Hstep|]. split; [exact Hc|].
  apply (cached_node_keeps_address csapp_MAXLINE st_cba _ _ 1%positive _
           st_cba_reachable Hsz Hstep Hc).
  apply (bool_decide_unpack _). vm_compute. exact I.
Defined.

(** ** proxy.c *)

(** X10.  A response that has been fetched and cached is served from the
    store byte for byte: after a fetch that runs to the end of a response
    of at most [MAX_OBJECT_SIZE] bytes, the lookup of the key returns a
    node on which [serve_cache] hands out the bytes received from the
    origin, which are the bytes the fetch has handed to its own client. *)
Theorem fetch_then_hit_serves_body (MAXLINE : Z) o object0 errno uri s :
  reachable MAXLINE s → uri ∉ keys s →
  Z.of_nat (String.length uri) < MAXLINE →
  connects o = true → reads_ok (body o) → broken (body o) = false →
  Z.of_nat (length (received (body o))) ≤ MAX_OBJECT_SIZE →
  default errno (hdr_errno o) ≠ EPIPE →
  Z.of_nat (length object0) = MAX_OBJECT_SIZE →
  ∃ s1 sent a s2,
    connect_server MAXLINE o object0 errno uri s = Some (s1, sent)
    ∧ concat sent = received (body o)
    ∧ get_web_object uri s1 = Some (Some a, s2)
    ∧ serve_cache a s2 = Some (received (body o)).
Proof.
  intros Hr Hk. destruct (reachable_inv MAXLINE s Hr) as [l Hi].
  rewrite (inv_for_keys s l Hi) in Hk.
  exact (fetch_then_hit MAXLINE o object0 errno uri s l Hi Hk).
Qed.

Lemma fetch_then_hit_serves_body_witness :
  ("u" ∉ keys init_cache)
  ∧ Z.of_nat (String.length "u") < csapp_MAXLINE
  ∧ reads_ok (body origin_ok)
  ∧ ∃ s1 sent a s2,
      connect_server csapp_MAXLINE origin_ok (bz MAX_OBJECT_SIZE) 0 "u"
        init_cache = Some (s1, sent)
      ∧ concat sent = [x01; x02; x03]
      ∧ get_web_object "u" s1 = Some (Some a, s2)
      ∧ serve_cache a s2 = Some [x01; x02; x03].
Proof.
  assert ("u" ∉ keys init_cache) as Hk by apply not_elem_of_nil.
  assert (Z.of_nat (String.length "u") < csapp_MAXLINE) as Hlen
    by (vm_compute; reflexivity).
  assert (reads_ok (body origin_ok)) as Hok.
  { repeat first [ apply Forall_nil_2 | apply Forall_cons; split
                 | eexists _, _; split; [reflexivity|discriminate] ]. }
  split; [exact Hk|]. split; [exact Hlen|]. split; [exact Hok|].
  apply (fetch_then_hit_serves_body csapp_MAXLINE origin_ok
           (bz MAX_OBJECT_SIZE) 0 "u" init_cache (reach_init csapp_MAXLINE)
           Hk Hlen);
    [reflexivity|exact Hok|reflexivity|vm_compute; congruence
    |vm_compute; congruence|vm_compute; reflexivity].
Defined.

(** X11.  [connect_server] does not test for a failed read.  When
    [rio_readnb] returns -1 before a write to the client has failed with
    [EPIPE], and the bytes received so far are at most
    [MAX_OBJECT_SIZE + 1], the test of line 371 holds with [buflen = -1]
    and [memcpy] is called with the length -1, the largest [size_t]: the
    call has no defined result, whatever the origin has sent before.  With
    more bytes received the -1 is handed to [rio_writen] only, about which
    the theorem says nothing. *)
Theorem failed_read_is_undefined (MAXLINE : Z) he evs1 e evs2 object0 errno
    uri s :
  reads_ok evs1 → broken evs1 = false →
  Z.of_nat (length (received evs1)) + -1 ≤ MAX_OBJECT_SIZE →
  connect_server MAXLINE (mkOrigin true he (evs1 ++ ReadError e :: evs2))
    object0 errno uri s = None.
Proof.
  intros Hok Hb Hsz. unfold connect_server. simpl.
  by rewrite relay_read_error.
Qed.

Lemma failed_read_is_undefined_witness :
  reads_ok [Chunk [x01; x02] None] ∧ broken [Chunk [x01; x02] None] = false
  ∧ Z.of_nat (length (received [Chunk [x01; x02] None])) + -1
    ≤ MAX_OBJECT_SIZE
  ∧ connect_server csapp_MAXLINE
      (mkOrigin true None ([Chunk [x01; x02] None] ++ ReadError 104 :: []))
      (bz MAX_OBJECT_SIZE) 0 "u" init_cache = None.
Proof.
  assert (reads_ok [Chunk [x01; x02] None]) as Hok.
  { repeat first [ apply Forall_nil_2 | apply Forall_cons; split
                 | eexists _, _; split; [reflexivity|discriminate] ]. }
  assert (broken [Chunk [x01; x02] None] = false) as Hb by reflexivity.
  assert (Z.of_nat (length (received [Chunk [x01; x02] None])) + -1
          ≤ MAX_OBJECT_SIZE) as Hsz by (vm_compute; congruence).
  split; [exact Hok|]. split; [exact Hb|]. split; [exact Hsz|].
  exact (failed_read_is_undefined csapp_MAXLINE None _ 104 [] _ 0 "u"
           init_cache Hok Hb Hsz).
Defined.

(** X12.  [parse_uri] writes NULs into [uri] to cut it, and has put back
    every character it has overwritten when it returns: [uri], which is the
    key of the cache before and after the call, is as it was. *)
Theorem parse_uri_restores_uri uri hostname port path uri' hostname' port' path' :
  parse_uri uri hostname port path = Some (uri', hostname', port', path') →
  uri' = uri.
Proof.
  intros E. destruct (cstr uri) as [u|] eqn:Hu.
  - rewrite (parse_uri_spec _ u _ _ _ Hu) in E.
    destruct (split_uri u) as [[host prt] pth].
    destruct (match pth with
              | Some x => strcpy path x
              | None => match path with
                        | [] => None
                        | _ :: p => Some ("/"%char :: p)
                        end
              end) as [pa|]; [|done].
    cbn [mbind option_bind] in E.
    destruct (strcpy port prt) as [p|]; [|done].
    cbn [mbind option_bind] in E.
    destruct (strcpy hostname host) as [h|]; [|done].
    cbn [mbind option_bind] in E. by injection E as <- _ _ _.
  - unfold parse_uri, strstr in E. change (drop 0 uri) with uri in E.
    by rewrite Hu in E.
Qed.

Lemma parse_uri_restores_uri_witness :
  ∃ h p pa,
    parse_uri (lit "http://example.org:8080/index.html" ++ [NUL])
      (fresh_array 64) (fresh_array 64) (fresh_array 64)
    = Some (lit "http://example.org:8080/index.html" ++ [NUL], h, p, pa).
Proof.
  destruct (parse_uri (lit "http://example.org:8080/index.html" ++ [NUL])
              (fresh_array 64) (fresh_array 64) (fresh_array 64))
    as [[[[u h] p] pa]|] eqn:E; [|by vm_compute in E].
  exists h, p, pa.
  by rewrite (parse_uri_restores_uri _ _ _ _ _ _ _ _ E).
Defined.

(** X13.  [parse_uri] completes on every string, if each of the three
    arrays is longer than the string (and [port] has room for "80"): no
    [strcpy] leaves its array.  The strings left are the parts that
    [split_uri] names; without a path, [path] is given its first
    character only. *)
Theorem parse_uri_completes uri u hostname port path :
  cstr uri = Some u →
  (length u < length hostname)%nat → (length u < length port)%nat →
  (2 < length port)%nat → (length u < length path)%nat →
  ∃ hostname' port' path',
    parse_uri uri hostname port path = Some (uri, hostname', port', path')
    ∧ cstr hostname' = Some (split_uri u).1.1
    ∧ cstr port' = Some (split_uri u).1.2
    ∧ match (split_uri u).2 with
      | Some x => cstr path' = Some x
      | None => path' = "/"%char :: tail path
      end.
Proof.
  intros Hu Hh Hp Hp2 Hpa.
  destruct (split_uri u) as [[host prt] pth] eqn:Hsp.
  by apply (parse_uri_total uri u).
Qed.

Lemma parse_uri_completes_witness :
  ∃ hostname' port' path',
    parse_uri (lit "example.org/a:b" ++ [NUL])
      (fresh_array 16) (fresh_array 16) (fresh_array 16)
    = Some (lit "example.org/a:b" ++ [NUL], hostname', port', path')
    ∧ cstr hostname' = Some (lit "example.org")
    ∧ cstr port' = Some (lit "80")
    ∧ cstr path' = Some (lit "/a:b").
Proof.
  apply (parse_uri_completes (lit "example.org/a:b" ++ [NUL])
           (lit "example.org/a:b") (fresh_array 16) (fresh_array 16)
           (fresh_array 16));
    [vm_compute; reflexivity
    |apply (bool_decide_unpack _); vm_compute; exact I..].
Defined.

(** X14.  On [pre//host:port/rest], where [pre] (as in "http:"), the host
    and the port have no "/" and the host has no ":", [parse_uri] leaves
    the host, the port and the path "/rest" in its three arrays, if these
    are longer than the string. *)
Theorem parse_uri_splits_url pre host prt rest junk hostname port path :
  let u := pre ++ lit "//" ++ host ++ ":"%char :: prt ++ "/"%char :: rest in
  "/"%char ∉ pre → "/"%char ∉ host → ":"%char ∉ host → "/"%char ∉ prt →
  NUL ∉ u →
  (length u < length hostname)%nat → (length u < length port)%nat →
  (length u < length path)%nat →
  ∃ hostname' port' path',
    parse_uri (u ++ NUL :: junk) hostname port path
    = Some (u ++ NUL :: junk, hostname', port', path')
    ∧ cstr hostname' = Some host ∧ cstr port' = Some prt
    ∧ cstr path' = Some ("/"%char :: rest).
Proof.
  intros u Hpre Hh1 Hh2 Hp Hnul Hlh Hlp Hlpa.
  assert ("/"%char ∉ host ++ ":"%char :: prt) as Hauth.
  { intros [?|Hin]%elem_of_app; [done|].
    by apply elem_of_cons in Hin as [?|?]. }
  pose proof (split_uri_scheme pre (host ++ ":"%char :: prt) ("/"%char :: rest)
                Hpre Hauth ltac:(eauto)) as Hsp.
  pose proof (find_sub_app ":"%char [] host prt Hh2) as Hf.
  cbn [app] in Hf. change (lit ":") with [":"%char] in Hsp.
  rewrite Hf, take_app_length in Hsp.
  assert (drop (S (length host)) (host ++ ":"%char :: prt) = prt) as Hd.
  { rewrite cons_middle, app_assoc. apply drop_app_length'.
    rewrite length_app. simpl. lia. }
  rewrite Hd, <- app_assoc in Hsp.
  destruct (parse_uri_total (u ++ NUL :: junk) u hostname port path
              host prt (Some ("/"%char :: rest)))
    as (h' & p' & pa' & E & ? & ? & ?); [by apply cstr_app|done..| |done|].
  { unfold u in Hlp. rewrite !length_app in Hlp. simpl in Hlp. lia. }
  by exists h', p', pa'.
Qed.

Lemma parse_uri_splits_url_witness :
  ∃ hostname' port' path',
    parse_uri (lit "http://example.org:8080/index.html" ++ NUL :: [])
      (fresh_array 64) (fresh_array 64) (fresh_array 64)
    = Some (lit "http://example.org:8080/index.html" ++ NUL :: [],
            hostname', port', path')
    ∧ cstr hostname' = Some (lit "example.org")
    ∧ cstr port' = Some (lit "8080")
    ∧ cstr path' = Some (lit "/index.html").
Proof.
  apply (parse_uri_splits_url (lit "http:") (lit "example.org") (lit "8080")
           (lit "index.html") [] (fresh_array 64) (fresh_array 64)
           (fresh_array 64));
    apply (bool_decide_unpack _); vm_compute; exact I.
Defined.

(** X15.  Without ":" in the host part, the port is "80". *)
Theorem parse_uri_default_port pre host rest junk hostname port path :
  let u := pre ++ lit "//" ++ host ++ rest in
  "/"%char ∉ pre → "/"%char ∉ host → ":"%char ∉ host →
  (rest = [] ∨ ∃ rest', rest = "/"%char :: rest') →
  NUL ∉ u →
  (length u < length hostname)%nat → (length u < length port)%nat →
  (2 < length port)%nat → (length u < length path)%nat →
  ∃ hostname' port' path',
    parse_uri (u ++ NUL :: junk) hostname port path
    = Some (u ++ NUL :: junk, hostname', port', path')
    ∧ cstr hostname' = Some host ∧ cstr port' = Some (lit "80").
Proof.
  intros u Hpre Hh1 Hh2 Hrest Hnul Hlh Hlp Hlp2 Hlpa.
  pose proof (split_uri_scheme pre host rest Hpre Hh1 Hrest) as Hsp.
  change (lit ":") with [":"%char] in Hsp.
  rewrite (find_sub_none _ _ _ Hh2) in Hsp.
  destruct (parse_uri_total (u ++ NUL :: junk) u hostname port path _ _ _
              (cstr_app u junk Hnul) Hsp)
    as (h' & p' & pa' & E & ? & ? & _); [done..|].
  by exists h', p', pa'.
Qed.

Lemma parse_uri_default_port_witness :
  ∃ hostname' port' path',
    parse_uri (lit "http://example.org/index.html" ++ NUL :: [])
      (fresh_array 64) (fresh_array 64) (fresh_array 64)
    = Some (lit "http://example.org/index.html" ++ NUL :: [],
            hostname', port', path')
    ∧ cstr hostname' = Some (lit "example.org")
    ∧ cstr port' = Some (lit "80").
Proof.
  apply (parse_uri_default_port (lit "http:") (lit "example.org")
           (lit "/index.html") [] (fresh_array 64) (fresh_array 64)
           (fresh_array 64));
    try (apply (bool_decide_unpack _); vm_compute; exact I).
  right. by eexists.
Defined.

(** X16.  Without "/" behind the host part, [parse_uri] writes one character
    of [path], the "/" at its start, and no terminator: the path it hands
    on is "/" followed by what the rest of the array held before. *)
Theorem parse_uri_no_path pre auth junk hostname port c path :
  let u := pre ++ lit "//" ++ auth in
  "/"%char ∉ pre → "/"%char ∉ auth → NUL ∉ u →
  (length u < length hostname)%nat → (length u < length port)%nat →
  (2 < length port)%nat →
  ∃ hostname' port',
    parse_uri (u ++ NUL :: junk) hostname port (c :: path)
    = Some (u ++ NUL :: junk, hostname', port', "/"%char :: path).
Proof.
  intros u Hpre Hauth Hnul Hlh Hlp Hlp2. subst u.
  pose proof (split_uri_scheme pre auth [] Hpre Hauth ltac:(eauto)) as Hsp.
  rewrite app_nil_r in Hsp.
  rewrite (parse_uri_spec _ _ _ _ _ (cstr_app _ junk Hnul)), Hsp.
  cbn [mbind option_bind].
  destruct (split_uri_parts _ _ _ _ Hsp) as (_ & Hl1 & Hprt & _).
  destruct (strcpy_fits port
              match find_sub (lit ":") auth with
              | Some k => drop (S k) auth
              | None => lit "80"
              end) as [p' ->].
  { destruct Hprt as [[_ ?]| ->]; [lia|simpl; lia]. }
  cbn [mbind option_bind].
  destruct (strcpy_fits hostname
              match find_sub (lit ":") auth with
              | Some k => take k auth
              | None => auth
              end) as [h' ->]; [lia|].
  by exists h', p'.
Qed.

Lemma parse_uri_no_path_witness :
  ∃ hostname' port',
    parse_uri (lit "http://example.org:8080" ++ NUL :: [])
      (fresh_array 64) (fresh_array 64) ("?"%char :: lit "old/path")
    = Some (lit "http://example.org:8080" ++ NUL :: [], hostname', port',
            "/"%char :: lit "old/path").
Proof.
  apply (parse_uri_no_path (lit "http:") (lit "example.org:8080") []
           (fresh_array 64) (fresh_array 64) "?"%char (lit "old/path"));
    apply (bool_decide_unpack _); vm_compute; exact I.
Defined.

(** X17.  The headers that [build_requesthdrs] leaves, when the reads of
    the client's lines succeed up to the read that ends the loop: the five
    lines of the proxy, with the port in the Host line unless [atoi] makes
    it 80, then the lines of the client that name none of Host, User-Agent,
    Connection and Proxy-Connection, in their order, all cut to the
    [MAXLINE - 1] characters that [snprintf] writes.  The empty line closes
    the headers if it is read; if a read fails before, the headers are
    left without it. *)
Theorem build_requesthdrs_complete (MAXLINE : Z) rio ls last rest
    hostname port path h p pa n :
  cstr hostname = Some h → cstr port = Some p → cstr path = Some pa →
  atoi p = Some n → Z.of_nat (length h + 1 + length p) < MAXLINE →
  header_lines rio ls →
  let hdrs := fixed_headers pa (host_header h p n)
              ++ concat (filter forwarded ls) in
  (last.1 ≠ -1 → cstr last.2 = Some CRLF →
   build_requesthdrs MAXLINE (rio ++ last :: rest) hostname port path
   = Some (snprintf MAXLINE (hdrs ++ CRLF)))
  ∧ (last.1 = -1 →
     build_requesthdrs MAXLINE (rio ++ last :: rest) hostname port path
     = Some (snprintf MAXLINE hdrs)).
Proof.
  intros Hh Hp Hpa Hn Hlen Hls hdrs.
  rewrite (build_requesthdrs_spec MAXLINE rio ls (last :: rest) _ _ _
             h p pa n Hh Hp Hpa Hn); [|lia|done|done].
  fold hdrs. destruct last as [m tmp]. cbn [header_loop fst snd]. split.
  - intros Hm Htmp. rewrite bool_decide_eq_false_2 by done. rewrite Htmp.
    cbn [mbind option_bind]. rewrite bool_decide_eq_true_2 by done.
    by rewrite snprintf_app.
  - intros ->. by rewrite bool_decide_eq_true_2.
Qed.

Lemma build_requesthdrs_complete_witness :
  build_requesthdrs csapp_MAXLINE (tail request_ex)
    (lit "example.org" ++ [NUL]) (lit "8080" ++ [NUL])
    (lit "/index.html" ++ [NUL])
  = Some (lit "GET /index.html HTTP/1.0" ++ CRLF
          ++ lit "Host: example.org:8080" ++ CRLF
          ++ lit "User-Agent: " ++ header_user_agent ++ CRLF
          ++ lit "Connection: close" ++ CRLF
          ++ lit "Proxy-Connection: close" ++ CRLF
          ++ lit "Accept: */*" ++ CRLF ++ CRLF).
Proof.
  assert (header_lines (take 2 (tail request_ex))
            [lit "Accept: */*" ++ CRLF; lit "Host: example.org" ++ CRLF])
    as Hls.
  { repeat first [ apply Forall2_nil_2 | apply Forall2_cons; split ];
      (split; [done|split; [vm_compute; reflexivity|done]]). }
  destruct (build_requesthdrs_complete csapp_MAXLINE
              (take 2 (tail request_ex))
              [lit "Accept: */*" ++ CRLF; lit "Host: example.org" ++ CRLF]
              (2, CRLF ++ [NUL]) []
              (lit "example.org" ++ [NUL]) (lit "8080" ++ [NUL])
              (lit "/index.html" ++ [NUL])
              (lit "example.org") (lit "8080") (lit "/index.html") 8080)
    as [H _];
    [vm_compute; reflexivity..|exact Hls|].
  change (tail request_ex)
    with (take 2 (tail request_ex) ++ [(2, CRLF ++ [NUL])]).
  rewrite H; [|done|vm_compute; reflexivity]. vm_compute. reflexivity.
Defined.

(** X18.  Whatever a handler is sent, and whatever the origin does, a call
    of [forward_request] that returns leaves a store that satisfies the
    invariants: [cache_size] is the byte total of the entries and is
    within [MAX_CACHE_SIZE], no key occurs twice, and no entry is larger
    than [MAX_OBJECT_SIZE]. *)
Theorem forward_request_keeps_invariants (MAXLINE : Z) net rio hostname port
    path object errno s s' sent :
  served MAXLINE s →
  forward_request MAXLINE net rio hostname port path object errno s
  = Some (s', sent) →
  served MAXLINE s'
  ∧ cache_size s' = total (entries s') ∧ cache_size s' ≤ MAX_CACHE_SIZE
  ∧ NoDup (keys s')
  ∧ Forall (λ e, 0 ≤ e_size e ≤ MAX_OBJECT_SIZE) (entries s').
Proof.
  intros Hs E.
  assert (served MAXLINE s') as Hs'.
  { unfold forward_request in E. destruct rio as [|[n buf] rio]; [done|].
    case_bool_decide; [by injection E as <- _|].
    destruct (cstr buf) as [line|]; [|done]. cbn [mbind option_bind] in E.
    destruct (fits MAXLINE line); [|done]. cbn [mbind option_bind] in E.
    destruct (sscanf_sss line) as [[[method uri] version]|];
      [|by injection E as <- _].
    destruct (strcasecmp method (lit "GET")); cbn [negb] in E;
      [|by injection E as <- _].
    destruct (get_web_object (key_of uri) s) as [[r s1]|] eqn:Eg; [|done].
    cbn [mbind option_bind] in E.
    pose proof (served_lookup MAXLINE _ _ _ _ Hs Eg) as Hs1.
    destruct r as [a|].
    - destruct (serve_cache a s1); [|done]. by injection E as <- _.
    - destruct (parse_uri (uri ++ [NUL]) hostname port path)
        as [[[[uri' h'] p'] pa']|]; [|done].
      cbn [mbind option_bind] in E.
      destruct (build_requesthdrs MAXLINE rio h' p' pa'); [|done].
      cbn [mbind option_bind] in E.
      destruct (cstr uri'); [|done]. cbn [mbind option_bind] in E.
      destruct (cstr h'); [|done]. cbn [mbind option_bind] in E.
      destruct (cstr p'); [|done]. cbn [mbind option_bind] in E.
      by eapply served_fetch. }
  split; [done|].
  destruct (reachable_inv MAXLINE s' (served_reachable MAXLINE s' Hs'))
    as (l & Hr & Htot & Hnd & Hb & Hmax).
  rewrite (repr_entries _ _ Hr). unfold keys. rewrite (repr_entries _ _ Hr).
  rewrite <- Htot. done.
Qed.

Lemma forward_request_keeps_invariants_witness :
  served csapp_MAXLINE init_cache
  ∧ served csapp_MAXLINE handled_ex.1
  ∧ cache_size handled_ex.1 = total (entries handled_ex.1)
  ∧ cache_size handled_ex.1 ≤ MAX_CACHE_SIZE
  ∧ NoDup (keys handled_ex.1)
  ∧ Forall (λ e, 0 ≤ e_size e ≤ MAX_OBJECT_SIZE) (entries handled_ex.1).
Proof.
  split; [exact (served_init csapp_MAXLINE)|].
  apply (forward_request_keeps_invariants csapp_MAXLINE net_ex request_ex
           (fresh_array csapp_MAXLINE) (fresh_array csapp_MAXLINE)
           (fresh_array csapp_MAXLINE) (bz MAX_OBJECT_SIZE) 0 init_cache
           handled_ex.1 handled_ex.2 (served_init csapp_MAXLINE)).
  vm_compute. reflexivity.
Defined.

(** X19.  A GET of a key that is in the store is answered from the store:
    the client is handed the bytes of the entry, whose node the lookup has
    moved to the front, and nothing depends on the origin, on the lines
    that follow the request line or on what the local arrays hold. *)
Theorem cached_request_skips_origin (MAXLINE : Z) net rio uri hostname port
    path object errno s :
  reachable MAXLINE s → get_line MAXLINE rio uri → key_of uri ∈ keys s →
  ∃ a s1 e,
    forward_request MAXLINE net rio hostname port path object errno s
    = Some (s1, [e_value e])
    ∧ e ∈ entries s ∧ e_key e = key_of uri
    ∧ get_web_object (key_of uri) s = Some (Some a, s1)
    ∧ cache s1 = Some a.
Proof.
  intros Hr Hline Hk. destruct (reachable_tidy MAXLINE s Hr) as [l Ht].
  pose proof Ht as (Hi & _). rewrite (inv_for_keys s l Hi) in Hk.
  destruct (lookup_hit_serves s l _ Ht Hk)
    as (a & s1 & e & E & Hin & Hke & Hc & Es & _).
  exists a, s1, e. split; [|done]. by eapply forward_request_hit.
Qed.

Lemma cached_request_skips_origin_witness :
  get_line csapp_MAXLINE request_ex uri_ex
  ∧ key_of uri_ex ∈ keys handled_ex.1
  ∧ ∃ a s1 e,
      forward_request csapp_MAXLINE net_ex request_ex [] [] [] [] 0
        handled_ex.1
      = Some (s1, [e_value e])
      ∧ e ∈ entries handled_ex.1 ∧ e_key e = key_of uri_ex
      ∧ get_web_object (key_of uri_ex) handled_ex.1 = Some (Some a, s1)
      ∧ cache s1 = Some a.
Proof.
  assert (reachable csapp_MAXLINE handled_ex.1) as Hr.
  { apply served_reachable.
    apply (served_fetch csapp_MAXLINE init_cache origin_ok
             (bz MAX_OBJECT_SIZE) 0 (key_of uri_ex) handled_ex.1
             handled_ex.2 (served_init csapp_MAXLINE)).
    vm_compute. reflexivity. }
  assert (key_of uri_ex ∈ keys handled_ex.1) as Hk
    by (apply (bool_decide_unpack _); vm_compute; exact I).
  split; [exact request_ex_get_line|]. split; [exact Hk|].
  exact (cached_request_skips_origin csapp_MAXLINE net_ex request_ex uri_ex
           [] [] [] [] 0 handled_ex.1 Hr request_ex_get_line Hk).
Defined.



(** X21.  [connect_server] on a fetch whose reads of the origin all
    succeed: a failed connect changes nothing; a relay that a write to the
    client leaves with [EPIPE], and a response of more than
    [MAX_OBJECT_SIZE] bytes, are handed to the client as far as the loop
    got and leave the store as it was; and a relay that ends with the
    response, of at most [MAX_OBJECT_SIZE] bytes, calls [write_cache] with
    the key, the bytes received and their number, provided [errno] was not
    [EPIPE] when the loop was entered (the test after the loop reads
    [errno] whether or not the loop has set it). *)
Theorem fetch_caches_when_complete (MAXLINE : Z) o object0 errno url s :
  reads_ok (body o) →
  let evs := relayed (body o) in
  let size := Z.of_nat (length (received evs)) in
  (connects o = false →
     connect_server MAXLINE o object0 errno url s = Some (s, []))
  ∧ (connects o = true → broken (body o) = true →
     connect_server MAXLINE o object0 errno url s
     = Some (s, chunk_buf <$> evs))
  ∧ (connects o = true → MAX_OBJECT_SIZE < size →
     connect_server MAXLINE o object0 errno url s
     = Some (s, chunk_buf <$> evs))
  ∧ (connects o = true → broken (body o) = false →
     size ≤ MAX_OBJECT_SIZE → default errno (hdr_errno o) ≠ EPIPE →
     Z.of_nat (length object0) = MAX_OBJECT_SIZE →
     ∃ object,
       take (Z.to_nat size) object = received (body o)
       ∧ connect_server MAXLINE o object0 errno url s
         = (s' ← write_cache MAXLINE url object size s;
            Some (s', chunk_buf <$> body o))).
Proof.
  intros Hok evs size. unfold connect_server.
  destruct (relay_spec (body o) object0 0 (default errno (hdr_errno o)) [] Hok)
    as (object & errno' & E & Hb1 & Hb2 & Htake); [done|].
  rewrite Z.add_0_l in E, Htake. simpl in E. fold evs size in E, Htake.
  split; [by intros ->|]. split; [|split].
  - intros -> Hb. simpl. rewrite E. simpl.
    rewrite bool_decide_eq_false_2; [done|]. intros [_ He]. by apply He, Hb1.
  - intros -> Hsz. simpl. rewrite E. simpl.
    rewrite bool_decide_eq_false_2; [done|]. lia.
  - intros -> Hb Hsz Herr Hobj. simpl. rewrite E. simpl.
    rewrite bool_decide_eq_true_2 by (split; [done|by apply Hb2]).
    exists object. destruct (Htake Hobj Hsz) as [_ Ht]. simpl in Ht.
    unfold evs in *. rewrite (relayed_broken _ Hb) in *. done.
Qed.

Lemma fetch_caches_when_complete_witness :
  reads_ok (body origin_ok)
  ∧ ∃ object,
      take 3 object = [x01; x02; x03]
      ∧ connect_server csapp_MAXLINE origin_ok (bz MAX_OBJECT_SIZE) 0 "u"
          init_cache
        = (s' ← write_cache csapp_MAXLINE "u" object 3 init_cache;
           Some (s', [[x01; x02]; [x03]])).
Proof.
  assert (reads_ok (body origin_ok)) as Hok.
  { repeat first [ apply Forall_nil_2 | apply Forall_cons; split
                 | eexists _, _; split; [reflexivity|discriminate] ]. }
  split; [exact Hok|].
  destruct (fetch_caches_when_complete csapp_MAXLINE origin_ok
              (bz MAX_OBJECT_SIZE) 0 "u" init_cache Hok) as (_ & _ & _ & H4).
  apply H4; [reflexivity|reflexivity|vm_compute; congruence
            |vm_compute; congruence|vm_compute; reflexivity].
Defined.
